(** * SAPI address endpoints of Core-Smart: a shallow embedding

    Source: [src/sapi/sapi_address.cpp].  The development follows the file
    top-down: the time-lock test [IsTimeLocked], the balance aggregation
    [GetAddressesBalances], the transaction listing
    [GetAddressesTransactions], the fee schedule [CalculateFee], the running
    solution [CUnspentSolution::AddUtxo] and the coin selection loop of
    [address_utxos_amount].

    Conventions.
    - [CAmount] ([int64_t]), [int], [uint32_t] values are integers in [Z].
      Amounts are bounded by [MAX_MONEY] in the node, far below [2^63], so
      sums of amounts are written without wrap-around; the one place where
      the source mixes signed and unsigned operands (the height comparison
      of [IsTimeLocked]) has its conversion written out.
    - [uint256] and [uint160] hashes are opaque identifiers, kept as [Z].
    - The ledger, the address index, the mempool, the clock and the random
      sources are collaborators that live outside this file of the source;
      they are gathered in the record [Env] and every function takes it as
      its first argument.
    - A function that answers [return SAPI::Error(req, code, ...)] yields
      [Err code]; one that returns [true] with out-parameters yields [Ok]
      of the out-parameters. *)

From Stdlib Require Import ZArith List Bool Lia String Permutation.
From Stdlib Require Import Sorted Mergesort Orders Floats Uint63.
Import ListNotations.
Local Open Scope Z_scope.

Set Implicit Arguments.

(** ** Replies *)

Module SAPI.

(** The codes of [SAPI::Codes] that this file of the source uses. *)
Inductive Codes : Type :=
| Valid
| BlockNotFound
| TxNotFound
| InvalidSmartCashAddress
| AddressNotFound
| NoUtxosAvailble
| BalanceInsufficient
| TimedOut
| PageOutOfRange.

(** [SAPI::Result(code, message)]. *)
Record Result : Type := mkResult { code : Codes; message : string }.

(** What [SAPI::Error] / [Error] wrote to the request before the function
    returned [false]: a single coded error, a list of coded errors under
    [HTTPStatus::BAD_REQUEST], or a plain message under
    [HTTPStatus::INTERNAL_SERVER_ERROR]. *)
Inductive Failure : Type :=
| Error (c : Codes)
| BadRequest (errors : list Result)
| InternalServerError.

End SAPI.

Inductive result (A : Type) : Type :=
| Ok (a : A)
| Err (e : SAPI.Failure).

Arguments Ok {A} a.
Arguments Err {A} e.

Definition bind {A B : Type} (r : result A) (k : A -> result B) : result B :=
  match r with
  | Ok a => k a
  | Err e => Err e
  end.

Declare Scope result_scope.
Delimit Scope result_scope with result.
Notation "x <- r ;; k" := (bind r (fun x => k))
  (at level 61, r at next level, right associativity) : result_scope.
Local Open Scope result_scope.

(** ** Ledger data *)

Abbreviation uint256 := Z (only parsing).
Abbreviation uint160 := Z (only parsing).
Abbreviation CAmount := Z (only parsing).
Abbreviation CScript := Z (only parsing).

(** [CTxOut]: the script and the value [GetLockTime()] reads from it
    (a [uint32_t]). *)
Record CTxOut : Type := mkTxOut {
  scriptPubKey : CScript;
  GetLockTime : Z
}.

Record CTransaction : Type := mkTx {
  GetHash : uint256;
  vout : list CTxOut
}.

Record CBlock : Type := mkBlock { vtx : list CTransaction }.

(** [CAddressIndexKey], as far as this file reads it. *)
Record CAddressIndexKey : Type := mkIndexKey {
  idx_blockHeight : Z;
  idx_txhash : uint256;
  idx_spending : bool
}.

(** [CMempoolAddressDeltaKey] and [CMempoolAddressDelta]. *)
Record CMempoolAddressDeltaKey : Type := mkMempoolKey {
  mp_txhash : uint256;
  mp_index : Z
}.

Record CMempoolAddressDelta : Type := mkMempoolDelta {
  mp_time : Z;
  mp_amount : CAmount;
  mp_prevhash : uint256;
  mp_prevout : Z
}.

(** [CAddressUnspentKey] and [CAddressUnspentValue]. *)
Record CAddressUnspentKey : Type := mkUnspentKey {
  nBlockHeight : Z;
  txhash : uint256;
  index : Z
}.

Record CAddressUnspentValue : Type := mkUnspentValue { satoshis : CAmount }.

Definition Utxo : Type := (CAddressUnspentKey * CAddressUnspentValue)%type.

(** The index key [(hashBytes, type)] of an address. *)
Definition IndexKey : Type := (uint160 * Z)%type.

(** ** Collaborators

    Everything the endpoints read from the rest of the node.  An address is
    identified by its string form; [ExtractDestination] gives the string
    form of the destination a script pays to, so that
    [CSmartAddress(addr) == address] is equality of strings.  The constants
    [LOCKTIME_THRESHOLD] and [INSTANTSEND_CONFIRMATIONS_REQUIRED] are
    declared in headers outside this file and are taken as they are.
    [GetAddressUnspent key offset limit] answers the slice of the unspent
    index that the call leaves in its output vector (spec, section 6:
    GetUnspentSlice returns the list of records of the slice); the start
    key and the direction are the same at every call of
    [address_utxos_amount] and are left out.  [GetAddressUnspentCount]
    answers the count; the cursor it also returns is not read by the
    selection. *)
Record Env : Type := mkEnv {
  (* chain *)
  chainActive_Height : Z;
  Tip_GetMedianTimePast : option Z;       (* None: chainActive.Tip() is null *)
  GetTime : Z;
  ReadBlockFromDisk : Z -> option CBlock; (* block of chainActive[height] *)
  ExtractDestination : CScript -> option string;
  LOCKTIME_THRESHOLD : Z;
  INSTANTSEND_CONFIRMATIONS_REQUIRED : Z;
  (* address index *)
  GetIndexKey : string -> option IndexKey;
  GetAddressIndex : IndexKey -> option (list (CAddressIndexKey * CAmount));
  GetAddressUnspentCount : IndexKey -> option Z;
  GetAddressUnspent : IndexKey -> Z -> Z -> option (list Utxo);
  (* mempool and instant send *)
  mempool_getAddressIndex :
    IndexKey -> option (list (CMempoolAddressDeltaKey * CMempoolAddressDelta));
  mempool_getSpentIndex : uint256 -> Z -> bool;
  IsLockedInstantSendTransaction : uint256 -> bool;
  (* randomness and the clock *)
  GetRand : Z -> Z;
  random_shuffle : list Utxo -> list Utxo;
  GetTimeMicros : nat -> Z                (* the k-th reading of the clock *)
}.

(** ** [IsTimeLocked] *)

(** [std::find_if]: the first element that satisfies [p]. *)
Definition find_if {A : Type} (p : A -> bool) (l : list A) : option A :=
  List.find p l.

(** Conversion of an [int] to [unsigned int] (the usual arithmetic
    conversion applied to [nCurrentHeight < nLockTime]). *)
Definition to_uint32 (z : Z) : Z := z mod 2 ^ 32.

(** The lambda of the output search: the script decodes and the decoded
    destination is [address]. *)
Definition pays_to (env : Env) (address : string) (output : CTxOut) : bool :=
  match ExtractDestination env (scriptPubKey output) with
  | None => false
  | Some addr => String.eqb addr address
  end.

Definition IsTimeLocked (env : Env) (blockHeight : Z) (txhash : uint256)
    (address : string) : result bool :=
  match ReadBlockFromDisk env blockHeight with
  | None => Err (SAPI.Error SAPI.BlockNotFound)
  | Some block =>
    match find_if (fun t => Z.eqb txhash (GetHash t)) (vtx block) with
    | None => Err (SAPI.Error SAPI.TxNotFound)
    | Some tx =>
      match find_if (pays_to env address) (vout tx) with
      | None => Ok false
      | Some out =>
        let nLockTime := GetLockTime out in
        if Z.eqb nLockTime 0 then Ok false
        else
          let nCurrentHeight := chainActive_Height env in
          let nCurrentTime :=
            match Tip_GetMedianTimePast env with
            | Some t => t
            | None => GetTime env
            end in
          if ((nLockTime <? LOCKTIME_THRESHOLD env)
                && (to_uint32 nCurrentHeight <? nLockTime))
             || ((nLockTime >=? LOCKTIME_THRESHOLD env)
                   && (nCurrentTime <? nLockTime))
          then Ok true
          else Ok false
      end
    end
  end.

(** ** [CalculateFee]

    The source computes in [double]:
    [feeCalc = (((nInputs*148) + (2*34) + 10 + 9) / 1024.0) * 100000],
    truncated to [CAmount], then
    [feeCalc = std::floor((feeCalc / 100000.0) + 0.5) * 100000] and the
    maximum with [100000].  With [k = nInputs*148 + 87] an [int], [k/1024.0]
    and its product with [100000] are exact in binary64 (the significand
    [k*3125] stays below [2^53]), so the first line is the integer quotient
    of [k*100000] by [1024].  In the second line the quotient by [100000.0]
    is rounded, but only by a relative [2^-53], while the fractional part of
    [feeCalc/100000] is a multiple of [10^-5]: adding [0.5] and taking the
    floor gives [(feeCalc + 50000) / 100000] exactly.  [byte_size] is the
    [int] sub-expression, computed in [int]: its value fits up to 14510024
    inputs; beyond, C++ leaves it undefined and the builds wrap around. *)

(** The value of an [int] expression whose mathematical value is [z]:
    two's complement wrap-around into [-2^31 .. 2^31 - 1] (wrapping every
    intermediate sum or once at the end gives the same value). *)
Definition int_of (z : Z) : Z := (z + 2 ^ 31) mod 2 ^ 32 - 2 ^ 31.

Definition byte_size (nInputs : Z) : Z :=
  int_of (nInputs * 148 + 2 * 34 + 10 + 9).

Definition fee_step (nInputs : Z) : CAmount :=
  let feeCalc := Z.quot (byte_size nInputs * 100000) 1024 in
  (feeCalc + 50000) / 100000 * 100000.

Definition CalculateFee (nInputs : Z) : CAmount :=
  Z.max (fee_step nInputs) 100000.

(** The same schedule computed in binary64 as the source writes it, to be
    compared with [CalculateFee] on a range of input counts.
    [trunc_double] is the conversion of a [double] to [CAmount] (towards
    zero), [floor_double] is [std::floor]. *)
Definition double_of_Z (z : Z) : float :=
  if z <? 0 then (- PrimFloat.of_uint63 (Uint63.of_Z (- z)))%float
  else PrimFloat.of_uint63 (Uint63.of_Z z).

Definition trunc_double (f : float) : Z :=
  match Prim2SF f with
  | S754_finite s m e =>
    let v := if s then Z.neg m else Z.pos m in
    if 0 <=? e then v * 2 ^ e else Z.quot v (2 ^ (- e))
  | _ => 0
  end.

Definition floor_double (f : float) : Z :=
  match Prim2SF f with
  | S754_finite s m e =>
    let v := if s then Z.neg m else Z.pos m in
    if 0 <=? e then v * 2 ^ e else v / 2 ^ (- e)
  | _ => 0
  end.

Definition CalculateFee_double (nInputs : Z) : CAmount :=
  let feeCalc :=
    trunc_double ((double_of_Z (byte_size nInputs) / 1024) * 100000)%float in
  let feeCalc :=
    floor_double ((double_of_Z feeCalc / 100000) + 0.5)%float * 100000 in
  Z.max feeCalc 100000.

(** ** [GetAddressesBalances] *)

Record CAddressBalance : Type := mkAddressBalance {
  address : string;
  balance : CAmount;
  locked : CAmount;
  received : CAmount;
  unconfirmed : CAmount
}.

(** [std::map<uint256, CAmount>], kept as a list of bindings in increasing
    key order; [map_add k v m] is [m[k] += v] ([operator[]] creates a zero
    entry when the key is new). *)
Definition UnconfirmedMap : Type := list (uint256 * CAmount).

Fixpoint map_add (k : uint256) (v : CAmount) (m : UnconfirmedMap)
  : UnconfirmedMap :=
  match m with
  | [] => [(k, 0 + v)]
  | (k', v') :: m' =>
    if k =? k' then (k', v' + v) :: m'
    else if k <? k' then (k, 0 + v) :: m
    else (k', v') :: map_add k v m'
  end.

(** The loop over the confirmed index of one address; the accumulator is
    [(balance, locked, received)].  A failing [IsTimeLocked] ends the whole
    call ([return false]). *)
Fixpoint confirmed_loop (env : Env) (address : string)
    (addressIndex : list (CAddressIndexKey * CAmount))
    (acc : CAmount * CAmount * CAmount) : result (CAmount * CAmount * CAmount) :=
  match addressIndex with
  | [] => Ok acc
  | (key, value) :: rest =>
    let '(balance, locked, received) := acc in
    fLocked <- IsTimeLocked env (idx_blockHeight key) (idx_txhash key) address ;;
    let locked := if fLocked then locked + value else locked in
    let received := if 0 <? value then received + value else received in
    confirmed_loop env address rest (balance + value, locked, received)
  end.

(** The loop over the mempool deltas of one address; the accumulator is
    [(balance, received, unconfirmed, mapUnconfirmed)]. *)
Fixpoint mempool_loop (env : Env)
    (mempoolDelta : list (CMempoolAddressDeltaKey * CMempoolAddressDelta))
    (acc : CAmount * CAmount * CAmount * UnconfirmedMap)
  : CAmount * CAmount * CAmount * UnconfirmedMap :=
  match mempoolDelta with
  | [] => acc
  | (k, d) :: rest =>
    let '(balance, received, unconfirmed, mapUnconfirmed) := acc in
    if IsLockedInstantSendTransaction env (mp_txhash k) then
      let received := if 0 <? mp_amount d then received + mp_amount d
                      else received in
      mempool_loop env rest
        (balance + mp_amount d, received, unconfirmed, mapUnconfirmed)
    else
      mempool_loop env rest
        (balance, received, unconfirmed + mp_amount d,
         map_add (mp_txhash k) (mp_amount d) mapUnconfirmed)
  end.

(** The part of the loop body that follows the two index lookups: both
    accumulations and the snapshot that is pushed.  [mempoolDelta] is [None]
    when [mempool.getAddressIndex] answers [false]. *)
Definition address_totals (env : Env) (addrStr : string)
    (addressIndex : list (CAddressIndexKey * CAmount))
    (mempoolDelta :
       option (list (CMempoolAddressDeltaKey * CMempoolAddressDelta)))
    (mapUnconfirmed : UnconfirmedMap)
  : result (CAddressBalance * UnconfirmedMap) :=
  r <- confirmed_loop env addrStr addressIndex (0, 0, 0) ;;
  let '(balance, locked, received) := r in
  let '(balance, received, unconfirmed, mapUnconfirmed) :=
    match mempoolDelta with
    | Some deltas =>
      mempool_loop env deltas (balance, received, 0, mapUnconfirmed)
    | None => (balance, received, 0, mapUnconfirmed)
    end in
  Ok (mkAddressBalance addrStr balance locked received unconfirmed,
      mapUnconfirmed).

(** The local [errors] vector and the two out-parameters. *)
Record BalanceState : Type := mkBalanceState {
  errors : list SAPI.Result;
  vecBalances : list CAddressBalance;
  mapUnconfirmed : UnconfirmedMap
}.

(** The [for] loop over [vecAddr].  The first component is [Some f] when the
    body left the function with [return false] (only a failing
    [IsTimeLocked] does), and [None] when the loop ran to its end. *)
Fixpoint balances_loop (env : Env) (vecAddr : list string) (st : BalanceState)
  : option SAPI.Failure * BalanceState :=
  match vecAddr with
  | [] => (None, st)
  | addrStr :: rest =>
    match GetIndexKey env addrStr with
    | None =>
      balances_loop env rest
        (mkBalanceState
           (errors st ++ [SAPI.mkResult SAPI.InvalidSmartCashAddress
                            ("Invalid address: " ++ addrStr)])
           (vecBalances st) (mapUnconfirmed st))
    | Some key =>
      match GetAddressIndex env key with
      | None =>
        balances_loop env rest
          (mkBalanceState
             (errors st ++ [SAPI.mkResult SAPI.AddressNotFound
                              ("No information available for " ++ addrStr)])
             (vecBalances st) (mapUnconfirmed st))
      | Some addressIndex =>
        match address_totals env addrStr addressIndex
                (mempool_getAddressIndex env key) (mapUnconfirmed st) with
        | Err f => (Some f, st)
        | Ok (snapshot, mapUnconfirmed') =>
          balances_loop env rest
            (mkBalanceState (errors st) (vecBalances st ++ [snapshot])
               mapUnconfirmed')
        end
      end
    end
  end.

(** What the caller holds after the call: the reply ([None] for [true]) and
    the two out-parameters. *)
Record BalancesOut : Type := mkBalancesOut {
  reply : option SAPI.Failure;
  out_vecBalances : list CAddressBalance;
  out_mapUnconfirmed : UnconfirmedMap
}.

Definition GetAddressesBalances (env : Env) (vecAddr : list string)
    (mapUnconfirmed0 : UnconfirmedMap) : BalancesOut :=
  match balances_loop env vecAddr (mkBalanceState [] [] mapUnconfirmed0) with
  | (Some f, st) => mkBalancesOut (Some f) (vecBalances st) (mapUnconfirmed st)
  | (None, st) =>
    let r :=
      match errors st with
      | _ :: _ => Some (SAPI.BadRequest (errors st))
      | [] =>
        match vecBalances st with
        | [] => Some SAPI.InternalServerError
        | _ :: _ => None
        end
      end in
    mkBalancesOut r (vecBalances st) (mapUnconfirmed st)
  end.

(** The sums the balance fields are meant to be (spec, sections 4.2 and 8). *)
Definition sumZ (l : list Z) : Z := fold_right Z.add 0 l.

Definition positive (l : list Z) : list Z := filter (fun v => 0 <? v) l.

Definition instant (env : Env)
    (l : list (CMempoolAddressDeltaKey * CMempoolAddressDelta)) : list Z :=
  map (fun kd => mp_amount (snd kd))
      (filter (fun kd => IsLockedInstantSendTransaction env (mp_txhash (fst kd)))
              l).

Definition not_instant (env : Env)
    (l : list (CMempoolAddressDeltaKey * CMempoolAddressDelta)) : list Z :=
  map (fun kd => mp_amount (snd kd))
      (filter (fun kd =>
                 negb (IsLockedInstantSendTransaction env (mp_txhash (fst kd))))
              l).

Definition deltas_of
    (o : option (list (CMempoolAddressDeltaKey * CMempoolAddressDelta)))
  : list (CMempoolAddressDeltaKey * CMempoolAddressDelta) :=
  match o with
  | Some l => l
  | None => []
  end.

(** A snapshot carries the sums of its address's deltas. *)
Definition snapshot_sums (env : Env) (b : CAddressBalance) : Prop :=
  exists key addressIndex,
    GetIndexKey env (address b) = Some key /\
    GetAddressIndex env key = Some addressIndex /\
    let mp := deltas_of (mempool_getAddressIndex env key) in
    balance b = sumZ (map snd addressIndex) + sumZ (instant env mp) /\
    received b = sumZ (positive (map snd addressIndex))
                 + sumZ (positive (instant env mp)) /\
    unconfirmed b = sumZ (not_instant env mp).

(** The confirmed deltas of an index whose time-lock test answers
    "locked", whatever their sign. *)
Definition is_locked (env : Env) (address : string)
    (kv : CAddressIndexKey * CAmount) : bool :=
  match IsTimeLocked env (idx_blockHeight (fst kv)) (idx_txhash (fst kv))
                     address with
  | Ok true => true
  | _ => false
  end.

Definition locked_deltas (env : Env) (address : string)
    (addressIndex : list (CAddressIndexKey * CAmount)) : list Z :=
  map snd (filter (is_locked env address) addressIndex).

(** Two answers of [mempool.getAddressIndex] that differ in order only. *)
Definition same_deltas
    (a b : option (list (CMempoolAddressDeltaKey * CMempoolAddressDelta)))
  : Prop :=
  match a, b with
  | Some l, Some l' => Permutation l l'
  | None, None => True
  | _, _ => False
  end.

(** The address has an index key and the index answers for it. *)
Definition has_index (env : Env) (addrStr : string) : bool :=
  match GetIndexKey env addrStr with
  | None => false
  | Some key =>
    match GetAddressIndex env key with
    | None => false
    | Some _ => true
    end
  end.

(** The time-lock test answers on every confirmed delta of the address
    (true of an address that has no index). *)
Definition locks_answer (env : Env) (addrStr : string) : bool :=
  match GetIndexKey env addrStr with
  | None => true
  | Some key =>
    match GetAddressIndex env key with
    | None => true
    | Some addressIndex =>
      forallb (fun kv : CAddressIndexKey * CAmount =>
                 match IsTimeLocked env (idx_blockHeight (fst kv))
                                    (idx_txhash (fst kv)) addrStr with
                 | Ok _ => true
                 | Err _ => false
                 end)
              addressIndex
    end
  end.

(** The error an address adds to the list of the reply: one for an address
    without index key, one for an address whose index has no answer, none
    otherwise. *)
Definition address_errors (env : Env) (addrStr : string) : list SAPI.Result :=
  match GetIndexKey env addrStr with
  | None =>
    [SAPI.mkResult SAPI.InvalidSmartCashAddress ("Invalid address: " ++ addrStr)]
  | Some key =>
    match GetAddressIndex env key with
    | None =>
      [SAPI.mkResult SAPI.AddressNotFound
                     ("No information available for " ++ addrStr)]
    | Some _ => []
    end
  end.

(** The snapshot of an address that has an index, every field as the sum
    the two loops accumulate. *)
Definition snapshot_of (env : Env) (addrStr : string) (b : CAddressBalance)
  : Prop :=
  exists key addressIndex,
    GetIndexKey env addrStr = Some key /\
    GetAddressIndex env key = Some addressIndex /\
    let mp := deltas_of (mempool_getAddressIndex env key) in
    b = mkAddressBalance addrStr
          (sumZ (map snd addressIndex) + sumZ (instant env mp))
          (sumZ (locked_deltas env addrStr addressIndex))
          (sumZ (positive (map snd addressIndex))
           + sumZ (positive (instant env mp)))
          (sumZ (not_instant env mp)).

(** ** [GetAddressesTransactions] *)

(** [static_cast<int>] of an [int64_t]: reduction to 32 bits, two's
    complement. *)
Definition static_cast_int (z : Z) : Z := (z + 2 ^ 31) mod 2 ^ 32 - 2 ^ 31.

(** An entry of [addressTxs]: [(txhash, blockHeight, amount)]. *)
Definition TxEntry : Type := (uint256 * Z * CAmount)%type.

(** [std::get<2>( *found ) += value] on the first entry whose hash is [h]. *)
Fixpoint add_to_found (h : uint256) (value : CAmount) (addressTxs : list TxEntry)
  : list TxEntry :=
  match addressTxs with
  | [] => []
  | (h', height, amount) :: rest =>
    if h' =? h then (h', height, amount + value) :: rest
    else (h', height, amount) :: add_to_found h value rest
  end.

(** The [while] loop.  [pos] is [std::distance(addressIndex.begin(), tx)]. *)
Fixpoint transactions_loop (nIndexOffset pageSize : Z)
    (rows : list (CAddressIndexKey * CAmount)) (pos : Z)
    (addressTxs : list TxEntry) (totalNumTxs : Z) : list TxEntry * Z :=
  match rows with
  | [] => (addressTxs, totalNumTxs)
  | (key, value) :: rest =>
    match find_if (fun t : TxEntry => fst (fst t) =? idx_txhash key)
                  addressTxs with
    | None =>
      let addressTxs :=
        if (pos >=? nIndexOffset)
             && (Z.of_nat (List.length addressTxs) <? pageSize)
        then addressTxs ++ [(idx_txhash key, idx_blockHeight key, value)]
        else addressTxs in
      transactions_loop nIndexOffset pageSize rest (pos + 1) addressTxs
        (totalNumTxs + 1)
    | Some _ =>
      transactions_loop nIndexOffset pageSize rest (pos + 1)
        (add_to_found (idx_txhash key) value addressTxs) totalNumTxs
    end
  end.

Definition GetAddressesTransactions (env : Env) (addrStr : string)
    (pageNum pageSize : Z) (ascending : bool) : result (list TxEntry * Z) :=
  match GetIndexKey env addrStr with
  | None => Err (SAPI.Error SAPI.InvalidSmartCashAddress)
  | Some key =>
    match GetAddressIndex env key with
    | None => Err (SAPI.Error SAPI.AddressNotFound)
    | Some addressIndex =>
      let addressIndex := if ascending then addressIndex else rev addressIndex in
      let nIndexOffset := static_cast_int ((pageNum - 1) * pageSize) in
      Ok (transactions_loop nIndexOffset pageSize addressIndex 0 [] 0)
    end
  end.

(** The number of distinct transactions among the rows of an index. *)
Fixpoint distinct_txids (seen : list uint256)
    (rows : list (CAddressIndexKey * CAmount)) : Z :=
  match rows with
  | [] => 0
  | (key, _) :: rest =>
    if existsb (Z.eqb (idx_txhash key)) seen then distinct_txids seen rest
    else 1 + distinct_txids (idx_txhash key :: seen) rest
  end.

(** ** [CUnspentSolution] *)

(** Modelled from the spec: the declaration of [CUnspentSolution]
    (sapi/sapi_address.h) is not among the sources.  The record has the four
    fields section 3 lists for a SelectionSolution; the null solution selects
    nothing and has zero totals, and a solution is null when it selects
    nothing. *)
Record CUnspentSolution : Type := mkSolution {
  amount : CAmount;
  fee : CAmount;
  change : CAmount;
  vecUtxos : list Utxo
}.

Definition SetNull : CUnspentSolution := mkSolution 0 0 0 [].

Definition IsNull (s : CUnspentSolution) : bool :=
  match vecUtxos s with
  | [] => true
  | _ :: _ => false
  end.

(** Modelled from the spec: [operator==] of [CAddressUnspentKey] is declared
    outside the sources; section 3 identifies an unspent output by
    [(txid, outputIndex)]. *)
Definition key_eqb (a b : CAddressUnspentKey) : bool :=
  (txhash a =? txhash b) && (index a =? index b).

(** [CUnspentSolution::AddUtxo]. *)
Definition AddUtxo (s : CUnspentSolution) (utxo : Utxo) : CUnspentSolution :=
  match find_if (fun entry : Utxo => key_eqb (fst utxo) (fst entry))
                (vecUtxos s) with
  | Some _ => s
  | None =>
    let vecUtxos' := vecUtxos s ++ [utxo] in
    mkSolution (amount s + satoshis (snd utxo))
               (CalculateFee (Z.of_nat (List.length vecUtxos')))
               (change s)
               vecUtxos'
  end.

(** ** [address_utxos_amount] *)

Definition nUtxosSlice : Z := 2000.
Definition nMatchTimeoutMicros : Z := 5 * 1000000.

(** [std::sort] with [amountSortHTL]: larger amounts first.  The order the
    standard library leaves among equal amounts is fixed here by a stable
    merge sort. *)
Module AmountHTL <: TotalLeBool.
Definition t : Type := Utxo.
Definition leb (a b : Utxo) : bool := satoshis (snd b) <=? satoshis (snd a).
Lemma leb_total : forall a b, leb a b = true \/ leb b a = true.
Proof. intros a b; unfold leb; lia. Qed.
End AmountHTL.

Module SortHTL := Sort AmountHTL.

(** The parameters read from the request body. *)
Record SelectArgs : Type := mkSelectArgs {
  addrStr : string;
  expectedAmount : CAmount;
  fRandom : bool;
  fInstantPay : bool
}.

(** The variables of the matching loop; [ticks] counts the readings of
    [GetTimeMicros] taken so far. *)
Record Sel : Type := mkSel {
  nPageCurrent : Z;
  currentSolution : CUnspentSolution;
  bestSolution : CUnspentSolution;
  fTimedOut : bool;
  ticks : nat
}.

(** [GetTimeMicros() - nTime0 > nMatchTimeoutMicros] at the reading [k];
    [nTime0] is the first reading. *)
Definition deadline_passed (env : Env) (k : nat) : bool :=
  GetTimeMicros env k - GetTimeMicros env 0 >? nMatchTimeoutMicros.

(** The removal of time-locked outputs from a slice; a failing
    [IsTimeLocked] ends the call. *)
Fixpoint filter_unlocked (env : Env) (address : string) (l : list Utxo)
  : result (list Utxo) :=
  match l with
  | [] => Ok []
  | it :: rest =>
    locked <- IsTimeLocked env (nBlockHeight (fst it)) (txhash (fst it)) address ;;
    rest' <- filter_unlocked env address rest ;;
    Ok (if locked then rest' else it :: rest')
  end.

(** The test that guards [AddUtxo]: not spent in the mempool, and confirmed
    deep enough when instant pay is asked for. *)
Definition selectable (env : Env) (args : SelectArgs) (nHeight : Z) (it : Utxo)
  : bool :=
  negb (mempool_getSpentIndex env (txhash (fst it)) (index (fst it)))
  && (negb (fInstantPay args)
      || (fInstantPay args
          && (nHeight - nBlockHeight (fst it) + 1
              >=? INSTANTSEND_CONFIRMATIONS_REQUIRED env))).

(** The change written into a solution that reaches the amount. *)
Definition with_change (expected : CAmount) (s : CUnspentSolution)
  : CUnspentSolution :=
  mkSolution (amount s) (fee s)
    (if amount s =? expected + fee s then 0
     else amount s - expected - fee s)
    (vecUtxos s).

(** The inner [for] loop over the ordered slice. *)
Fixpoint walk (env : Env) (args : SelectArgs) (nHeight : Z) (l : list Utxo)
    (st : Sel) : Sel :=
  match l with
  | [] => st
  | it :: rest =>
    if deadline_passed env (ticks st) then
      mkSel (nPageCurrent st) (currentSolution st) (bestSolution st) true
            (S (ticks st))
    else
      let cur :=
        if selectable env args nHeight it
        then AddUtxo (currentSolution st) it
        else currentSolution st in
      if amount cur >=? expectedAmount args + fee cur then
        let cur := with_change (expectedAmount args) cur in
        if IsNull (bestSolution st)
           || (negb (fRandom args)
               && (List.length (vecUtxos cur) <? List.length (vecUtxos (bestSolution st)))%nat)
        then mkSel (nPageCurrent st) SetNull cur (fTimedOut st) (S (ticks st))
        else mkSel (nPageCurrent st) cur (bestSolution st) (fTimedOut st)
                   (S (ticks st))
      else
        walk env args nHeight rest
          (mkSel (nPageCurrent st) cur (bestSolution st) (fTimedOut st)
                 (S (ticks st)))
  end.

(** How one pass through the body of the [do] loop ends: at a [break], or
    at the loop condition. *)
Inductive BodyExit : Type := Break | ToCondition.

Definition page_body (env : Env) (args : SelectArgs) (nUtxoCount nPages nHeight : Z)
    (st : Sel) : result (BodyExit * Sel) :=
  let nIndexOffset :=
    static_cast_int (Z.rem (nPageCurrent st) nPages * nUtxosSlice) in
  let nLimit :=
    static_cast_int
      (if negb (Z.rem nUtxoCount nUtxosSlice =? 0)
          && (Z.rem (nPageCurrent st) nPages =? nPages - 1)
       then Z.rem nUtxoCount nUtxosSlice
       else nUtxosSlice) in
  if negb (fRandom args) && deadline_passed env (ticks st) then
    Ok (Break, mkSel (nPageCurrent st) (currentSolution st) (bestSolution st)
                     (fTimedOut st) (S (ticks st)))
  else
    let st :=
      if fRandom args then st
      else mkSel (nPageCurrent st) (currentSolution st) (bestSolution st)
                 (fTimedOut st) (S (ticks st)) in
    match GetIndexKey env (addrStr args) with
    | None => Err (SAPI.Error SAPI.InvalidSmartCashAddress)
    | Some key =>
      match GetAddressUnspent env key nIndexOffset nLimit with
      | None => Err (SAPI.Error SAPI.AddressNotFound)
      | Some slice =>
        unspentOutputs <- filter_unlocked env (addrStr args) slice ;;
        let unspentOutputs :=
          if fRandom args then random_shuffle env unspentOutputs
          else SortHTL.sort unspentOutputs in
        let st := walk env args nHeight unspentOutputs st in
        if negb (IsNull (bestSolution st)) && fRandom args then Ok (Break, st)
        else if deadline_passed env (ticks st) then
          Ok (Break, mkSel (nPageCurrent st) (currentSolution st)
                           (bestSolution st) true (S (ticks st)))
        else
          Ok (ToCondition,
              mkSel (nPageCurrent st) (currentSolution st) (bestSolution st)
                    (fTimedOut st) (S (ticks st)))
      end
    end.

(** The [do ... while ((++nPageCurrent % nPages) != nPageStart)] loop.  The
    pass counter [fuel] makes the recursion structural; [None] is a loop
    that has not ended within [fuel] passes. *)
Fixpoint do_while (env : Env) (args : SelectArgs)
    (nUtxoCount nPages nPageStart nHeight : Z) (fuel : nat) (st : Sel)
  : option (result Sel) :=
  match fuel with
  | O => None
  | S fuel =>
    match page_body env args nUtxoCount nPages nHeight st with
    | Err e => Some (Err e)
    | Ok (Break, st) => Some (Ok st)
    | Ok (ToCondition, st) =>
      let st := mkSel (nPageCurrent st + 1) (currentSolution st)
                      (bestSolution st) (fTimedOut st) (ticks st) in
      if Z.rem (nPageCurrent st) nPages =? nPageStart then Some (Ok st)
      else do_while env args nUtxoCount nPages nPageStart nHeight fuel st
    end
  end.

(** The number of slices: [nUtxoCount / nUtxosSlice], one more when there is
    a remainder. *)
Definition slices (nUtxoCount : Z) : Z :=
  Z.quot nUtxoCount nUtxosSlice
  + (if Z.rem nUtxoCount nUtxosSlice =? 0 then 0 else 1).

(** The endpoint, up to the solution that is then written to the reply.
    The two readings before the loop are [nTime0] and [nTime1]. *)
Definition address_utxos_amount (env : Env) (args : SelectArgs)
  : option (result CUnspentSolution) :=
  match GetIndexKey env (addrStr args) with
  | None => Some (Err (SAPI.Error SAPI.InvalidSmartCashAddress))
  | Some key =>
    match GetAddressUnspentCount env key with
    | None => Some (Err (SAPI.Error SAPI.AddressNotFound))
    | Some nUtxoCount =>
      if nUtxoCount =? 0 then Some (Err (SAPI.Error SAPI.NoUtxosAvailble))
      else
        let nPages := slices nUtxoCount in
        let nPageStart := GetRand env nPages in
        let nHeight := chainActive_Height env in
        match do_while env args nUtxoCount nPages nPageStart nHeight
                (Z.to_nat nPages)
                (mkSel nPageStart SetNull SetNull false 2) with
        | None => None
        | Some (Err e) => Some (Err e)
        | Some (Ok st) =>
          if (Z.rem (nPageCurrent st + 1) nPages =? nPageStart)
             && IsNull (bestSolution st) && negb (fTimedOut st)
          then Some (Err (SAPI.Error SAPI.BalanceInsufficient))
          else if IsNull (bestSolution st)
          then Some (Err (SAPI.Error SAPI.TimedOut))
          else Some (Ok (bestSolution st))
        end
    end
  end.

(** Selection properties, as predicates. *)

(** What identifies an unspent output. *)
Definition utxo_id (u : Utxo) : uint256 * Z := (txhash (fst u), index (fst u)).

Definition amounts (l : list Utxo) : list Z :=
  map (fun u => satoshis (snd u)) l.

(** [S] reaches [expected] net of the fee of its own number of inputs. *)
Definition satisfying (expected : CAmount) (S : list Utxo) : Prop :=
  expected + CalculateFee (Z.of_nat (List.length S)) <= sumZ (amounts S).

(** An output of a slice that the selection may use: the time-lock test
    answers "not locked" and the guard of [AddUtxo] lets it through. *)
Definition spendable (env : Env) (args : SelectArgs) (u : Utxo) : bool :=
  match IsTimeLocked env (nBlockHeight (fst u)) (txhash (fst u)) (addrStr args) with
  | Ok false => selectable env args (chainActive_Height env) u
  | _ => false
  end.

(** No set of distinct spendable outputs of [scanned] reaches the amount
    with fewer inputs than [sol]. *)
Definition fewest_inputs (env : Env) (args : SelectArgs) (scanned : list Utxo)
    (sol : CUnspentSolution) : Prop :=
  forall S : list Utxo,
    NoDup S ->
    incl S (filter (spendable env args) scanned) ->
    satisfying (expectedAmount args) S ->
    (List.length (vecUtxos sol) <= List.length S)%nat.

(** What a returned solution must satisfy (spec, sections 3 and 8): the
    total is the sum of the selected amounts, the selected outputs are
    pairwise distinct, the fee is that of their number, the total covers
    the amount asked plus the fee, and the change is what is left. *)
Definition solution_sound (expected : CAmount) (s : CUnspentSolution) : Prop :=
  amount s = sumZ (amounts (vecUtxos s))
  /\ NoDup (map utxo_id (vecUtxos s))
  /\ fee s = CalculateFee (Z.of_nat (List.length (vecUtxos s)))
  /\ expected + fee s <= amount s
  /\ change s = amount s - expected - fee s
  /\ 0 <= change s
  /\ (amount s = expected + fee s -> change s = 0).

(** The invariant of the running solution. *)
Definition running_ok (s : CUnspentSolution) : Prop :=
  amount s = sumZ (amounts (vecUtxos s))
  /\ NoDup (map utxo_id (vecUtxos s))
  /\ 0 <= fee s
  /\ (vecUtxos s <> [] ->
      fee s = CalculateFee (Z.of_nat (List.length (vecUtxos s)))).

(** The invariant of the matching loop. *)
Definition sel_ok (expected : CAmount) (st : Sel) : Prop :=
  running_ok (currentSolution st)
  /\ (IsNull (bestSolution st) = true
      \/ solution_sound expected (bestSolution st)).

(** ** Example ledgers *)

Definition addr1 : string := "SXun9XDHLdBhG4Yd1ueZfLfRpC9kZgwT1b".
Definition key1 : IndexKey := (1, 1).

(** A string that has no index key. *)
Definition not_an_address : string := "not-an-address".

(** A chain whose block at height [h] holds one transaction, of hash [h],
    with one output that pays [addr1] (script [1]) under the lock value
    [lock h]. *)
Definition one_tx_chain (lock : Z -> Z) (h : Z) : option CBlock :=
  Some (mkBlock [mkTx h [mkTxOut 1 (lock h)]]).

(** A node at height 100 that knows the single address [addr1], with the
    given lock values, confirmed index, mempool deltas and unspent outputs;
    no mempool spend, [GetRand] answers 0, the clock stands still. *)
Definition ledger (lock : Z -> Z)
    (addressIndex : list (CAddressIndexKey * CAmount))
    (mempoolDelta : list (CMempoolAddressDeltaKey * CMempoolAddressDelta))
    (instantTx : uint256 -> bool)
    (utxos : list Utxo) : Env :=
  mkEnv 100 (Some 1600000000) 1600000000
        (one_tx_chain lock)
        (fun s => if s =? 1 then Some addr1 else None)
        500000000 2
        (fun a => if String.eqb a addr1 then Some key1 else None)
        (fun _ => Some addressIndex)
        (fun _ => Some (Z.of_nat (List.length utxos)))
        (fun _ offset limit =>
           Some (firstn (Z.to_nat limit) (skipn (Z.to_nat offset) utxos)))
        (fun _ => Some mempoolDelta)
        (fun _ _ => false)
        instantTx
        (fun _ => 0)
        (fun l => l)
        (fun _ => 0).

Definition no_lock (h : Z) : Z := 0.

(** The unspent output of transaction [h] (mined at height [h]), index 0. *)
Definition utxo (h : Z) (value : CAmount) : Utxo :=
  (mkUnspentKey h h 0, mkUnspentValue value).

(** Section 8, first selection scenario: three outputs, 6 coins asked. *)
Definition three_outputs : list Utxo :=
  [utxo 1 100000000; utxo 2 500000000; utxo 3 300000000].

Definition env_three : Env := ledger no_lock [] [] (fun _ => false) three_outputs.

Definition ask (expected : CAmount) : SelectArgs :=
  mkSelectArgs addr1 expected false false.

(** An address with 2001 unspent outputs, hence two slices: 2000 outputs of
    [small] satoshis followed by one of [last] satoshis. *)
Definition two_slices (small last : CAmount) : list Utxo :=
  map (fun h => utxo (Z.of_nat h) small) (seq 1 2000) ++ [utxo 2001 last].

Definition env_two_slices (small last : CAmount) : Env :=
  ledger no_lock [] [] (fun _ => false) (two_slices small last).

(** Section 8, balance scenario: one confirmed receive of 1000 and one
    mempool spend of 400 that is not instant-finalized. *)
Definition env_balance : Env :=
  ledger no_lock
         [(mkIndexKey 5 5 false, 1000)]
         [(mkMempoolKey 77 0, mkMempoolDelta 1600000100 (-400) 5 0)]
         (fun _ => false) [].

(** A transaction (hash 10, height 10) that spends 500 from [addr1] and pays
    300 back to it under a lock until height 1000; the 500 were received at
    height 5. *)
Definition lock_at_10 (h : Z) : Z := if h =? 10 then 1000 else 0.

Definition env_relock : Env :=
  ledger lock_at_10
         [(mkIndexKey 5 5 false, 500);
          (mkIndexKey 10 10 true, -500);
          (mkIndexKey 10 10 false, 300)]
         [] (fun _ => false) [].

(** Three index rows, the last two for two outputs of one transaction. *)
Definition env_two_outputs : Env :=
  ledger no_lock
         [(mkIndexKey 5 5 false, 1);
          (mkIndexKey 6 6 false, 1);
          (mkIndexKey 6 6 false, 2)]
         [] (fun _ => false) [].

(** ** Further predicates on the selection *)

(** An output the selection may hold: the guard of [AddUtxo] lets it
    through, its time-lock test answers "not locked", and some slice of the
    address's unspent index lists it. *)
Definition picked_ok (env : Env) (args : SelectArgs) (u : Utxo) : Prop :=
  selectable env args (chainActive_Height env) u = true
  /\ IsTimeLocked env (nBlockHeight (fst u)) (txhash (fst u)) (addrStr args)
     = Ok false
  /\ exists key nIndexOffset nLimit slice,
      GetIndexKey env (addrStr args) = Some key
      /\ GetAddressUnspent env key nIndexOffset nLimit = Some slice
      /\ In u slice.

(** The part of [picked_ok] that the ordered slice already guarantees. *)
Definition listed_unlocked (env : Env) (args : SelectArgs) (u : Utxo) : Prop :=
  IsTimeLocked env (nBlockHeight (fst u)) (txhash (fst u)) (addrStr args)
  = Ok false
  /\ exists key nIndexOffset nLimit slice,
      GetIndexKey env (addrStr args) = Some key
      /\ GetAddressUnspent env key nIndexOffset nLimit = Some slice
      /\ In u slice.

(** ** The balance endpoints: [address_balances] and [address_balance] *)

(** What an endpoint wrote before it returned [false]: a failure of the
    function it calls, or a plain message under
    [HTTPStatus::BAD_REQUEST]. *)
Inductive EndpointFailure : Type :=
| Failed (f : SAPI.Failure)
| BadRequestMessage (msg : string).

(** One object of the reply; the amounts are kept as [CAmount] (the
    conversion [UniValueFromAmount] is formatting). *)
Record BalanceEntry : Type := mkBalanceEntry {
  e_address : string;
  e_received : CAmount;
  e_sent : CAmount;
  e_total : CAmount;
  e_locked : CAmount;
  e_unlocked : CAmount;
  e_unconfirmed_delta : CAmount;
  e_unconfirmed_transactions : list (uint256 * CAmount)
}.

(** The object built from one [CAddressBalance] and the map of the call. *)
Definition balance_entry (mapUnconfirmed : UnconfirmedMap)
    (r : CAddressBalance) : BalanceEntry :=
  mkBalanceEntry (address r) (received r) (received r - balance r)
                 (balance r) (locked r) (balance r - locked r)
                 (unconfirmed r) mapUnconfirmed.

(** The loop of [address_balances] that keeps the first occurrence of each
    address of the body. *)
Fixpoint unique_addresses (values : list string) (vecAddresses : list string)
  : list string :=
  match values with
  | [] => vecAddresses
  | addrStr :: rest =>
    if existsb (String.eqb addrStr) vecAddresses
    then unique_addresses rest vecAddresses
    else unique_addresses rest (vecAddresses ++ [addrStr])
  end.

(** [address_balances]; the body is an array of strings, [None] when it is
    no array.  (The message of the source writes the word address between
    quotes.) *)
Definition address_balances (env : Env) (bodyParameter : option (list string))
  : list BalanceEntry + EndpointFailure :=
  match bodyParameter with
  | None | Some [] =>
    inr (BadRequestMessage
           "Addresses are expedted to be a JSON array: [ address, ... ]")
  | Some values =>
    let vecAddresses := unique_addresses values [] in
    let out := GetAddressesBalances env vecAddresses [] in
    match reply out with
    | Some f => inr (Failed f)
    | None =>
      inl (map (balance_entry (out_mapUnconfirmed out)) (out_vecBalances out))
    end
  end.

(** [address_balance]; the path parameter is [None] when it is missing.
    The reply is built from [vecResult.front()]; the call has returned
    [true], so the vector is not empty. *)
Definition address_balance (env : Env) (address : option string)
  : option BalanceEntry + EndpointFailure :=
  match address with
  | None =>
    inr (BadRequestMessage
           "No SmartCash address specified. Use /address/balance/<smartcash_address>")
  | Some addrStr =>
    let out := GetAddressesBalances env [addrStr] [] in
    match reply out with
    | Some f => inr (Failed f)
    | None =>
      inl (option_map (balance_entry (out_mapUnconfirmed out))
                      (hd_error (out_vecBalances out)))
    end
  end.

(** The keys of a [std::map] come in strictly increasing order. *)
Definition map_sorted (m : UnconfirmedMap) : Prop :=
  StronglySorted Z.lt (map fst m).


(** ** Reading a page of transactions *)

Definition txid_of (e : TxEntry) : uint256 := fst (fst e).

(** The amount of the entry of transaction [t], 0 when the page has none. *)
Definition entry_amount (t : uint256) (addressTxs : list TxEntry) : CAmount :=
  match find_if (fun e : TxEntry => txid_of e =? t) addressTxs with
  | Some e => snd e
  | None => 0
  end.

(** The sum of the index rows of transaction [t]. *)
Definition tx_sum (t : uint256) (rows : list (CAddressIndexKey * CAmount))
  : CAmount :=
  sumZ (map snd (filter (fun r => idx_txhash (fst r) =? t) rows)).

(** The rows in the order the loop of [GetAddressesTransactions] reads
    them. *)
Definition rows_read (ascending : bool)
    (addressIndex : list (CAddressIndexKey * CAmount))
  : list (CAddressIndexKey * CAmount) :=
  if ascending then addressIndex else rev addressIndex.

(** ** The chain as it grows *)

(** The time [IsTimeLocked] compares a time lock with: the median time past
    of the tip, or the clock when there is no tip. *)
Definition nCurrentTime_of (env : Env) : Z :=
  match Tip_GetMedianTimePast env with
  | Some t => t
  | None => GetTime env
  end.

(** The same node with its tip at another height and median time past. *)
Definition at_tip (env : Env) (height medianTimePast : Z) : Env :=
  mkEnv height (Some medianTimePast) (GetTime env)
        (ReadBlockFromDisk env) (ExtractDestination env)
        (LOCKTIME_THRESHOLD env) (INSTANTSEND_CONFIRMATIONS_REQUIRED env)
        (GetIndexKey env) (GetAddressIndex env) (GetAddressUnspentCount env)
        (GetAddressUnspent env) (mempool_getAddressIndex env)
        (mempool_getSpentIndex env) (IsLockedInstantSendTransaction env)
        (GetRand env) (random_shuffle env) (GetTimeMicros env).

(** ** [GetAddressMempool]

    The key of a mempool delta as the mempool returns it: the type and the
    bytes of the address, then the transaction and the index (the record
    [CMempoolAddressDeltaKey] above keeps the last two).  The mempool
    lookups of this function and of [GetAddressMempoolFull] are gathered in
    [MempoolView]; [getAddressFromIndex] gives the string form of an
    address, [mp_lookup] is [mempool.lookup]. *)
Record MempoolKeyFull : Type := mkMempoolKeyFull {
  mk_type : Z;
  mk_addressBytes : uint160;
  mk_key : CMempoolAddressDeltaKey
}.

Definition MempoolRow : Type := (MempoolKeyFull * CMempoolAddressDelta)%type.

Record MempoolView : Type := mkMempoolView {
  mp_getAddressIndex : IndexKey -> option (list MempoolRow);
  getAddressFromIndex : Z -> uint160 -> option string;
  mp_lookup : uint256 -> option CTransaction
}.

(** [std::sort] with [timestampSorta]: earlier deltas first. *)
Definition time_leb (a b : MempoolRow) : bool :=
  mp_time (snd a) <=? mp_time (snd b).

Lemma time_leb_total : forall a b, time_leb a b = true \/ time_leb b a = true.
Proof. intros a b; unfold time_leb; lia. Qed.

Module TimeOrder <: TotalLeBool.
Definition t : Type := MempoolRow.
Definition leb : t -> t -> bool := time_leb.
Definition leb_total : forall a b, leb a b = true \/ leb b a = true :=
  time_leb_total.
End TimeOrder.

Module TimeSort := Sort TimeOrder.

(** One object of the reply; [d_prev] is the pair of [prevtxid] and
    [prevout], present when the amount is negative. *)
Record MempoolDeltaReply : Type := mkMempoolDeltaReply {
  d_address : string;
  d_txid : uint256;
  d_index : Z;
  d_satoshis : CAmount;
  d_timestamp : Z;
  d_prev : option (uint256 * Z)
}.

(** The loop over the sorted deltas. *)
Fixpoint mempool_entries (view : MempoolView) (indexes : list MempoolRow)
  : list MempoolDeltaReply + EndpointFailure :=
  match indexes with
  | [] => inl []
  | (k, d) :: rest =>
    match getAddressFromIndex view (mk_type k) (mk_addressBytes k) with
    | None => inr (BadRequestMessage "Unknown address type")
    | Some address =>
      let delta :=
        mkMempoolDeltaReply address (mp_txhash (mk_key k))
          (mp_index (mk_key k)) (mp_amount d) (mp_time d)
          (if mp_amount d <? 0 then Some (mp_prevhash d, mp_prevout d)
           else None) in
      match mempool_entries view rest with
      | inr f => inr f
      | inl result => inl (delta :: result)
      end
    end
  end.

Definition GetAddressMempool (env : Env) (view : MempoolView) (addr : string)
  : list MempoolDeltaReply + EndpointFailure :=
  match GetIndexKey env addr with
  | None => inr (Failed (SAPI.Error SAPI.AddressNotFound))
  | Some key =>
    match mp_getAddressIndex view key with
    | None => inr (Failed (SAPI.Error SAPI.AddressNotFound))
    | Some indexes => mempool_entries view (TimeSort.sort indexes)
    end
  end.

(** What a delta and its object have in common. *)
Definition row_core (r : MempoolRow) : uint256 * Z * CAmount * Z :=
  (mp_txhash (mk_key (fst r)), mp_index (mk_key (fst r)),
   mp_amount (snd r), mp_time (snd r)).

Definition delta_core (e : MempoolDeltaReply) : uint256 * Z * CAmount * Z :=
  (d_txid e, d_index e, d_satoshis e, d_timestamp e).

(** ** [address_utxos] and [address_deposit]: the page arithmetic

    Both endpoints write the same lines (617 to 624 and 701 to 708 of the
    source): the number of pages, the offset of the page and its limit. *)
Definition pages_of (nCount nPageSize : Z) : Z :=
  let nPages := static_cast_int (Z.quot nCount nPageSize) in
  if Z.rem nCount nPageSize =? 0 then nPages else nPages + 1.

Definition page_offset (nPageNumber nPageSize : Z) : Z :=
  static_cast_int ((nPageNumber - 1) * nPageSize).

Definition page_limit (nCount nPageSize nPageNumber nPages : Z) : Z :=
  static_cast_int
    (if negb (Z.rem nCount nPageSize =? 0) && (nPageNumber =? nPages)
     then Z.rem nCount nPageSize
     else nPageSize).

(** One object of the reply of [address_utxos]. *)
Record UtxoReplyEntry : Type := mkUtxoReplyEntry {
  o_txid : uint256;
  o_index : Z;
  o_value : CAmount;
  o_height : Z;
  o_inMempool : bool;
  o_spendable : bool
}.

Record UtxosReply : Type := mkUtxosReply {
  ur_count : Z;
  ur_pages : Z;
  ur_page : Z;
  ur_blockHeight : Z;
  ur_address : string;
  ur_utxos : list UtxoReplyEntry
}.

(** The loop over the outputs of the page; a failing [IsTimeLocked] ends
    the call. *)
Fixpoint utxo_entries (env : Env) (address : string) (unspentOutputs : list Utxo)
  : result (list UtxoReplyEntry) :=
  match unspentOutputs with
  | [] => Ok []
  | (key, value) :: rest =>
    let fInMempool := mempool_getSpentIndex env (txhash key) (index key) in
    fLocked <- IsTimeLocked env (nBlockHeight key) (txhash key) address ;;
    arrUtxos <- utxo_entries env address rest ;;
    Ok (mkUtxoReplyEntry (txhash key) (index key) (satoshis value)
                         (nBlockHeight key) fInMempool (negb fLocked)
        :: arrUtxos)
  end.

(** [address_utxos].  The descending fetch, which starts from the last key
    of the index ([lastIndex]) and runs in reverse, is the collaborator
    [GetAddressUnspentReverse]; the ascending one is [GetAddressUnspent].
    The script of the address in the reply is left out. *)
Definition address_utxos (env : Env)
    (GetAddressUnspentReverse : IndexKey -> Z -> Z -> option (list Utxo))
    (addrStr : string) (nPageNumber nPageSize : Z) (fAsc : bool)
  : result UtxosReply :=
  match GetIndexKey env addrStr with
  | None => Err (SAPI.Error SAPI.InvalidSmartCashAddress)
  | Some key =>
    match GetAddressUnspentCount env key with
    | None => Err (SAPI.Error SAPI.AddressNotFound)
    | Some nUtxoCount =>
      if nUtxoCount =? 0 then Err (SAPI.Error SAPI.NoUtxosAvailble)
      else
        let nPages := pages_of nUtxoCount nPageSize in
        if nPageNumber >? nPages then Err (SAPI.Error SAPI.PageOutOfRange)
        else
          let nIndexOffset := page_offset nPageNumber nPageSize in
          let nLimit := page_limit nUtxoCount nPageSize nPageNumber nPages in
          match (if fAsc then GetAddressUnspent env key nIndexOffset nLimit
                 else GetAddressUnspentReverse key nIndexOffset nLimit) with
          | None => Err (SAPI.Error SAPI.AddressNotFound)
          | Some unspentOutputs =>
            arrUtxos <- utxo_entries env addrStr unspentOutputs ;;
            Ok (mkUtxosReply nUtxoCount nPages nPageNumber
                             (chainActive_Height env) addrStr arrUtxos)
          end
    end
  end.

(** What an output of the index and its object in the reply have to
    agree on. *)
Definition utxo_reported (env : Env) (address : string) (u : Utxo)
    (e : UtxoReplyEntry) : Prop :=
  o_txid e = txhash (fst u)
  /\ o_index e = index (fst u)
  /\ o_value e = satoshis (snd u)
  /\ o_height e = nBlockHeight (fst u)
  /\ o_inMempool e
     = mempool_getSpentIndex env (txhash (fst u)) (index (fst u))
  /\ IsTimeLocked env (nBlockHeight (fst u)) (txhash (fst u)) address
     = Ok (negb (o_spendable e)).

(** ** [address_deposit]

    A row of the deposit index, key and value together. *)
Record CDeposit : Type := mkDeposit {
  dep_txhash : uint256;
  dep_timestamp : Z;
  dep_blockHeight : Z;
  dep_satoshis : CAmount
}.

(** The two queries of the deposit index.  [GetDepositIndexCount key start
    end] gives [(nDeposits, nFirstTimestamp, nLastTimestamp)];
    [GetDepositIndex key timestamp offset limit reverse] gives the rows. *)
Record DepositView : Type := mkDepositView {
  GetDepositIndexCount : IndexKey -> Z -> Z -> option (Z * Z * Z);
  GetDepositIndex : IndexKey -> Z -> Z -> Z -> bool -> option (list CDeposit)
}.

(** The ways [address_deposit] returns [false], in the order of the source:
    the four plain messages under [HTTPStatus::BAD_REQUEST] (lines 595, 605,
    612 and 629) and the two coded errors (lines 615 and 621). *)
Inductive DepositFailure : Type :=
| TimestampsOutOfOrder
| DepositInvalidAddress
| NoTimerangeInformation
| NoDepositAvailble
| DepositPageOutOfRange
| NoDepositInformation.

Definition INT_MAX : Z := 2 ^ 31 - 1.

Record DepositReply : Type := mkDepositReply {
  dr_count : Z;
  dr_pages : Z;
  dr_page : Z;
  dr_deposits : list CDeposit
}.

Definition address_deposit (env : Env) (view : DepositView) (addrStr : string)
    (timestampFrom timestampTo : option Z) (nPageNumber nPageSize : Z)
    (fAsc : bool) : DepositReply + DepositFailure :=
  let start := match timestampFrom with Some v => v | None => 0 end in
  let end_ := match timestampTo with Some v => v | None => INT_MAX end in
  if end_ <=? start then inr TimestampsOutOfOrder
  else
    match GetIndexKey env addrStr with
    | None => inr DepositInvalidAddress
    | Some key =>
      match GetDepositIndexCount view key start end_ with
      | None => inr NoTimerangeInformation
      | Some (nDeposits, nFirstTimestamp, nLastTimestamp) =>
        if nDeposits =? 0 then inr NoDepositAvailble
        else
          let nPages := pages_of nDeposits nPageSize in
          if nPageNumber >? nPages then inr DepositPageOutOfRange
          else
            let nIndexOffset := page_offset nPageNumber nPageSize in
            let nLimit := page_limit nDeposits nPageSize nPageNumber nPages in
            match GetDepositIndex view key
                    (if fAsc then nFirstTimestamp else nLastTimestamp)
                    nIndexOffset nLimit (negb fAsc) with
            | None => inr NoDepositInformation
            | Some depositIndex =>
              inl (mkDepositReply nDeposits nPages nPageNumber depositIndex)
            end
      end
    end.

(** ** [GetAddressMempoolFull], [address_transactions] and
    [address_transaction]

    [GetTransactionInfo] (sapi.cpp) fills the object of a transaction; here
    it gives that object, of a type [Info] left open, or what it wrote when
    it failed.  Its first argument is the block of a confirmed transaction,
    [None] for the call with [uint256{}] on a transaction of the mempool. *)
Fixpoint mempool_full_entries (Info : Type) (view : MempoolView)
    (GetTransactionInfo : option CBlock -> CTransaction -> Info + EndpointFailure)
    (indexes : list MempoolRow) : list Info + EndpointFailure :=
  match indexes with
  | [] => inl []
  | (k, d) :: rest =>
    match getAddressFromIndex view (mk_type k) (mk_addressBytes k) with
    | None => inr (BadRequestMessage "Unknown address type")
    | Some _ =>
      match mp_lookup view (mp_txhash (mk_key k)) with
      | None => inr (Failed (SAPI.Error SAPI.TxNotFound))
      | Some tx =>
        match GetTransactionInfo None tx with
        | inr f => inr f
        | inl txObj =>
          match mempool_full_entries view GetTransactionInfo rest with
          | inr f => inr f
          | inl result => inl (txObj :: result)
          end
        end
      end
    end
  end.

Definition GetAddressMempoolFull (Info : Type) (env : Env) (view : MempoolView)
    (GetTransactionInfo : option CBlock -> CTransaction -> Info + EndpointFailure)
    (addr : string) : list Info + EndpointFailure :=
  match GetIndexKey env addr with
  | None => inr (Failed (SAPI.Error SAPI.AddressNotFound))
  | Some key =>
    match mp_getAddressIndex view key with
    | None => inr (Failed (SAPI.Error SAPI.AddressNotFound))
    | Some indexes =>
      mempool_full_entries view GetTransactionInfo (TimeSort.sort indexes)
    end
  end.

(** An item of [data]: the object of a confirmed transaction (its entry of
    [vecResult], whose amount the reply prints without sign, its direction,
    and the information on it when the block holds it), or the object of a
    transaction of the mempool. *)
Inductive DataItem (Info : Type) : Type :=
| Confirmed (txEntry : TxEntry) (txDirection : string) (info : option Info)
| Pending (txObj : Info).

Arguments Pending {Info} txObj.

Definition direction_of (txEntry : TxEntry) : string :=
  if snd txEntry >? 0 then "Received" else "Sent".

(** The loop over [vecResult]. *)
Fixpoint confirmed_items (Info : Type) (env : Env)
    (GetTransactionInfo : option CBlock -> CTransaction -> Info + EndpointFailure)
    (direction : string) (vecResult : list TxEntry)
  : list (DataItem Info) + EndpointFailure :=
  match vecResult with
  | [] => inl []
  | txEntry :: rest =>
    let txDirection := direction_of txEntry in
    if negb (String.eqb direction "Any")
         && negb (String.eqb direction txDirection)
    then confirmed_items env GetTransactionInfo direction rest
    else
      match ReadBlockFromDisk env (snd (fst txEntry)) with
      | None => inr (Failed (SAPI.Error SAPI.BlockNotFound))
      | Some block =>
        match find_if (fun t => fst (fst txEntry) =? GetHash t) (vtx block) with
        | Some tx =>
          match GetTransactionInfo (Some block) tx with
          | inr f => inr f
          | inl info =>
            match confirmed_items env GetTransactionInfo direction rest with
            | inr f => inr f
            | inl transactions =>
              inl (Confirmed txEntry txDirection (Some info) :: transactions)
            end
          end
        | None =>
          match confirmed_items env GetTransactionInfo direction rest with
          | inr f => inr f
          | inl transactions =>
            inl (Confirmed txEntry txDirection None :: transactions)
          end
        end
      end
  end.

(** The number of pages both endpoints report. *)
Definition transactions_pages (totalNumTxs nPageSize : Z) : Z :=
  let nPages := static_cast_int (Z.quot totalNumTxs nPageSize) in
  if negb (Z.rem totalNumTxs nPageSize =? 0) || (totalNumTxs <? nPageSize)
  then nPages + 1
  else nPages.

Record TransactionsReply (Info : Type) : Type := mkTransactionsReply {
  tr_count : Z;
  tr_pages : Z;
  tr_page : Z;
  tr_data : list (DataItem Info)
}.

(** [transactions.push_back(result[i])] or
    [transactions.insert(0, result[i])], for [i] from 0 on. *)
Definition add_pending (Info : Type) (fAsc : bool)
    (transactions : list (DataItem Info)) (result : list Info)
  : list (DataItem Info) :=
  fold_left (fun transactions txObj =>
               if fAsc then transactions ++ [Pending txObj]
               else Pending txObj :: transactions)
            result transactions.

Definition address_transactions (Info : Type) (env : Env) (view : MempoolView)
    (GetTransactionInfo : option CBlock -> CTransaction -> Info + EndpointFailure)
    (addrStr : string) (nPageNumber nPageSize : Z) (fAsc : bool)
    (direction : string) : TransactionsReply Info + EndpointFailure :=
  match GetAddressesTransactions env addrStr nPageNumber nPageSize fAsc with
  | Err f => inr (Failed f)
  | Ok (vecResult, totalNumTxs) =>
    if totalNumTxs <? 1 then inr (Failed (SAPI.Error SAPI.PageOutOfRange))
    else
      match confirmed_items env GetTransactionInfo direction vecResult with
      | inr f => inr f
      | inl transactions =>
        match GetAddressMempoolFull env view GetTransactionInfo addrStr with
        | inr f => inr f
        | inl result =>
          let totalNumTxs := totalNumTxs + Z.of_nat (List.length result) in
          let transactions := add_pending fAsc transactions result in
          let nPages := transactions_pages totalNumTxs nPageSize in
          if nPageNumber >? nPages
          then inr (Failed (SAPI.Error SAPI.PageOutOfRange))
          else inl (mkTransactionsReply totalNumTxs nPages nPageNumber
                                        transactions)
        end
      end
  end.

(** [address_transaction]: the address comes from the path, the page is the
    first one of 100, descending, any direction; the objects of the mempool
    are all pushed at the back. *)
Definition address_transaction (Info : Type) (env : Env) (view : MempoolView)
    (GetTransactionInfo : option CBlock -> CTransaction -> Info + EndpointFailure)
    (address : option string) : TransactionsReply Info + EndpointFailure :=
  let nPageNumber := 1 in
  let nPageSize := 100 in
  let fAsc := false in
  let direction := "Any"%string in
  match address with
  | None =>
    inr (BadRequestMessage
           "No SmartCash address specified. Use /address/transaction/<smartcash_address>")
  | Some addrStr =>
    match GetAddressesTransactions env addrStr nPageNumber nPageSize fAsc with
    | Err f => inr (Failed f)
    | Ok (vecResult, totalNumTxs) =>
      if totalNumTxs <? 1 then inr (Failed (SAPI.Error SAPI.PageOutOfRange))
      else
        match confirmed_items env GetTransactionInfo direction vecResult with
        | inr f => inr f
        | inl transactions =>
          match GetAddressMempoolFull env view GetTransactionInfo addrStr with
          | inr f => inr f
          | inl result =>
            let totalNumTxs := totalNumTxs + Z.of_nat (List.length result) in
            let transactions := add_pending true transactions result in
            let nPages := transactions_pages totalNumTxs nPageSize in
            if nPageNumber >? nPages
            then inr (Failed (SAPI.Error SAPI.PageOutOfRange))
            else inl (mkTransactionsReply totalNumTxs nPages nPageNumber
                                          transactions)
          end
        end
    end
  end.

(** The entries of a page that pass the filter on the direction. *)
Definition direction_passes (direction : string) (txEntry : TxEntry) : bool :=
  String.eqb direction "Any" || String.eqb direction (direction_of txEntry).

(** The entry of a confirmed item. *)
Definition confirmed_entry (Info : Type) (item : DataItem Info) : option TxEntry :=
  match item with
  | Confirmed txEntry _ _ => Some txEntry
  | Pending _ => None
  end.

(** ** Further example ledgers *)

(** The same node with another clock. *)
Definition with_clock (env : Env) (clock : nat -> Z) : Env :=
  mkEnv (chainActive_Height env) (Tip_GetMedianTimePast env) (GetTime env)
        (ReadBlockFromDisk env) (ExtractDestination env)
        (LOCKTIME_THRESHOLD env) (INSTANTSEND_CONFIRMATIONS_REQUIRED env)
        (GetIndexKey env) (GetAddressIndex env) (GetAddressUnspentCount env)
        (GetAddressUnspent env) (mempool_getAddressIndex env)
        (mempool_getSpentIndex env) (IsLockedInstantSendTransaction env)
        (GetRand env) (random_shuffle env) clock.

(** A clock that reads 0 at [nTime0] and 6 seconds at every later
    reading. *)
Definition late_clock (k : nat) : Z :=
  match k with
  | O => 0
  | S _ => 6000000
  end.

Definition env_three_late : Env := with_clock env_three late_clock.

(** A mempool with two deltas of [addr1], the later one listed first: 500
    received in transaction 21, 400 spent in transaction 20. *)
Definition view_two : MempoolView :=
  mkMempoolView
    (fun _ =>
       Some [(mkMempoolKeyFull 1 7 (mkMempoolKey 21 0),
              mkMempoolDelta 1600000200 500 0 0);
             (mkMempoolKeyFull 1 7 (mkMempoolKey 20 1),
              mkMempoolDelta 1600000100 (-400) 5 0)])
    (fun type _ => if type =? 1 then Some addr1 else None)
    (fun h => Some (mkTx h [mkTxOut 1 0])).

(** A deposit index of five rows at the timestamps 1 to 5. *)
Definition five_deposits : list CDeposit :=
  map (fun k => mkDeposit k k k 1000) [1; 2; 3; 4; 5].

Definition view_deposits : DepositView :=
  mkDepositView
    (fun _ _ _ => Some (5, 1, 5))
    (fun _ _ offset limit reverse =>
       Some (firstn (Z.to_nat limit)
               (skipn (Z.to_nat offset)
                  (if reverse then rev five_deposits else five_deposits)))).

(** [GetTransactionInfo] reduced to the hash of the transaction. *)
Definition info_hash (block : option CBlock) (tx : CTransaction)
  : uint256 + EndpointFailure :=
  inl (GetHash tx).

(** * Properties *)

Unset Implicit Arguments.

(** ** The fee schedule *)

(** While the size fits an [int] it is the size. *)
Lemma byte_size_fits :
  forall n, 0 <= n -> n * 148 + 87 < 2 ^ 31 -> byte_size n = n * 148 + 87.
Proof.
  intros n Hn Hfit; unfold byte_size, int_of.
  rewrite Z.mod_small by lia; lia.
Qed.

Lemma byte_size_le :
  forall n m,
    0 <= n <= m -> m * 148 + 87 < 2 ^ 31 -> byte_size n <= byte_size m.
Proof.
  intros n m H Hfit; rewrite !byte_size_fits by lia; lia.
Qed.

Lemma fee_step_le :
  forall n m,
    0 <= n <= m -> m * 148 + 87 < 2 ^ 31 -> fee_step n <= fee_step m.
Proof.
  intros n m H Hfit; unfold fee_step; cbv zeta.
  apply Z.mul_le_mono_nonneg_r; [lia|].
  apply Z.div_le_mono; [lia|].
  apply Z.add_le_mono_r.
  apply Z.quot_le_mono; [lia|].
  apply Z.mul_le_mono_nonneg_r; [lia|].
  now apply byte_size_le.
Qed.

Lemma CalculateFee_le :
  forall n m,
    0 <= n <= m -> m * 148 + 87 < 2 ^ 31 -> CalculateFee n <= CalculateFee m.
Proof.
  intros n m H Hfit; unfold CalculateFee.
  apply Z.max_le_compat_r, fee_step_le; assumption.
Qed.

Lemma CalculateFee_floor : forall n, 100000 <= CalculateFee n.
Proof. intros n; unfold CalculateFee; lia. Qed.

(** The integer form of the schedule and its binary64 form agree on every
    input count up to 4000 (two slices of outputs). *)
Lemma CalculateFee_double_agrees :
  forallb (fun n => CalculateFee (Z.of_nat n) =? CalculateFee_double (Z.of_nat n))
          (seq 0 4001) = true.
Proof. vm_compute. reflexivity. Qed.

(** And on 4000 input counts spread up to 13 million. *)
Lemma CalculateFee_double_agrees_sampled :
  forallb (fun k =>
             let n := 4000 + 3331 * Z.of_nat k in
             CalculateFee n =? CalculateFee_double n)
          (seq 0 4000) = true.
Proof. vm_compute. reflexivity. Qed.

(** And where the size leaves the range of [int]: on the 200 input counts
    around 14510024, and on 4000 counts spread from there to the largest
    [int]. *)
Lemma CalculateFee_double_agrees_wrapped :
  forallb (fun k =>
             let n := 14509925 + Z.of_nat k in
             CalculateFee n =? CalculateFee_double n)
          (seq 0 200)
  && forallb (fun k =>
                let n := 14510025 + 533243 * Z.of_nat k in
                (n <? 2 ^ 31) && (CalculateFee n =? CalculateFee_double n))
             (seq 0 4000) = true.
Proof. vm_compute. reflexivity. Qed.

(** C4, amended. While the size of the transaction with one more input
    fits an [int] ([(n+1)*148 + 87 < 2^31], that is up to 14510023 inputs),
    the fee never decreases when one more input is selected:
    [CalculateFee n <= CalculateFee (n+1)] for every such input count
    [n >= 0]; and for every input count the fee is the step value
    [fee_step n] unless that value is below the floor of 100000, in which
    case it is the floor. *)
Theorem CalculateFee_monotone :
  forall n : Z,
    0 <= n ->
    (n + 1) * 148 + 87 < 2 ^ 31 ->
    CalculateFee n <= CalculateFee (n + 1)
    /\ (fee_step n < 100000 -> CalculateFee n = 100000)
    /\ (100000 <= fee_step n -> CalculateFee n = fee_step n).
Proof.
  intros n Hn Hfit; split; [|split].
  - apply CalculateFee_le; lia.
  - intros Hlow; unfold CalculateFee; lia.
  - intros Hhigh; unfold CalculateFee; lia.
Qed.

Lemma CalculateFee_monotone_witness :
  CalculateFee 2 <= CalculateFee 3
  /\ (fee_step 2 < 100000 -> CalculateFee 2 = 100000)
  /\ (100000 <= fee_step 2 -> CalculateFee 2 = fee_step 2).
Proof. apply (CalculateFee_monotone 2); lia. Defined.

(** C4, as stated for every input count, fails where the size leaves the
    range of [int]: 14510024 inputs have the size 2147483639 and the fee
    209715200000, 14510025 inputs have a size that wraps below zero and the
    floor fee of 100000. *)
Lemma CalculateFee_drops_past_int_range :
  0 <= 14510024
  /\ CalculateFee 14510024 = 209715200000
  /\ CalculateFee (14510024 + 1) = 100000
  /\ ~ CalculateFee 14510024 <= CalculateFee (14510024 + 1).
Proof.
  split; [lia|]; split; [reflexivity|]; split; [reflexivity|].
  vm_compute; intros H; apply H; reflexivity.
Qed.

(** ** [IsTimeLocked] *)

Lemma find_if_none :
  forall (A : Type) (p : A -> bool) (l : list A),
    (forall x, In x l -> p x = false) -> find_if p l = None.
Proof.
  intros A p l; induction l as [|a l IH]; intros H; simpl; [reflexivity|].
  rewrite (H a (or_introl eq_refl)).
  apply IH; intros x Hx; apply H; now right.
Qed.

(** C9. When the owning block is read and the transaction is found in it,
    but no output of the transaction decodes to the given address,
    [IsTimeLocked] succeeds and reports the output as not locked. *)
Theorem IsTimeLocked_no_matching_output :
  forall (env : Env) (blockHeight : Z) (txhash : uint256) (address : string)
         (block : CBlock) (tx : CTransaction),
    ReadBlockFromDisk env blockHeight = Some block ->
    find_if (fun t => Z.eqb txhash (GetHash t)) (vtx block) = Some tx ->
    (forall out, In out (vout tx) -> pays_to env address out = false) ->
    IsTimeLocked env blockHeight txhash address = Ok false.
Proof.
  intros env h tx_hash address block tx Hblock Htx Hnone.
  unfold IsTimeLocked.
  rewrite Hblock, Htx.
  now rewrite (find_if_none _ _ _ Hnone).
Qed.

Lemma IsTimeLocked_no_matching_output_witness :
  IsTimeLocked env_three 7 7 "SomeOtherAddress" = Ok false.
Proof.
  apply (IsTimeLocked_no_matching_output env_three 7 7 "SomeOtherAddress"
           (mkBlock [mkTx 7 [mkTxOut 1 0]]) (mkTx 7 [mkTxOut 1 0])).
  - reflexivity.
  - reflexivity.
  - intros out [<-|[]]; reflexivity.
Defined.

(** C10. When the matching output carries the lock value 0, [IsTimeLocked]
    reports it as not locked whatever the chain height, the median time and
    the threshold are: the zero test comes before the comparison with
    [LOCKTIME_THRESHOLD]. *)
Theorem IsTimeLocked_zero_lock :
  forall (env : Env) (blockHeight : Z) (txhash : uint256) (address : string)
         (block : CBlock) (tx : CTransaction) (out : CTxOut),
    ReadBlockFromDisk env blockHeight = Some block ->
    find_if (fun t => Z.eqb txhash (GetHash t)) (vtx block) = Some tx ->
    find_if (pays_to env address) (vout tx) = Some out ->
    GetLockTime out = 0 ->
    IsTimeLocked env blockHeight txhash address = Ok false.
Proof.
  intros env h tx_hash address block tx out Hblock Htx Hout Hzero.
  unfold IsTimeLocked.
  now rewrite Hblock, Htx, Hout, Hzero.
Qed.

Lemma IsTimeLocked_zero_lock_witness :
  IsTimeLocked env_three 7 7 addr1 = Ok false.
Proof.
  apply (IsTimeLocked_zero_lock env_three 7 7 addr1
           (mkBlock [mkTx 7 [mkTxOut 1 0]]) (mkTx 7 [mkTxOut 1 0])
           (mkTxOut 1 0));
    reflexivity.
Defined.

(** ** [GetAddressesBalances] *)

Lemma sumZ_app : forall l l', sumZ (l ++ l') = sumZ l + sumZ l'.
Proof. induction l as [|a l IH]; intros l'; simpl; [|rewrite IH]; lia. Qed.

Lemma sumZ_Permutation : forall l l', Permutation l l' -> sumZ l = sumZ l'.
Proof. induction 1; simpl; lia. Qed.

Lemma filter_Permutation :
  forall (A : Type) (p : A -> bool) (l l' : list A),
    Permutation l l' -> Permutation (filter p l) (filter p l').
Proof.
  induction 1 as [|x l l' _ IH|x y l|l l' l'' _ IH1 _ IH2]; simpl.
  - constructor.
  - destruct (p x); [now constructor|assumption].
  - destruct (p x), (p y); try reflexivity. apply perm_swap.
  - now transitivity (filter p l').
Qed.

(** The confirmed loop succeeds exactly when every time-lock test does, and
    then it has added the three sums to its accumulator. *)
Lemma confirmed_loop_sums :
  forall env a idx b l r b' l' r',
    confirmed_loop env a idx (b, l, r) = Ok (b', l', r') ->
    b' = b + sumZ (map snd idx)
    /\ l' = l + sumZ (locked_deltas env a idx)
    /\ r' = r + sumZ (positive (map snd idx)).
Proof.
  intros env a idx; induction idx as [|[key value] rest IH];
    intros b l r b' l' r' H; simpl in H.
  - inversion H; subst; simpl; lia.
  - unfold locked_deltas, is_locked, positive in *; simpl.
    destruct (IsTimeLocked env (idx_blockHeight key) (idx_txhash key) a)
      as [fl|e]; simpl in H; [|discriminate].
    apply IH in H; destruct H as (Hb & Hl & Hr).
    destruct fl, (0 <? value); simpl; lia.
Qed.

Lemma confirmed_loop_tests :
  forall env a idx acc r,
    confirmed_loop env a idx acc = Ok r ->
    forall kv, In kv idx ->
      exists fl, IsTimeLocked env (idx_blockHeight (fst kv))
                              (idx_txhash (fst kv)) a = Ok fl.
Proof.
  intros env a idx; induction idx as [|[key value] rest IH];
    intros [[b l] r0] r H kv Hin; simpl in *; [contradiction|].
  destruct (IsTimeLocked env (idx_blockHeight key) (idx_txhash key) a)
    as [fl|e] eqn:E; simpl in H; [|discriminate].
  destruct Hin as [<-|Hin]; [now exists fl|].
  eapply IH; eassumption.
Qed.

Lemma confirmed_loop_total :
  forall env a idx acc,
    (forall kv, In kv idx ->
       exists fl, IsTimeLocked env (idx_blockHeight (fst kv))
                               (idx_txhash (fst kv)) a = Ok fl) ->
    exists r, confirmed_loop env a idx acc = Ok r.
Proof.
  intros env a idx; induction idx as [|[key value] rest IH];
    intros [[b l] r0] H; simpl; [now eexists|].
  destruct (H (key, value) (or_introl eq_refl)) as [fl Hfl]; simpl in Hfl.
  rewrite Hfl; simpl.
  apply IH; intros kv Hkv; apply H; now right.
Qed.

Lemma confirmed_loop_Permutation :
  forall env a idx idx' acc r,
    Permutation idx idx' ->
    confirmed_loop env a idx acc = Ok r ->
    confirmed_loop env a idx' acc = Ok r.
Proof.
  intros env a idx idx' [[b l] r0] [[b1 l1] r1] Hperm H.
  destruct (confirmed_loop_total env a idx' (b, l, r0)) as [[[b2 l2] r2] H'].
  { intros kv Hkv. eapply confirmed_loop_tests; [exact H|].
    eapply Permutation_in; [symmetry; exact Hperm|exact Hkv]. }
  rewrite H'.
  apply confirmed_loop_sums in H; apply confirmed_loop_sums in H'.
  destruct H as (-> & -> & ->), H' as (-> & -> & ->).
  unfold locked_deltas, positive.
  rewrite (sumZ_Permutation _ _ (Permutation_map snd Hperm)).
  rewrite (sumZ_Permutation _ _
             (Permutation_map snd (filter_Permutation _ _ _ _ Hperm))).
  rewrite (sumZ_Permutation _ _
             (filter_Permutation _ _ _ _ (Permutation_map snd Hperm))).
  reflexivity.
Qed.

Lemma quad_eq :
  forall (D : Type) (a a' b b' c c' : Z) (d : D),
    a = a' -> b = b' -> c = c' -> (a, b, c, d) = (a', b', c', d).
Proof. intros; subst; reflexivity. Qed.

Lemma mempool_loop_sums :
  forall env mp b r u m,
    exists m',
      mempool_loop env mp (b, r, u, m)
      = (b + sumZ (instant env mp),
         r + sumZ (positive (instant env mp)),
         u + sumZ (not_instant env mp),
         m').
Proof.
  intros env mp; induction mp as [|[k d] rest IH]; intros b r u m; simpl.
  - exists m; apply quad_eq; lia.
  - unfold instant, not_instant, positive in *; simpl.
    destruct (IsLockedInstantSendTransaction env (mp_txhash k)); simpl.
    + destruct (0 <? mp_amount d); simpl;
        edestruct IH as [m' E]; exists m'; rewrite E; apply quad_eq; lia.
    + edestruct IH as [m' E]; exists m'; rewrite E; apply quad_eq; lia.
Qed.

Lemma address_totals_sums :
  forall env a idx mp m snapshot m',
    address_totals env a idx mp m = Ok (snapshot, m') ->
    address snapshot = a
    /\ balance snapshot = sumZ (map snd idx) + sumZ (instant env (deltas_of mp))
    /\ locked snapshot = sumZ (locked_deltas env a idx)
    /\ received snapshot = sumZ (positive (map snd idx))
                           + sumZ (positive (instant env (deltas_of mp)))
    /\ unconfirmed snapshot = sumZ (not_instant env (deltas_of mp)).
Proof.
  intros env a idx mp m snapshot m' H; unfold address_totals in H.
  destruct (confirmed_loop env a idx (0, 0, 0)) as [[[b l] r]|e] eqn:E;
    simpl in H; [|discriminate].
  apply confirmed_loop_sums in E; destruct E as (-> & -> & ->).
  destruct mp as [deltas|]; simpl in *.
  - match type of H with
    | context [mempool_loop env deltas (?b1, ?r1, ?u1, ?m1)] =>
      destruct (mempool_loop_sums env deltas b1 r1 u1 m1) as [m2 E2];
        rewrite E2 in H
    end.
    inversion H; subst; simpl; repeat split; lia.
  - inversion H; subst; simpl; repeat split; lia.
Qed.

Lemma address_totals_Permutation :
  forall env a idx idx' mp mp' m snapshot m',
    Permutation idx idx' ->
    same_deltas mp mp' ->
    address_totals env a idx mp m = Ok (snapshot, m') ->
    exists m'', address_totals env a idx' mp' m = Ok (snapshot, m'').
Proof.
  intros env a idx idx' mp mp' m snapshot m' Hidx Hmp H.
  unfold address_totals in *.
  destruct (confirmed_loop env a idx (0, 0, 0)) as [[[b l] r]|e] eqn:E;
    simpl in H; [|discriminate].
  rewrite (confirmed_loop_Permutation env a idx idx' _ _ Hidx E); simpl.
  destruct mp as [d|], mp' as [d'|]; simpl in Hmp; try contradiction.
  - destruct (mempool_loop_sums env d b r 0 m) as [m1 E1].
    destruct (mempool_loop_sums env d' b r 0 m) as [m2 E2].
    rewrite E1 in H; rewrite E2.
    inversion H; subst; exists m2.
    unfold instant, not_instant, positive.
    do 2 f_equal; f_equal; f_equal;
      apply sumZ_Permutation;
      repeat first [apply filter_Permutation | apply Permutation_map];
      now symmetry.
  - now exists m'.
Qed.

Lemma balances_loop_snapshots :
  forall env vecAddr st f st',
    balances_loop env vecAddr st = (f, st') ->
    Forall (snapshot_sums env) (vecBalances st) ->
    Forall (snapshot_sums env) (vecBalances st').
Proof.
  intros env vecAddr; induction vecAddr as [|a rest IH];
    intros st f st' H Hst; simpl in H.
  - now inversion H; subst.
  - destruct (GetIndexKey env a) as [key|] eqn:Ekey.
    + destruct (GetAddressIndex env key) as [idx|] eqn:Eidx.
      * destruct (address_totals env a idx (mempool_getAddressIndex env key)
                    (mapUnconfirmed st)) as [[snapshot m']|e] eqn:Etot.
        -- apply IH in H; [exact H|]; simpl.
           apply Forall_app; split; [exact Hst|].
           constructor; [|constructor].
           apply address_totals_sums in Etot.
           destruct Etot as (Ha & Hb & _ & Hr & Hu).
           exists key, idx; rewrite Ha; auto.
        -- now inversion H; subst.
      * apply IH in H; assumption.
    + apply IH in H; assumption.
Qed.

(** The loop that is not cut short pushes one snapshot for each address
    that has an index, in order, and one error for each that has none. *)
Lemma balances_loop_complete :
  forall env vecAddr st st',
    balances_loop env vecAddr st = (None, st') ->
    map address (vecBalances st')
    = map address (vecBalances st) ++ filter (has_index env) vecAddr
    /\ (forall e, In e (errors st) -> In e (errors st'))
    /\ (forall a, In a vecAddr -> GetIndexKey env a = None ->
          In (SAPI.mkResult SAPI.InvalidSmartCashAddress
                ("Invalid address: " ++ a)) (errors st')).
Proof.
  intros env vecAddr; induction vecAddr as [|a rest IH];
    intros st st' H; simpl in H.
  - inversion H; subst; simpl; rewrite app_nil_r.
    repeat split; auto; intros ? [].
  - unfold has_index at 1; simpl; fold (has_index env).
    destruct (GetIndexKey env a) as [key|] eqn:Ekey.
    + destruct (GetAddressIndex env key) as [idx|] eqn:Eidx.
      * destruct (address_totals env a idx (mempool_getAddressIndex env key)
                    (mapUnconfirmed st)) as [[snapshot m']|e] eqn:Etot;
          [|discriminate].
        apply address_totals_sums in Etot; destruct Etot as (Ha & _).
        apply IH in H; simpl in H; destruct H as (Hm & He & Hbad).
        rewrite Hm, map_app; simpl; rewrite Ha, <- app_assoc; simpl.
        repeat split; auto.
        intros a' [<-|Hin] Hnone; [congruence|auto].
      * apply IH in H; simpl in H; destruct H as (Hm & He & Hbad).
        repeat split; auto.
        -- intros e Hin; apply He, in_or_app; now left.
        -- intros a' [<-|Hin] Hnone; [congruence|auto].
    + apply IH in H; simpl in H; destruct H as (Hm & He & Hbad).
      repeat split; auto.
      * intros e Hin; apply He, in_or_app; now left.
      * intros a' [<-|Hin] Hnone; [|auto].
        apply He, in_or_app; right; now left.
Qed.

(** C5. Every snapshot a balance query produces carries
    [balance = sum of the confirmed deltas + sum of the instant-finalized
    mempool deltas], [received = sum of the positive ones among these] and
    [unconfirmed = sum of the other mempool deltas]; the accumulation of an
    address gives the same snapshot for every order of its confirmed deltas
    and of its mempool deltas; and one confirmed receive of 1000 with one
    mempool spend of 400 that is not instant-finalized gives balance 1000,
    received 1000, unconfirmed delta -400. *)
Theorem GetAddressesBalances_sums :
  (forall env vecAddr mapUnconfirmed0,
      Forall (snapshot_sums env)
             (out_vecBalances (GetAddressesBalances env vecAddr mapUnconfirmed0)))
  /\ (forall env a idx idx' mp mp' m snapshot m',
         Permutation idx idx' ->
         same_deltas mp mp' ->
         address_totals env a idx mp m = Ok (snapshot, m') ->
         exists m'', address_totals env a idx' mp' m = Ok (snapshot, m''))
  /\ GetAddressesBalances env_balance [addr1] []
     = mkBalancesOut None [mkAddressBalance addr1 1000 0 1000 (-400)]
                     [(77, -400)].
Proof.
  split; [|split].
  - intros env vecAddr m0; unfold GetAddressesBalances.
    destruct (balances_loop env vecAddr (mkBalanceState [] [] m0))
      as [[f|] st] eqn:E; simpl;
      apply (balances_loop_snapshots _ _ _ _ _ E); constructor.
  - exact address_totals_Permutation.
  - vm_compute; reflexivity.
Qed.

(** The loop on a batch whose time-lock tests all answer runs to its end:
    it adds the snapshot of every address that has an index, in order, and
    the error of every other address, in order. *)
Lemma balances_loop_runs :
  forall env vecAddr st,
    forallb (locks_answer env) vecAddr = true ->
    exists st' new,
      balances_loop env vecAddr st = (None, st')
      /\ vecBalances st' = vecBalances st ++ new
      /\ Forall2 (snapshot_of env) (filter (has_index env) vecAddr) new
      /\ errors st' = errors st ++ flat_map (address_errors env) vecAddr.
Proof.
  intros env vecAddr; induction vecAddr as [|a rest IH]; intros st Hlocks.
  - exists st, []; cbn; rewrite !app_nil_r; repeat split; constructor.
  - cbn [forallb] in Hlocks; apply andb_prop in Hlocks as [Ha Hrest].
    cbn [balances_loop filter flat_map].
    unfold locks_answer in Ha.
    unfold has_index at 1, address_errors at 1.
    destruct (GetIndexKey env a) as [key|] eqn:Ekey.
    + destruct (GetAddressIndex env key) as [idx|] eqn:Eidx.
      * destruct (confirmed_loop_total env a idx (0, 0, 0)) as [r Hr].
        { intros kv Hkv; rewrite forallb_forall in Ha; specialize (Ha kv Hkv).
          destruct (IsTimeLocked env (idx_blockHeight (fst kv))
                                 (idx_txhash (fst kv)) a) as [fl|e];
            [now exists fl | discriminate]. }
        destruct (address_totals env a idx (mempool_getAddressIndex env key)
                    (mapUnconfirmed st)) as [[snapshot m']|e] eqn:Etot.
        -- destruct (IH (mkBalanceState (errors st)
                                        (vecBalances st ++ [snapshot]) m')
                        Hrest) as (st' & new & Hloop & Hv & Hnew & He).
           cbn [errors vecBalances] in Hv, He.
           exists st', (snapshot :: new).
           split; [exact Hloop|]; split; [|split].
           ++ rewrite Hv, <- app_assoc; reflexivity.
           ++ constructor; [|exact Hnew].
              apply address_totals_sums in Etot.
              destruct Etot as (H1 & H2 & H3 & H4 & H5).
              exists key, idx; split; [exact Ekey|]; split; [exact Eidx|].
              cbv zeta; destruct snapshot; cbn in *; congruence.
           ++ exact He.
        -- exfalso; unfold address_totals in Etot; rewrite Hr in Etot.
           cbn [bind] in Etot; destruct r as [[b l] r].
           destruct (match mempool_getAddressIndex env key with
                     | Some deltas => _ | None => _ end) as [[[? ?] ?] ?].
           discriminate.
      * destruct (IH (mkBalanceState
                        (errors st ++ [SAPI.mkResult SAPI.AddressNotFound
                                         ("No information available for " ++ a)])
                        (vecBalances st) (mapUnconfirmed st)) Hrest)
          as (st' & new & Hloop & Hv & Hnew & He).
        cbn [errors vecBalances] in Hv, He.
        exists st', new; repeat split; try assumption.
        rewrite He, <- app_assoc; reflexivity.
    + destruct (IH (mkBalanceState
                      (errors st ++ [SAPI.mkResult SAPI.InvalidSmartCashAddress
                                       ("Invalid address: " ++ a)])
                      (vecBalances st) (mapUnconfirmed st)) Hrest)
        as (st' & new & Hloop & Hv & Hnew & He).
      cbn [errors vecBalances] in Hv, He.
      exists st', new; repeat split; try assumption.
      rewrite He, <- app_assoc; reflexivity.
Qed.

(** The addresses that have no index leave the two out-parameters as the
    batch without them does. *)
Lemma balances_loop_without_failing :
  forall env vecAddr st st2 st',
    balances_loop env vecAddr st = (None, st') ->
    vecBalances st2 = vecBalances st ->
    mapUnconfirmed st2 = mapUnconfirmed st ->
    exists st2',
      balances_loop env (filter (has_index env) vecAddr) st2 = (None, st2')
      /\ vecBalances st2' = vecBalances st'
      /\ mapUnconfirmed st2' = mapUnconfirmed st'
      /\ errors st2' = errors st2.
Proof.
  intros env vecAddr; induction vecAddr as [|a rest IH];
    intros st st2 st' Hloop Hv Hm.
  - injection Hloop as <-; exists st2; repeat split; assumption.
  - cbn [balances_loop filter] in *; unfold has_index at 1.
    destruct (GetIndexKey env a) as [key|] eqn:Ekey.
    + destruct (GetAddressIndex env key) as [idx|] eqn:Eidx.
      * cbn [balances_loop]; rewrite Ekey, Eidx, Hm.
        destruct (address_totals env a idx (mempool_getAddressIndex env key)
                    (mapUnconfirmed st)) as [[snapshot m']|e]; [|discriminate].
        destruct (IH _ (mkBalanceState (errors st2)
                                       (vecBalances st2 ++ [snapshot]) m')
                     _ Hloop) as (st2' & H1 & H2 & H3 & H4).
        { cbn; rewrite Hv; reflexivity. }
        { reflexivity. }
        exists st2'; repeat split; assumption.
      * apply (IH _ st2 _ Hloop); assumption.
    + apply (IH _ st2 _ Hloop); assumption.
Qed.

(** C6, amended. In a batch balance query whose time-lock tests all answer,
    an address that fails key resolution only adds its own
    [InvalidSmartCashAddress] error (an address whose index has no answer
    its own [AddressNotFound] error): the loop goes on, and after the call
    the out-parameter holds the snapshot of every address that has an
    index, in the order of the batch and every field the sum of the
    address's deltas; both out-parameters are what the batch without the
    failing addresses gives; and the call returns the errors of the failing
    addresses, in the order of the batch, as one bad request (with no
    failing address it returns [true], or the internal error on an empty
    batch). *)
Theorem GetAddressesBalances_partial_failure :
  forall env vecAddr mapUnconfirmed0,
    forallb (locks_answer env) vecAddr = true ->
    let out := GetAddressesBalances env vecAddr mapUnconfirmed0 in
    let served := filter (has_index env) vecAddr in
    Forall2 (snapshot_of env) served (out_vecBalances out)
    /\ out_vecBalances out
       = out_vecBalances (GetAddressesBalances env served mapUnconfirmed0)
    /\ out_mapUnconfirmed out
       = out_mapUnconfirmed (GetAddressesBalances env served mapUnconfirmed0)
    /\ reply out
       = match flat_map (address_errors env) vecAddr with
         | (_ :: _) as errs => Some (SAPI.BadRequest errs)
         | [] =>
           match served with
           | [] => Some SAPI.InternalServerError
           | _ :: _ => None
           end
         end.
Proof.
  intros env vecAddr m0 Hlocks; cbv zeta.
  destruct (balances_loop_runs env vecAddr (mkBalanceState [] [] m0) Hlocks)
    as (st' & new & Hloop & Hv & Hnew & He).
  destruct (balances_loop_without_failing env vecAddr _
              (mkBalanceState [] [] m0) _ Hloop eq_refl eq_refl)
    as (st2' & Hloop2 & Hv2 & Hm2 & He2).
  cbn [errors vecBalances app] in Hv, He, He2.
  unfold GetAddressesBalances; rewrite Hloop, Hloop2, He, He2, Hv2, Hv.
  split; [|split; [|split]].
  - destruct (flat_map (address_errors env) vecAddr), new; exact Hnew.
  - destruct (flat_map (address_errors env) vecAddr), new; reflexivity.
  - destruct (flat_map (address_errors env) vecAddr), new; cbn; congruence.
  - destruct (flat_map (address_errors env) vecAddr) as [|e errs];
      [|reflexivity].
    inversion Hnew; reflexivity.
Qed.

Lemma GetAddressesBalances_partial_failure_witness :
  Forall2 (snapshot_of env_balance) [addr1]
          [mkAddressBalance addr1 1000 0 1000 (-400)]
  /\ GetAddressesBalances env_balance [not_an_address; addr1] []
     = mkBalancesOut
         (Some (SAPI.BadRequest
                  [SAPI.mkResult SAPI.InvalidSmartCashAddress
                                 ("Invalid address: " ++ not_an_address)]))
         [mkAddressBalance addr1 1000 0 1000 (-400)]
         [(77, -400)].
Proof.
  split; [|vm_compute; reflexivity].
  apply (GetAddressesBalances_partial_failure
           env_balance [not_an_address; addr1] []).
  vm_compute; reflexivity.
Defined.

(** C6, as stated, fails for the caller of the endpoints: on the ledger
    [env_balance], [address_balances] answers the batch of [addr1] alone
    with its snapshot, and the batch of [addr1] with a string that is no
    address with the list of errors only; the snapshot of [addr1], which
    [GetAddressesBalances] has put in [vecResult], is not in the reply. *)
Lemma address_balances_drops_snapshots :
  address_balances env_balance (Some [addr1])
  = inl [balance_entry [(77, -400)]
           (mkAddressBalance addr1 1000 0 1000 (-400))]
  /\ out_vecBalances
       (GetAddressesBalances env_balance [addr1; not_an_address] [])
     = [mkAddressBalance addr1 1000 0 1000 (-400)]
  /\ address_balances env_balance (Some [addr1; not_an_address])
     = inr (Failed
              (SAPI.BadRequest
                 [SAPI.mkResult SAPI.InvalidSmartCashAddress
                                ("Invalid address: " ++ not_an_address)])).
Proof. repeat split; vm_compute; reflexivity. Qed.

(** C7. The code adds to [locked] every confirmed delta whose time-lock
    test answers "locked", spending deltas included.  On the ledger
    [env_relock] (500 received at height 5; the transaction at height 10
    spends them and pays 300 back under a lock) the snapshot has
    [locked = -200], while the locked positive deltas sum to 300. *)
Theorem locked_counts_spending_deltas :
  (forall env a idx mp m snapshot m',
      address_totals env a idx mp m = Ok (snapshot, m') ->
      locked snapshot = sumZ (locked_deltas env a idx))
  /\ GetAddressesBalances env_relock [addr1] []
     = mkBalancesOut None [mkAddressBalance addr1 300 (-200) 800 0] []
  /\ locked_deltas env_relock addr1
       [(mkIndexKey 5 5 false, 500);
        (mkIndexKey 10 10 true, -500);
        (mkIndexKey 10 10 false, 300)]
     = [-500; 300]
  /\ sumZ (positive [-500; 300]) = 300.
Proof.
  split; [|split; [|split]].
  - intros env a idx mp m snapshot m' H.
    now apply address_totals_sums in H.
  - vm_compute; reflexivity.
  - vm_compute; reflexivity.
  - reflexivity.
Qed.

(** ** [GetAddressesTransactions] *)

(** C8. The count of transactions looks for an earlier sighting only among
    the entries of the requested page.  With three index rows, the last two
    of one transaction, page 1 of size 1 reports [totalNumTxs = 3] although
    the rows hold 2 distinct transactions; with a page that holds them all
    the count is 2 and the two amounts are summed into one entry. *)
Theorem totalNumTxs_counts_rows_outside_page :
  GetAddressesTransactions env_two_outputs addr1 1 1 true
  = Ok ([(5, 5, 1)], 3)
  /\ distinct_txids []
       [(mkIndexKey 5 5 false, 1);
        (mkIndexKey 6 6 false, 1);
        (mkIndexKey 6 6 false, 2)]
     = 2
  /\ GetAddressesTransactions env_two_outputs addr1 1 10 true
     = Ok ([(5, 5, 1); (6, 6, 3)], 2).
Proof. repeat split; vm_compute; reflexivity. Qed.

(** ** [CUnspentSolution] *)

Lemma amounts_app : forall l l', amounts (l ++ l') = amounts l ++ amounts l'.
Proof. intros; unfold amounts; apply map_app. Qed.

Lemma key_eqb_false_id :
  forall u e : Utxo, key_eqb (fst u) (fst e) = false -> utxo_id u <> utxo_id e.
Proof.
  intros u e H Heq; unfold key_eqb, utxo_id in *.
  inversion Heq as [[Ht Hi]]; rewrite Ht, Hi, !Z.eqb_refl in H; discriminate.
Qed.

Lemma find_if_none_inv :
  forall (A : Type) (p : A -> bool) (l : list A),
    find_if p l = None -> forall x, In x l -> p x = false.
Proof. intros A p l H x Hx; exact (find_none p l H x Hx). Qed.

Lemma running_ok_SetNull : running_ok SetNull.
Proof.
  unfold running_ok, SetNull; simpl.
  repeat split; try lia; [constructor|congruence].
Qed.

Lemma running_ok_AddUtxo :
  forall s u, running_ok s -> running_ok (AddUtxo s u).
Proof.
  intros s u (Hsum & Hnd & Hfee & Hcalc); unfold AddUtxo.
  destruct (find_if _ (vecUtxos s)) as [e|] eqn:E;
    [repeat split; assumption|].
  unfold running_ok; simpl.
  rewrite amounts_app, sumZ_app, map_app; simpl.
  split; [|split; [|split]].
  - lia.
  - apply NoDup_app; repeat split; [assumption|repeat constructor; auto|].
    intros i Hi [<-|[]].
    apply in_map_iff in Hi; destruct Hi as (e & He & Hin).
    apply (key_eqb_false_id u e); [|now symmetry].
    exact (find_if_none_inv _ _ _ E e Hin).
  - pose proof (CalculateFee_floor
                  (Z.of_nat (List.length (vecUtxos s ++ [u])))); lia.
  - reflexivity.
Qed.

Lemma running_ok_with_change :
  forall expected s, running_ok s -> running_ok (with_change expected s).
Proof. intros expected s H; exact H. Qed.

(** A running solution that reaches the amount is a sound solution once its
    change is written, unless it selects nothing. *)
Lemma reached_is_sound :
  forall expected s,
    running_ok s ->
    (amount s >=? expected + fee s) = true ->
    IsNull (with_change expected s) = true
    \/ solution_sound expected (with_change expected s).
Proof.
  intros expected s (Hsum & Hnd & Hfee & Hcalc) Hge.
  destruct (vecUtxos s) as [|u l] eqn:E; [left; unfold IsNull; simpl; now rewrite E|].
  right; unfold solution_sound, with_change; simpl.
  rewrite E in *.
  assert (Hf : fee s = CalculateFee (Z.of_nat (List.length (u :: l))))
    by (apply Hcalc; discriminate).
  apply Z.geb_le in Hge.
  destruct (Z.eqb_spec (amount s) (expected + fee s));
    repeat split; try assumption; lia.
Qed.

(** ** The matching loop keeps its invariant *)

Lemma walk_sel_ok :
  forall env args nHeight l st,
    sel_ok (expectedAmount args) st ->
    sel_ok (expectedAmount args) (walk env args nHeight l st).
Proof.
  intros env args nHeight l; induction l as [|it rest IH];
    intros st [Hcur Hbest]; simpl; [now split|].
  destruct (deadline_passed env (ticks st)); [now split|].
  set (cur := if selectable env args nHeight it
              then AddUtxo (currentSolution st) it
              else currentSolution st).
  assert (Hcur' : running_ok cur).
  { unfold cur; destruct (selectable env args nHeight it);
      [now apply running_ok_AddUtxo|assumption]. }
  destruct (amount cur >=? expectedAmount args + fee cur) eqn:Hge.
  - destruct (IsNull (bestSolution st) || _).
    + split; simpl; [exact running_ok_SetNull|].
      now apply reached_is_sound.
    + split; simpl; [exact Hcur'|exact Hbest].
  - apply IH; split; simpl; assumption.
Qed.

Lemma page_body_sel_ok :
  forall env args nUtxoCount nPages nHeight st e st',
    page_body env args nUtxoCount nPages nHeight st = Ok (e, st') ->
    sel_ok (expectedAmount args) st ->
    sel_ok (expectedAmount args) st'.
Proof.
  intros env args nUtxoCount nPages nHeight st e st' H Hst.
  unfold page_body in H.
  destruct (negb (fRandom args) && deadline_passed env (ticks st)).
  { inversion H; subst; exact Hst. }
  destruct (GetIndexKey env (addrStr args)) as [key|]; [|discriminate].
  destruct (GetAddressUnspent env key _ _) as [slice|]; [|discriminate].
  destruct (filter_unlocked env (addrStr args) slice) as [unl|]; simpl in H;
    [|discriminate].
  match type of H with
  | context [walk env args nHeight ?l ?s] =>
    assert (Hw : sel_ok (expectedAmount args) (walk env args nHeight l s))
      by (apply walk_sel_ok; destruct (fRandom args); exact Hst);
      destruct (walk env args nHeight l s) as [pc cur best fto tk]
  end.
  simpl in H.
  destruct (negb (IsNull best) && fRandom args);
    [inversion H; subst; exact Hw|].
  destruct (deadline_passed env tk); inversion H; subst; exact Hw.
Qed.

Lemma do_while_sel_ok :
  forall env args nUtxoCount nPages nPageStart nHeight fuel st st',
    do_while env args nUtxoCount nPages nPageStart nHeight fuel st
    = Some (Ok st') ->
    sel_ok (expectedAmount args) st ->
    sel_ok (expectedAmount args) st'.
Proof.
  intros env args nUtxoCount nPages nPageStart nHeight fuel;
    induction fuel as [|fuel IH]; intros st st' H Hst; simpl in H;
    [discriminate|].
  destruct (page_body env args nUtxoCount nPages nHeight st)
    as [[[|] st1]|e] eqn:E; [| |discriminate].
  - inversion H; subst. eapply page_body_sel_ok; eassumption.
  - pose proof (page_body_sel_ok _ _ _ _ _ _ _ _ E Hst) as H1.
    destruct (Z.rem (nPageCurrent st1 + 1) nPages =? nPageStart).
    + inversion H; subst; exact H1.
    + eapply IH; [exact H|exact H1].
Qed.

(** What the endpoint returns is the best solution of the loop's final
    state, and that solution is not null. *)
Lemma address_utxos_amount_inv :
  forall env args sol,
    address_utxos_amount env args = Some (Ok sol) ->
    exists key nUtxoCount st,
      GetIndexKey env (addrStr args) = Some key
      /\ GetAddressUnspentCount env key = Some nUtxoCount
      /\ nUtxoCount <> 0
      /\ do_while env args nUtxoCount (slices nUtxoCount)
           (GetRand env (slices nUtxoCount)) (chainActive_Height env)
           (Z.to_nat (slices nUtxoCount))
           (mkSel (GetRand env (slices nUtxoCount)) SetNull SetNull false 2)
         = Some (Ok st)
      /\ IsNull (bestSolution st) = false
      /\ sol = bestSolution st.
Proof.
  intros env args sol H; unfold address_utxos_amount in H.
  destruct (GetIndexKey env (addrStr args)) as [key|] eqn:Ekey; [|discriminate].
  destruct (GetAddressUnspentCount env key) as [n|] eqn:En; [|discriminate].
  destruct (Z.eqb_spec n 0) as [|Hn]; [discriminate|].
  destruct (do_while _ _ _ _ _ _ _ _) as [[st|e]|] eqn:E; try discriminate.
  exists key, n, st.
  destruct (IsNull (bestSolution st)) eqn:Hnull.
  - destruct (_ && _); discriminate.
  - rewrite andb_false_r in H; simpl in H.
    inversion H; subst. repeat split; auto.
Qed.

(** C3. Every solution [address_utxos_amount] returns has
    [amount = sum of the selected amounts], selected outputs that are
    pairwise distinct by (txid, index), the fee of its number of inputs,
    [amount >= requested + fee] and
    [change = amount - requested - fee], which is not negative and is 0
    when the amount equals requested + fee. *)
Theorem returned_solution_sound :
  forall env args sol,
    address_utxos_amount env args = Some (Ok sol) ->
    amount sol = sumZ (amounts (vecUtxos sol))
    /\ NoDup (map utxo_id (vecUtxos sol))
    /\ fee sol = CalculateFee (Z.of_nat (List.length (vecUtxos sol)))
    /\ expectedAmount args + fee sol <= amount sol
    /\ change sol = amount sol - expectedAmount args - fee sol
    /\ 0 <= change sol
    /\ (amount sol = expectedAmount args + fee sol -> change sol = 0).
Proof.
  intros env args sol H.
  apply address_utxos_amount_inv in H.
  destruct H as (key & n & st & _ & _ & _ & Hloop & Hnull & ->).
  apply do_while_sel_ok in Hloop.
  - destruct Hloop as [_ [Hbest|Hbest]]; [congruence|exact Hbest].
  - split; simpl; [exact running_ok_SetNull|now left].
Qed.

Lemma returned_solution_sound_witness :
  amount (mkSolution 800000000 100000 199900000 [utxo 2 500000000; utxo 3 300000000])
  = sumZ (amounts [utxo 2 500000000; utxo 3 300000000])
  /\ NoDup (map utxo_id [utxo 2 500000000; utxo 3 300000000])
  /\ 100000 = CalculateFee 2
  /\ 600000000 + 100000 <= 800000000
  /\ 199900000 = 800000000 - 600000000 - 100000
  /\ 0 <= 199900000
  /\ (800000000 = 600000000 + 100000 -> 199900000 = 0).
Proof.
  apply (returned_solution_sound env_three (ask 600000000)
           (mkSolution 800000000 100000 199900000
                       [utxo 2 500000000; utxo 3 300000000])).
  vm_compute; reflexivity.
Defined.

(** ** Fewest inputs within one slice *)

Lemma Utxo_eq_dec : forall a b : Utxo, {a = b} + {a <> b}.
Proof.
  intros [[h1 t1 i1] [v1]] [[h2 t2 i2] [v2]].
  destruct (Z.eq_dec h1 h2), (Z.eq_dec t1 t2), (Z.eq_dec i1 i2),
    (Z.eq_dec v1 v2); subst; try (left; reflexivity); right; congruence.
Qed.

Lemma key_eqb_true_id :
  forall u e : Utxo, key_eqb (fst u) (fst e) = true -> utxo_id u = utxo_id e.
Proof.
  intros u e H; unfold key_eqb, utxo_id in *.
  apply andb_true_iff in H; destruct H as [Ht Hi].
  apply Z.eqb_eq in Ht, Hi; congruence.
Qed.

(** [AddUtxo] of an output that the solution does not hold yet. *)
Lemma AddUtxo_fresh :
  forall s u,
    ~ In (utxo_id u) (map utxo_id (vecUtxos s)) ->
    AddUtxo s u
    = mkSolution (amount s + satoshis (snd u))
                 (CalculateFee (Z.of_nat (List.length (vecUtxos s ++ [u]))))
                 (change s) (vecUtxos s ++ [u]).
Proof.
  intros s u Hfresh; unfold AddUtxo.
  destruct (find_if _ (vecUtxos s)) as [e|] eqn:E; [|reflexivity].
  exfalso; apply Hfresh.
  apply find_some in E; destruct E as [Hin Heq].
  apply key_eqb_true_id in Heq; rewrite Heq.
  now apply in_map.
Qed.

Lemma NoDup_map_filter :
  forall (A B : Type) (f : A -> B) (p : A -> bool) (l : list A),
    NoDup (map f l) -> NoDup (map f (filter p l)).
Proof.
  intros A B f p l; induction l as [|a l IH]; intros H; simpl;
    [constructor|].
  inversion H as [|? ? Hnin Hnd]; subst.
  destruct (p a); simpl; [|now apply IH].
  constructor; [|now apply IH].
  intros Hin; apply Hnin.
  apply in_map_iff in Hin; destruct Hin as (x & Hx & Hin).
  apply filter_In in Hin; rewrite <- Hx; apply in_map, Hin.
Qed.

(** The walk over a slice in decreasing order of amount, started with no
    best solution and a running solution that has not reached the amount:
    if it finds a solution, no set [S] of distinct selectable outputs of the
    slice completes the running solution with fewer inputs. *)
Lemma walk_fewest :
  forall env args nHeight l st,
    1 <= expectedAmount args ->
    StronglySorted (fun a b => AmountHTL.leb a b = true) l ->
    NoDup (map utxo_id (vecUtxos (currentSolution st) ++ l)) ->
    running_ok (currentSolution st) ->
    amount (currentSolution st)
    < expectedAmount args
      + CalculateFee (Z.of_nat (List.length (vecUtxos (currentSolution st)))) ->
    IsNull (bestSolution st) = true ->
    IsNull (bestSolution (walk env args nHeight l st)) = false ->
    forall S,
      NoDup S ->
      incl S (filter (selectable env args nHeight) l) ->
      expectedAmount args
      + CalculateFee
          (Z.of_nat (List.length (vecUtxos (currentSolution st)) + List.length S))
      <= amount (currentSolution st) + sumZ (amounts S) ->
      (List.length (vecUtxos (bestSolution (walk env args nHeight l st)))
       <= List.length (vecUtxos (currentSolution st)) + List.length S)%nat.
Proof.
  intros env args nHeight l; induction l as [|it rest IH];
    intros st Hexp Hsorted Hnd Hok Hlow Hnull Hfound S HS Hincl Hsat.
  - simpl in Hfound; congruence.
  - simpl in Hfound |- *.
    destruct (deadline_passed env (ticks st));
      [simpl in Hfound; congruence|].
    inversion Hsorted as [|? ? Hsorted' Hall]; subst.
    rewrite map_app in Hnd; simpl in Hnd.
    simpl in Hincl.
    destruct (selectable env args nHeight it) eqn:Hsel.
    + (* the output is added to the running solution *)
      pose proof (running_ok_AddUtxo _ it Hok) as Hok'.
      assert (Hfresh : ~ In (utxo_id it)
                         (map utxo_id (vecUtxos (currentSolution st)))).
      { intros Hin; apply (NoDup_remove_2 _ _ _ Hnd), in_or_app; now left. }
      rewrite (AddUtxo_fresh _ _ Hfresh) in *.
      simpl in Hfound |- *.
      rewrite length_app in *; simpl (List.length [it]) in *.
      destruct (amount (currentSolution st) + satoshis (snd it)
                >=? expectedAmount args
                    + CalculateFee
                        (Z.of_nat (List.length (vecUtxos (currentSolution st)) + 1)))
        eqn:Hge.
      * rewrite Hnull in *; simpl in *.
        rewrite length_app; simpl.
        destruct S as [|s S']; simpl; [|lia].
        simpl in Hsat; rewrite Nat.add_0_r in Hsat; lia.
      * rewrite Z.geb_leb in Hge; apply Z.leb_gt in Hge.
        match type of Hfound with
        | context [walk env args nHeight rest ?s] => set (st' := s) in *
        end.
        assert (Hnd' : NoDup (map utxo_id (vecUtxos (currentSolution st') ++ rest))).
        { simpl; rewrite <- app_assoc, map_app; exact Hnd. }
        assert (Hlow' : amount (currentSolution st')
                        < expectedAmount args
                          + CalculateFee
                              (Z.of_nat (List.length (vecUtxos (currentSolution st'))))).
        { simpl; rewrite length_app; simpl; lia. }
        assert (Hlen' : List.length (vecUtxos (currentSolution st'))
                        = (List.length (vecUtxos (currentSolution st)) + 1)%nat).
        { simpl; rewrite length_app; reflexivity. }
        destruct (in_dec Utxo_eq_dec it S) as [Hin|Hnin].
        -- (* [S] uses the output: the rest of [S] completes the new
              running solution *)
           apply in_split in Hin; destruct Hin as (S1 & S2 & ->).
           pose proof (NoDup_remove_2 _ _ _ HS) as Hnot.
           assert (Hincl' : incl (S1 ++ S2)
                                 (filter (selectable env args nHeight) rest)).
           { intros x Hx.
             assert (Hx' : In x (S1 ++ it :: S2)).
             { apply in_app_or in Hx; apply in_or_app; simpl; tauto. }
             destruct (Hincl x Hx') as [<-|Hr]; [contradiction|exact Hr]. }
           rewrite amounts_app, sumZ_app in Hsat; simpl in Hsat.
           rewrite length_app in Hsat |- *; simpl in Hsat |- *.
           specialize (IH st' Hexp Hsorted' Hnd' Hok' Hlow' Hnull Hfound
                          (S1 ++ S2) (NoDup_remove_1 _ _ _ HS) Hincl').
           rewrite Hlen', amounts_app, sumZ_app, length_app in IH.
           simpl in IH.
           replace (List.length (vecUtxos (currentSolution st)) + 1
                    + (List.length S1 + List.length S2))%nat
             with (List.length (vecUtxos (currentSolution st))
                   + (List.length S1 + S (List.length S2)))%nat in IH by lia.
           apply IH; lia.
        -- (* [S] does not use the output: the output is worth at least as
              much as any member of [S], which it replaces *)
           assert (Hincl' : incl S (filter (selectable env args nHeight) rest)).
           { intros x Hx.
             destruct (Hincl x Hx) as [<-|Hr]; [contradiction|exact Hr]. }
           destruct S as [|s S'].
           { simpl in Hsat; rewrite Nat.add_0_r in Hsat; lia. }
           assert (Hs : satoshis (snd s) <= satoshis (snd it)).
           { assert (Hsr : In s rest).
             { eapply proj1, filter_In, Hincl'; now left. }
             rewrite Forall_forall in Hall.
             specialize (Hall s Hsr); unfold AmountHTL.leb in Hall; lia. }
           inversion HS as [|? ? _ HS']; subst.
           assert (Hincl'' : incl S' (filter (selectable env args nHeight) rest)).
           { intros x Hx; apply Hincl'; now right. }
           simpl in Hsat |- *.
           specialize (IH st' Hexp Hsorted' Hnd' Hok' Hlow' Hnull Hfound
                          S' HS' Hincl'').
           rewrite Hlen' in IH; simpl in IH.
           replace (List.length (vecUtxos (currentSolution st)) + 1
                    + List.length S')%nat
             with (List.length (vecUtxos (currentSolution st))
                   + S (List.length S'))%nat in IH by lia.
           apply IH; lia.
    + (* the output is skipped *)
      destruct Hok as (Hsum & Hnd0 & Hfee & Hcalc).
      destruct (amount (currentSolution st)
                >=? expectedAmount args + fee (currentSolution st)) eqn:Hge.
      * exfalso.
        rewrite Z.geb_leb in Hge; apply Z.leb_le in Hge.
        destruct (vecUtxos (currentSolution st)) as [|u0 l0] eqn:Evec.
        -- simpl in Hsum; lia.
        -- rewrite Hcalc in Hge by discriminate; lia.
      * match type of Hfound with
        | context [walk env args nHeight rest ?s] => set (st' := s) in *
        end.
        apply (IH st'); try assumption.
        -- simpl; rewrite map_app; exact (NoDup_remove_1 _ _ _ Hnd).
        -- repeat split; assumption.
Qed.

Lemma filter_unlocked_filter :
  forall env a l l',
    filter_unlocked env a l = Ok l' ->
    l' = filter (fun u =>
                   match IsTimeLocked env (nBlockHeight (fst u))
                                      (txhash (fst u)) a with
                   | Ok false => true
                   | _ => false
                   end) l.
Proof.
  intros env a l; induction l as [|it rest IH]; intros l' H; simpl in H.
  - now inversion H.
  - simpl.
    destruct (IsTimeLocked env (nBlockHeight (fst it)) (txhash (fst it)) a)
      as [lk|e]; simpl in H; [|discriminate].
    destruct (filter_unlocked env a rest) as [rest'|e]; simpl in H;
      [|discriminate].
    rewrite <- (IH rest' eq_refl).
    destruct lk; now inversion H.
Qed.

Lemma leb_HTL_trans :
  forall a b c : Utxo,
    AmountHTL.leb a b = true -> AmountHTL.leb b c = true ->
    AmountHTL.leb a c = true.
Proof. intros a b c; unfold AmountHTL.leb; lia. Qed.

Lemma sort_HTL_sorted :
  forall l, StronglySorted (fun a b => AmountHTL.leb a b = true) (SortHTL.sort l).
Proof.
  intros l; apply SortHTL.StronglySorted_sort.
  intros a b c; apply leb_HTL_trans.
Qed.

Lemma slices_single : forall n, 0 < n <= nUtxosSlice -> slices n = 1.
Proof.
  intros n [Hpos Hle]; unfold slices, nUtxosSlice in *.
  destruct (Z.eq_dec n 2000) as [->|Hne]; [reflexivity|].
  rewrite Z.quot_small, Z.rem_small by lia.
  destruct (Z.eqb_spec n 0); lia.
Qed.

(** The slice bounds of the only pass over a single-slice address. *)
Lemma single_slice_bounds :
  forall n start,
    0 < n <= nUtxosSlice ->
    static_cast_int (Z.rem start 1 * nUtxosSlice) = 0
    /\ static_cast_int
         (if negb (Z.rem n nUtxosSlice =? 0) && (Z.rem start 1 =? 1 - 1)
          then Z.rem n nUtxosSlice else nUtxosSlice) = n.
Proof.
  intros n start [Hpos Hle]; unfold nUtxosSlice in *.
  rewrite Z.rem_1_r; split; [reflexivity|].
  simpl (0 =? 1 - 1); rewrite andb_true_r.
  destruct (Z.eq_dec n 2000) as [->|Hne]; [reflexivity|].
  rewrite Z.rem_small by lia.
  destruct (Z.eqb_spec n 0); [lia|]; simpl.
  unfold static_cast_int.
  rewrite Z.mod_small; lia.
Qed.

(** The best solution after the only pass is the one its walk left. *)
Lemma single_pass_best :
  forall env args key n slice st,
    fRandom args = false ->
    0 < n <= nUtxosSlice ->
    GetIndexKey env (addrStr args) = Some key ->
    GetAddressUnspent env key 0 n = Some slice ->
    do_while env args n 1 (GetRand env 1) (chainActive_Height env) 1
      (mkSel (GetRand env 1) SetNull SetNull false 2) = Some (Ok st) ->
    IsNull (bestSolution st) = false ->
    exists unl tk,
      filter_unlocked env (addrStr args) slice = Ok unl
      /\ bestSolution st
         = bestSolution
             (walk env args (chainActive_Height env) (SortHTL.sort unl)
                   (mkSel (GetRand env 1) SetNull SetNull false tk)).
Proof.
  intros env args key n slice st Hdet Hn Hkey Hslice Hloop Hnull.
  cbn [do_while] in Hloop; unfold page_body in Hloop.
  cbn [nPageCurrent ticks currentSolution bestSolution fTimedOut] in Hloop.
  destruct (single_slice_bounds n (GetRand env 1) Hn) as [Hoff Hlim].
  rewrite Hoff, Hlim, Hdet, Hkey, Hslice in Hloop; simpl in Hloop.
  destruct (deadline_passed env 2).
  { inversion Hloop; subst; simpl in Hnull; discriminate. }
  destruct (filter_unlocked env (addrStr args) slice) as [unl|e];
    simpl in Hloop; [|discriminate].
  exists unl, 3%nat; split; [reflexivity|].
  destruct (walk env args (chainActive_Height env) (SortHTL.sort unl) _)
    as [pc cur best fto tk]; simpl in *.
  rewrite andb_false_r in Hloop.
  destruct (deadline_passed env tk); [now inversion Hloop; subst|].
  simpl in Hloop.
  destruct (Z.rem (pc + 1) 1 =? GetRand env 1); [|discriminate].
  now inversion Hloop; subst.
Qed.

(** C1 (as amended).  In deterministic mode, for an address whose unspent
    outputs fit in one slice (at most 2000, pairwise distinct), a returned
    solution uses no more inputs than any set of distinct spendable outputs
    of that slice that reaches the requested amount plus its own fee.  On
    the address with outputs of 1, 5 and 3 coins and 6 coins asked, the
    outputs of 5 and 3 coins are selected, the fee is that of two inputs and
    the change is 5 + 3 - 6 coins less the fee. *)
Theorem deterministic_fewest_inputs_single_slice :
  (forall env args key nUtxoCount slice sol,
      fRandom args = false ->
      1 <= expectedAmount args ->
      GetIndexKey env (addrStr args) = Some key ->
      GetAddressUnspentCount env key = Some nUtxoCount ->
      0 < nUtxoCount <= nUtxosSlice ->
      GetAddressUnspent env key 0 nUtxoCount = Some slice ->
      NoDup (map utxo_id slice) ->
      address_utxos_amount env args = Some (Ok sol) ->
      fewest_inputs env args slice sol)
  /\ address_utxos_amount env_three (ask 600000000)
     = Some (Ok (mkSolution
                   (500000000 + 300000000)
                   (CalculateFee 2)
                   (500000000 + 300000000 - 600000000 - CalculateFee 2)
                   [utxo 2 500000000; utxo 3 300000000])).
Proof.
  split; [|vm_compute; reflexivity].
  intros env args key n slice sol Hdet Hexp Hkey Hcount Hn Hslice Hnd Hret.
  apply address_utxos_amount_inv in Hret.
  destruct Hret as (key' & n' & st & Hkey' & Hcount' & _ & Hloop & Hnull & ->).
  rewrite Hkey in Hkey'; inversion Hkey'; subst key'.
  rewrite Hcount in Hcount'; inversion Hcount'; subst n'.
  rewrite (slices_single n Hn) in Hloop.
  change (Z.to_nat 1) with 1%nat in Hloop.
  destruct (single_pass_best env args key n slice st
              Hdet Hn Hkey Hslice Hloop Hnull) as (unl & tk & Hunl & Hbest).
  rewrite Hbest in Hnull |- *.
  apply filter_unlocked_filter in Hunl.
  intros S HS Hincl Hsat.
  change (List.length S) with (List.length (vecUtxos SetNull) + List.length S)%nat.
  apply (walk_fewest env args (chainActive_Height env) (SortHTL.sort unl)
           (mkSel (GetRand env 1) SetNull SetNull false tk)); simpl;
    try assumption; try reflexivity.
  - apply sort_HTL_sorted.
  - apply (Permutation_NoDup
             (Permutation_map utxo_id (SortHTL.Permuted_sort unl))).
    rewrite Hunl; now apply NoDup_map_filter.
  - exact running_ok_SetNull.
  - pose proof (CalculateFee_floor 0); lia.
  - intros x Hx.
    apply Hincl, filter_In in Hx; destruct Hx as [Hin Hsp].
    unfold spendable in Hsp.
    apply filter_In; split.
    + apply (Permutation_in _ (SortHTL.Permuted_sort unl)).
      rewrite Hunl; apply filter_In; split; [exact Hin|].
      destruct (IsTimeLocked env _ _ _) as [[|]|]; congruence.
    + destruct (IsTimeLocked env _ _ _) as [[|]|]; congruence.
Qed.

Lemma deterministic_fewest_inputs_single_slice_witness :
  fewest_inputs env_three (ask 600000000) three_outputs
    (mkSolution 800000000 100000 199900000
                [utxo 2 500000000; utxo 3 300000000]).
Proof.
  apply (proj1 deterministic_fewest_inputs_single_slice
               env_three (ask 600000000) key1 3 three_outputs).
  - reflexivity.
  - simpl; lia.
  - reflexivity.
  - reflexivity.
  - unfold nUtxosSlice; lia.
  - reflexivity.
  - vm_compute; repeat constructor; simpl; intuition congruence.
  - vm_compute; reflexivity.
Defined.

(** C1, as stated, fails across slices: on the address with 2000 outputs
    of 1 satoshi followed by one output of 10 coins, 1 coin asked, scanned
    from the first slice on, the returned solution holds all 2001 outputs,
    while the last output alone reaches the amount. *)
Lemma deterministic_not_fewest_across_slices :
  exists sol,
    address_utxos_amount (env_two_slices 1 1000000000) (ask 100000000)
    = Some (Ok sol)
    /\ List.length (vecUtxos sol) = 2001%nat
    /\ ~ fewest_inputs (env_two_slices 1 1000000000) (ask 100000000)
                       (two_slices 1 1000000000) sol.
Proof.
  eexists; split; [vm_compute; reflexivity|].
  split; [vm_compute; reflexivity|].
  intros H.
  specialize (H [utxo 2001 1000000000]).
  assert (Hle : (2001 <= 1)%nat); [|lia].
  apply H.
  - repeat constructor; simpl; tauto.
  - intros x [<-|[]].
    apply filter_In; split; [|vm_compute; reflexivity].
    unfold two_slices; apply in_or_app; right; now left.
  - unfold satisfying; vm_compute; discriminate.
Qed.

(** The scenario of C1 does not depend on the order in which the index
    lists the three outputs. *)
Lemma three_outputs_any_order :
  Forall (fun l =>
            address_utxos_amount (ledger no_lock [] [] (fun _ => false) l)
                                 (ask 600000000)
            = Some (Ok (mkSolution 800000000 (CalculateFee 2) 199900000
                                   [utxo 2 500000000; utxo 3 300000000])))
         [[utxo 1 100000000; utxo 2 500000000; utxo 3 300000000];
          [utxo 1 100000000; utxo 3 300000000; utxo 2 500000000];
          [utxo 2 500000000; utxo 1 100000000; utxo 3 300000000];
          [utxo 2 500000000; utxo 3 300000000; utxo 1 100000000];
          [utxo 3 300000000; utxo 1 100000000; utxo 2 500000000];
          [utxo 3 300000000; utxo 2 500000000; utxo 1 100000000]].
Proof. repeat constructor; vm_compute; reflexivity. Qed.

(** ** The loop ends within one pass per slice *)

Lemma walk_nPageCurrent :
  forall env args nHeight l st,
    nPageCurrent (walk env args nHeight l st) = nPageCurrent st.
Proof.
  intros env args nHeight l; induction l as [|it rest IH]; intros st; simpl;
    [reflexivity|].
  destruct (deadline_passed env (ticks st)); [reflexivity|].
  destruct (_ >=? _); [destruct (_ || _); reflexivity|].
  now rewrite IH.
Qed.

Lemma page_body_nPageCurrent :
  forall env args nUtxoCount nPages nHeight st e st',
    page_body env args nUtxoCount nPages nHeight st = Ok (e, st') ->
    nPageCurrent st' = nPageCurrent st.
Proof.
  intros env args nUtxoCount nPages nHeight st e st' H.
  unfold page_body in H.
  destruct (negb (fRandom args) && deadline_passed env (ticks st)).
  { now inversion H; subst. }
  destruct (GetIndexKey env (addrStr args)) as [key|]; [|discriminate].
  destruct (GetAddressUnspent env key _ _) as [slice|]; [|discriminate].
  destruct (filter_unlocked env (addrStr args) slice) as [unl|]; simpl in H;
    [|discriminate].
  match type of H with
  | context [walk env args nHeight ?l ?s] =>
    pose proof (walk_nPageCurrent env args nHeight l s) as Hw;
      destruct (walk env args nHeight l s) as [pc cur best fto tk]
  end.
  simpl in *.
  assert (Hpc : pc = nPageCurrent st) by (destruct (fRandom args); exact Hw).
  destruct (negb (IsNull best) && fRandom args);
    [now inversion H; subst|].
  destruct (deadline_passed env tk); now inversion H; subst.
Qed.

Lemma rem_full_turn :
  forall start nPages,
    0 <= start < nPages -> Z.rem (start + nPages) nPages = start.
Proof.
  intros start nPages H.
  rewrite Z.rem_mod_nonneg by lia.
  replace (start + nPages) with (start + 1 * nPages) by lia.
  rewrite Z.mod_add by lia.
  apply Z.mod_small; lia.
Qed.

(** With [i] passes done and [nPages - i] passes of fuel left, the loop
    does not run out of fuel. *)
Lemma do_while_returns :
  forall env args nUtxoCount nPages nPageStart nHeight fuel st i,
    0 <= nPageStart < nPages ->
    nPageCurrent st = nPageStart + i ->
    0 <= i ->
    Z.of_nat fuel = nPages - i ->
    (0 < fuel)%nat ->
    do_while env args nUtxoCount nPages nPageStart nHeight fuel st <> None.
Proof.
  intros env args nUtxoCount nPages nPageStart nHeight fuel;
    induction fuel as [|fuel IH]; intros st i Hstart Hpc Hi Hfuel Hpos;
    [lia|].
  simpl.
  destruct (page_body env args nUtxoCount nPages nHeight st)
    as [[[|] st1]|e] eqn:E; try discriminate.
  apply page_body_nPageCurrent in E.
  destruct (Z.eqb_spec (Z.rem (nPageCurrent st1 + 1) nPages) nPageStart)
    as [|Hne]; [discriminate|].
  apply (IH _ (i + 1)); simpl; try lia.
  destruct fuel; [|lia].
  exfalso; apply Hne.
  replace (nPageCurrent st1 + 1) with (nPageStart + nPages) by lia.
  now apply rem_full_turn.
Qed.

Lemma slices_pos : forall n, 0 < n -> 0 < slices n.
Proof.
  intros n Hn; unfold slices, nUtxosSlice.
  pose proof (Z.quot_pos n 2000 ltac:(lia) ltac:(lia)) as Hq.
  destruct (Z.eqb_spec (Z.rem n 2000) 0) as [Hr|Hr]; [|lia].
  pose proof (Z.quot_rem' n 2000); lia.
Qed.

(** The endpoint always answers: the fuel given to the loop, one pass per
    slice, is enough, whenever the index reports a count that is not
    negative and [GetRand] answers below its bound. *)
Lemma address_utxos_amount_returns :
  forall env args,
    (forall key n, GetAddressUnspentCount env key = Some n -> 0 <= n) ->
    (forall m, 0 < m -> 0 <= GetRand env m < m) ->
    address_utxos_amount env args <> None.
Proof.
  intros env args Hcount Hrand; unfold address_utxos_amount.
  destruct (GetIndexKey env (addrStr args)) as [key|]; [|discriminate].
  destruct (GetAddressUnspentCount env key) as [n|] eqn:En; [|discriminate].
  destruct (Z.eqb_spec n 0) as [|Hn]; [discriminate|].
  assert (Hpos : 0 < slices n) by (apply slices_pos; specialize (Hcount _ _ En); lia).
  pose proof (do_while_returns env args n (slices n) (GetRand env (slices n))
                (chainActive_Height env) (Z.to_nat (slices n))
                (mkSel (GetRand env (slices n)) SetNull SetNull false 2) 0
                (Hrand _ Hpos)) as H.
  destruct (do_while _ _ _ _ _ _ _ _) as [[st|e]|].
  - destruct (_ && _); [discriminate|].
    destruct (IsNull (bestSolution st)); discriminate.
  - discriminate.
  - exfalso; apply H; [simpl; lia|lia|lia|lia|reflexivity].
Qed.

(** ** The answer after a full pass *)

Lemma IsTimeLocked_error :
  forall env h t a e,
    IsTimeLocked env h t a = Err e ->
    e = SAPI.Error SAPI.BlockNotFound \/ e = SAPI.Error SAPI.TxNotFound.
Proof.
  intros env h t a e H; unfold IsTimeLocked in H.
  destruct (ReadBlockFromDisk env h) as [block|];
    [|inversion H; now left].
  destruct (find_if _ (vtx block)) as [tx|]; [|inversion H; now right].
  destruct (find_if _ (vout tx)) as [out|]; [|discriminate].
  destruct (GetLockTime out =? 0); [discriminate|].
  simpl in H; destruct (_ || _); discriminate.
Qed.

Lemma filter_unlocked_error :
  forall env a l e,
    filter_unlocked env a l = Err e ->
    e = SAPI.Error SAPI.BlockNotFound \/ e = SAPI.Error SAPI.TxNotFound.
Proof.
  intros env a l e; induction l as [|it rest IH]; intros H; simpl in H;
    [discriminate|].
  destruct (IsTimeLocked env (nBlockHeight (fst it)) (txhash (fst it)) a)
    as [lk|e'] eqn:E; simpl in H.
  - destruct (filter_unlocked env a rest) as [rest'|e'']; simpl in H;
      [discriminate|].
    inversion H; subst; now apply IH.
  - inversion H; subst; eapply IsTimeLocked_error; eassumption.
Qed.

Lemma page_body_error :
  forall env args nUtxoCount nPages nHeight st e,
    page_body env args nUtxoCount nPages nHeight st = Err e ->
    e <> SAPI.Error SAPI.BalanceInsufficient.
Proof.
  intros env args nUtxoCount nPages nHeight st e H; unfold page_body in H.
  destruct (negb (fRandom args) && deadline_passed env (ticks st));
    [discriminate|].
  destruct (GetIndexKey env (addrStr args)) as [key|];
    [|inversion H; discriminate].
  destruct (GetAddressUnspent env key _ _) as [slice|];
    [|inversion H; discriminate].
  destruct (filter_unlocked env (addrStr args) slice) as [unl|e'] eqn:E;
    simpl in H.
  - destruct (negb (IsNull _) && fRandom args); [discriminate|].
    destruct (deadline_passed env _); discriminate.
  - inversion H; subst.
    destruct (filter_unlocked_error _ _ _ _ E) as [->| ->]; discriminate.
Qed.

(** While the deadline does not pass, the body is only left by [break]
    with a best solution in hand. *)
Lemma page_body_break :
  forall env args nUtxoCount nPages nHeight st st',
    (forall k, deadline_passed env k = false) ->
    page_body env args nUtxoCount nPages nHeight st = Ok (Break, st') ->
    IsNull (bestSolution st') = false.
Proof.
  intros env args nUtxoCount nPages nHeight st st' Hclock H.
  unfold page_body in H.
  rewrite Hclock, andb_false_r in H.
  destruct (GetIndexKey env (addrStr args)) as [key|]; [|discriminate].
  destruct (GetAddressUnspent env key _ _) as [slice|]; [|discriminate].
  destruct (filter_unlocked env (addrStr args) slice) as [unl|]; simpl in H;
    [|discriminate].
  match type of H with
  | context [walk env args nHeight ?l ?s] =>
    destruct (walk env args nHeight l s) as [pc cur best fto tk]
  end.
  simpl in H.
  destruct (IsNull best) eqn:Hb; simpl in H.
  - rewrite Hclock in H; discriminate.
  - destruct (fRandom args); simpl in H;
      [now inversion H; subst|rewrite Hclock in H; discriminate].
Qed.

Lemma rem_turn_inv :
  forall start nPages i,
    0 <= start < nPages -> 0 <= i < nPages ->
    Z.rem (start + i + 1) nPages = start -> i + 1 = nPages.
Proof.
  intros start nPages i Hs Hi H.
  rewrite Z.rem_mod_nonneg in H by lia.
  pose proof (Z.div_mod (start + i + 1) nPages ltac:(lia)) as Hdm.
  rewrite H in Hdm.
  assert (Hq : i + 1 = nPages * ((start + i + 1) / nPages)) by lia.
  assert (0 < (start + i + 1) / nPages) by nia.
  assert ((start + i + 1) / nPages < 2) by nia.
  nia.
Qed.

(** While the deadline does not pass, the loop ends either after the full
    turn, [nPageCurrent] being [nPageStart + nPages], or with a best
    solution. *)
Lemma do_while_exit :
  forall env args nUtxoCount nPages nPageStart nHeight fuel st i st',
    (forall k, deadline_passed env k = false) ->
    0 <= nPageStart < nPages ->
    nPageCurrent st = nPageStart + i ->
    0 <= i ->
    Z.of_nat fuel = nPages - i ->
    do_while env args nUtxoCount nPages nPageStart nHeight fuel st
    = Some (Ok st') ->
    nPageCurrent st' = nPageStart + nPages
    \/ IsNull (bestSolution st') = false.
Proof.
  intros env args nUtxoCount nPages nPageStart nHeight fuel;
    induction fuel as [|fuel IH];
    intros st i st' Hclock Hstart Hpc Hi Hfuel H; simpl in H;
    [discriminate|].
  destruct (page_body env args nUtxoCount nPages nHeight st)
    as [[[|] st1]|e] eqn:E; [| |discriminate].
  - inversion H; subst; right.
    eapply page_body_break; eassumption.
  - apply page_body_nPageCurrent in E.
    destruct (Z.eqb_spec (Z.rem (nPageCurrent st1 + 1) nPages) nPageStart)
      as [Heq|Hne].
    + injection H as <-; left; simpl.
      rewrite E, Hpc in Heq |- *.
      apply rem_turn_inv in Heq; lia.
    + eapply (IH _ (i + 1) _ Hclock Hstart); [| | |exact H]; simpl; lia.
Qed.

Lemma slices_many : forall n, nUtxosSlice < n -> 2 <= slices n.
Proof.
  intros n Hn; unfold slices, nUtxosSlice in *.
  pose proof (Z.quot_rem' n 2000) as Hqr.
  pose proof (Z.rem_bound_pos n 2000 ltac:(lia) ltac:(lia)) as Hr.
  destruct (Z.eqb_spec (Z.rem n 2000) 0); lia.
Qed.

Lemma rem_next_turn :
  forall start nPages,
    0 <= start < nPages -> 2 <= nPages ->
    Z.rem (start + nPages + 1) nPages <> start.
Proof.
  intros start nPages Hs Hn.
  rewrite Z.rem_mod_nonneg by lia.
  replace (start + nPages + 1) with (start + 1 + 1 * nPages) by lia.
  rewrite Z.mod_add by lia.
  destruct (Z.eq_dec (start + 1) nPages) as [Heq|Hne].
  - rewrite Heq, Z.mod_same by lia; lia.
  - rewrite Z.mod_small by lia; lia.
Qed.

(** C2. For an address of more than one slice, while the clock does not
    pass the deadline, the endpoint never answers [BalanceInsufficient]: the
    test after the loop increments [nPageCurrent] once more, so after a full
    turn it can only hold when there is a single slice.  A full pass that
    finds nothing then ends in [TimedOut]: 2001 outputs of 1 satoshi (two
    slices, 2001 satoshis in all) asked for 10 coins give [TimedOut], while
    two outputs in a single slice asked for the same give
    [BalanceInsufficient]. *)
Theorem full_pass_over_two_slices_times_out :
  (forall env args key nUtxoCount,
      GetIndexKey env (addrStr args) = Some key ->
      GetAddressUnspentCount env key = Some nUtxoCount ->
      nUtxosSlice < nUtxoCount ->
      0 <= GetRand env (slices nUtxoCount) < slices nUtxoCount ->
      (forall k, deadline_passed env k = false) ->
      address_utxos_amount env args
      <> Some (Err (SAPI.Error SAPI.BalanceInsufficient)))
  /\ address_utxos_amount (env_two_slices 1 1) (ask 1000000000)
     = Some (Err (SAPI.Error SAPI.TimedOut))
  /\ sumZ (amounts (two_slices 1 1)) = 2001
  /\ (forall k, deadline_passed (env_two_slices 1 1) k = false)
  /\ address_utxos_amount
       (ledger no_lock [] [] (fun _ => false) [utxo 1 5; utxo 2 6])
       (ask 1000000000)
     = Some (Err (SAPI.Error SAPI.BalanceInsufficient)).
Proof.
  split.
  { intros env args key n Hkey Hcount Hn Hrand Hclock.
    unfold address_utxos_amount; rewrite Hkey, Hcount.
    destruct (Z.eqb_spec n 0) as [|Hn0]; [discriminate|].
    pose proof (slices_many n Hn) as Hmany.
    destruct (do_while _ _ _ _ _ _ _ _) as [[st|e]|] eqn:E;
      [| |discriminate].
    - apply (do_while_exit _ _ _ _ _ _ _ _ 0 _ Hclock Hrand) in E;
        [|simpl; lia|lia|lia].
      destruct E as [Hpc|Hbest].
      + rewrite Hpc.
        destruct (Z.eqb_spec (Z.rem (GetRand env (slices n) + slices n + 1)
                                    (slices n))
                             (GetRand env (slices n))) as [Heq|_].
        * exfalso; revert Heq; now apply rem_next_turn.
        * simpl; destruct (IsNull (bestSolution st)); discriminate.
      + rewrite Hbest, andb_false_r; simpl; discriminate.
    - intros Heq; inversion Heq; subst.
      clear - E. revert E.
      generalize (mkSel (GetRand env (slices n)) SetNull SetNull false 2).
      induction (Z.to_nat (slices n)) as [|fuel IH]; intros st E; simpl in E;
        [discriminate|].
      destruct (page_body env args n (slices n) (chainActive_Height env) st)
        as [[[|] st1]|e] eqn:Ebody.
      + discriminate.
      + destruct (_ =? _); [discriminate|]. eapply IH; exact E.
      + inversion E; subst. now apply page_body_error in Ebody. }
  split; [vm_compute; reflexivity|].
  split; [vm_compute; reflexivity|].
  split; [intros k; reflexivity|].
  vm_compute; reflexivity.
Qed.

(** * Further properties of the selection *)

(** ** What a solution may hold *)

Lemma AddUtxo_Forall :
  forall (P : Utxo -> Prop) s u,
    Forall P (vecUtxos s) -> P u -> Forall P (vecUtxos (AddUtxo s u)).
Proof.
  intros P s u Hs Hu; unfold AddUtxo.
  destruct (find_if _ (vecUtxos s)); [exact Hs|]; simpl.
  apply Forall_app; split; [exact Hs|now constructor].
Qed.

Lemma walk_picked :
  forall env args l st,
    Forall (listed_unlocked env args) l ->
    Forall (picked_ok env args) (vecUtxos (currentSolution st)) ->
    Forall (picked_ok env args) (vecUtxos (bestSolution st)) ->
    Forall (picked_ok env args)
           (vecUtxos (currentSolution
                        (walk env args (chainActive_Height env) l st)))
    /\ Forall (picked_ok env args)
              (vecUtxos (bestSolution
                           (walk env args (chainActive_Height env) l st))).
Proof.
  intros env args l; induction l as [|it rest IH];
    intros st Hl Hcur Hbest; simpl; [now split|].
  inversion Hl as [|? ? [Hun Hidx] Hrest]; subst.
  destruct (deadline_passed env (ticks st)); [now split|].
  set (cur := if selectable env args (chainActive_Height env) it
              then AddUtxo (currentSolution st) it
              else currentSolution st).
  assert (Hcur' : Forall (picked_ok env args) (vecUtxos cur)).
  { unfold cur.
    destruct (selectable env args (chainActive_Height env) it) eqn:Hsel;
      [|exact Hcur].
    apply AddUtxo_Forall; [exact Hcur|].
    repeat split; assumption. }
  destruct (amount cur >=? expectedAmount args + fee cur).
  - destruct (IsNull (bestSolution st) || _); simpl; split;
      try assumption; constructor.
  - apply IH; simpl; assumption.
Qed.

Lemma filter_unlocked_listed :
  forall env args key nIndexOffset nLimit slice unl,
    GetIndexKey env (addrStr args) = Some key ->
    GetAddressUnspent env key nIndexOffset nLimit = Some slice ->
    filter_unlocked env (addrStr args) slice = Ok unl ->
    Forall (listed_unlocked env args) unl.
Proof.
  intros env args key off lim slice unl Hkey Hslice Hunl.
  apply filter_unlocked_filter in Hunl; subst unl.
  apply Forall_forall; intros u Hu.
  apply filter_In in Hu; destruct Hu as [Hin Hlock].
  split.
  - destruct (IsTimeLocked env _ _ _) as [[|]|]; congruence.
  - exists key, off, lim, slice; auto.
Qed.

Lemma page_body_picked :
  forall env args nUtxoCount nPages st e st',
    (fRandom args = true ->
     forall l x, In x (random_shuffle env l) -> In x l) ->
    page_body env args nUtxoCount nPages (chainActive_Height env) st
    = Ok (e, st') ->
    Forall (picked_ok env args) (vecUtxos (currentSolution st)) ->
    Forall (picked_ok env args) (vecUtxos (bestSolution st)) ->
    Forall (picked_ok env args) (vecUtxos (currentSolution st'))
    /\ Forall (picked_ok env args) (vecUtxos (bestSolution st')).
Proof.
  intros env args nUtxoCount nPages st e st' Hshuffle H Hcur Hbest.
  unfold page_body in H.
  destruct (negb (fRandom args) && deadline_passed env (ticks st)).
  { inversion H; subst; now split. }
  destruct (GetIndexKey env (addrStr args)) as [key|] eqn:Hkey;
    [|discriminate].
  destruct (GetAddressUnspent env key _ _) as [slice|] eqn:Hslice;
    [|discriminate].
  destruct (filter_unlocked env (addrStr args) slice) as [unl|] eqn:Hunl;
    simpl in H; [|discriminate].
  pose proof (filter_unlocked_listed _ _ _ _ _ _ _ Hkey Hslice Hunl) as Hl.
  assert (Hord : Forall (listed_unlocked env args)
                        (if fRandom args then random_shuffle env unl
                         else SortHTL.sort unl)).
  { rewrite Forall_forall in Hl |- *; intros x Hx; apply Hl.
    destruct (fRandom args) eqn:Hr.
    - now apply Hshuffle.
    - apply (Permutation_in _ (Permutation_sym (SortHTL.Permuted_sort unl))).
      exact Hx. }
  match type of H with
  | context [walk env args _ ?l ?s] =>
    assert (Hw : Forall (picked_ok env args)
                        (vecUtxos (currentSolution
                                     (walk env args (chainActive_Height env) l s)))
                 /\ Forall (picked_ok env args)
                           (vecUtxos (bestSolution
                                        (walk env args (chainActive_Height env) l s))))
      by (apply walk_picked; [exact Hord| |];
          destruct (fRandom args); assumption);
      destruct (walk env args (chainActive_Height env) l s)
        as [pc cur best fto tk]
  end.
  simpl in H, Hw.
  destruct (negb (IsNull best) && fRandom args);
    [inversion H; subst; exact Hw|].
  destruct (deadline_passed env tk); inversion H; subst; exact Hw.
Qed.

Lemma do_while_picked :
  forall env args nUtxoCount nPages nPageStart fuel st st',
    (fRandom args = true ->
     forall l x, In x (random_shuffle env l) -> In x l) ->
    do_while env args nUtxoCount nPages nPageStart (chainActive_Height env)
             fuel st = Some (Ok st') ->
    Forall (picked_ok env args) (vecUtxos (currentSolution st)) ->
    Forall (picked_ok env args) (vecUtxos (bestSolution st)) ->
    Forall (picked_ok env args) (vecUtxos (bestSolution st')).
Proof.
  intros env args nUtxoCount nPages nPageStart fuel;
    induction fuel as [|fuel IH]; intros st st' Hshuffle H Hcur Hbest;
    simpl in H; [discriminate|].
  destruct (page_body env args nUtxoCount nPages (chainActive_Height env) st)
    as [[[|] st1]|e] eqn:E; [| |discriminate].
  - inversion H; subst.
    eapply page_body_picked; eassumption.
  - destruct (page_body_picked _ _ _ _ _ _ _ Hshuffle E Hcur Hbest)
      as [Hc1 Hb1].
    destruct (Z.rem (nPageCurrent st1 + 1) nPages =? nPageStart).
    + inversion H; subst; exact Hb1.
    + eapply IH; [exact Hshuffle|exact H|exact Hc1|exact Hb1].
Qed.

(** X1. Every output of a returned solution passed the guard of [AddUtxo]
    (it is not spent in the mempool and, when instant pay is asked for, it
    is confirmed deep enough), its time-lock test answered "not locked", and
    it is listed in a slice of the address's unspent index; in random mode
    this needs the shuffle to return only outputs it was given. *)
Theorem returned_outputs_allowed :
  forall env args sol,
    (fRandom args = true ->
     forall l x, In x (random_shuffle env l) -> In x l) ->
    address_utxos_amount env args = Some (Ok sol) ->
    Forall (picked_ok env args) (vecUtxos sol).
Proof.
  intros env args sol Hshuffle H.
  apply address_utxos_amount_inv in H.
  destruct H as (key & n & st & _ & _ & _ & Hloop & _ & ->).
  eapply do_while_picked; [exact Hshuffle|exact Hloop| |]; constructor.
Qed.

Lemma returned_outputs_allowed_witness :
  Forall (picked_ok env_three (ask 600000000))
         (vecUtxos (mkSolution 800000000 100000 199900000
                               [utxo 2 500000000; utxo 3 300000000])).
Proof.
  apply (returned_outputs_allowed env_three (ask 600000000)).
  - intros Hr; discriminate.
  - vm_compute; reflexivity.
Defined.

(** ** The answer for an address of one slice *)

Lemma walk_Forall :
  forall (P : Utxo -> Prop) env args nHeight l st,
    Forall P (filter (selectable env args nHeight) l) ->
    Forall P (vecUtxos (currentSolution st)) ->
    Forall P (vecUtxos (bestSolution st)) ->
    Forall P (vecUtxos (currentSolution (walk env args nHeight l st)))
    /\ Forall P (vecUtxos (bestSolution (walk env args nHeight l st))).
Proof.
  intros P env args nHeight l; induction l as [|it rest IH];
    intros st Hl Hcur Hbest; simpl; [now split|].
  simpl in Hl.
  destruct (deadline_passed env (ticks st)); [now split|].
  destruct (selectable env args nHeight it) eqn:Hsel.
  - inversion Hl as [|? ? Hit Hrest]; subst.
    pose proof (AddUtxo_Forall P _ it Hcur Hit) as Hcur'.
    destruct (amount (AddUtxo (currentSolution st) it)
              >=? expectedAmount args + fee (AddUtxo (currentSolution st) it)).
    + destruct (IsNull (bestSolution st) || _); simpl; split;
        try assumption; constructor.
    + apply IH; simpl; assumption.
  - destruct (amount (currentSolution st)
              >=? expectedAmount args + fee (currentSolution st)).
    + destruct (IsNull (bestSolution st) || _); simpl; split;
        try assumption; constructor.
    + apply IH; simpl; assumption.
Qed.

Lemma walk_fTimedOut :
  forall env args nHeight l st,
    (forall k, deadline_passed env k = false) ->
    fTimedOut (walk env args nHeight l st) = fTimedOut st.
Proof.
  intros env args nHeight l; induction l as [|it rest IH]; intros st Hclock;
    simpl; [reflexivity|].
  rewrite Hclock.
  destruct (_ >=? _); [destruct (_ || _); reflexivity|].
  now rewrite IH.
Qed.

(** The walk over a slice in decreasing order of amount, with a clock that
    does not pass the deadline: if it ends without a solution, no set [S]
    of distinct selectable outputs of the slice completes the running
    solution. *)
Lemma walk_none :
  forall env args nHeight l st,
    (forall k, deadline_passed env k = false) ->
    1 <= expectedAmount args ->
    StronglySorted (fun a b => AmountHTL.leb a b = true) l ->
    NoDup (map utxo_id (vecUtxos (currentSolution st) ++ l)) ->
    running_ok (currentSolution st) ->
    amount (currentSolution st)
    < expectedAmount args
      + CalculateFee (Z.of_nat (List.length (vecUtxos (currentSolution st)))) ->
    IsNull (bestSolution st) = true ->
    IsNull (bestSolution (walk env args nHeight l st)) = true ->
    forall S,
      NoDup S ->
      incl S (filter (selectable env args nHeight) l) ->
      amount (currentSolution st) + sumZ (amounts S)
      < expectedAmount args
        + CalculateFee
            (Z.of_nat (List.length (vecUtxos (currentSolution st))
                       + List.length S)).
Proof.
  intros env args nHeight l; induction l as [|it rest IH];
    intros st Hclock Hexp Hsorted Hnd Hok Hlow Hnull Hnone S HS Hincl.
  - destruct S as [|s S']; [simpl; rewrite Nat.add_0_r; lia|].
    exfalso; apply (Hincl s); now left.
  - simpl in Hnone.
    rewrite Hclock in Hnone.
    inversion Hsorted as [|? ? Hsorted' Hall]; subst.
    rewrite map_app in Hnd; simpl in Hnd.
    simpl in Hincl.
    destruct (selectable env args nHeight it) eqn:Hsel.
    + pose proof (running_ok_AddUtxo _ it Hok) as Hok'.
      assert (Hfresh : ~ In (utxo_id it)
                         (map utxo_id (vecUtxos (currentSolution st)))).
      { intros Hin; apply (NoDup_remove_2 _ _ _ Hnd), in_or_app; now left. }
      rewrite (AddUtxo_fresh _ _ Hfresh) in *.
      simpl in Hnone.
      rewrite length_app in *; simpl (List.length [it]) in *.
      destruct (amount (currentSolution st) + satoshis (snd it)
                >=? expectedAmount args
                    + CalculateFee
                        (Z.of_nat (List.length (vecUtxos (currentSolution st)) + 1)))
        eqn:Hge.
      * exfalso.
        rewrite Hnull in Hnone; simpl in Hnone.
        unfold IsNull in Hnone; simpl in Hnone.
        destruct (vecUtxos (currentSolution st)); discriminate.
      * rewrite Z.geb_leb in Hge; apply Z.leb_gt in Hge.
        match type of Hnone with
        | context [walk env args nHeight rest ?s] => set (st' := s) in *
        end.
        assert (Hnd' : NoDup (map utxo_id (vecUtxos (currentSolution st') ++ rest))).
        { simpl; rewrite <- app_assoc, map_app; exact Hnd. }
        assert (Hlow' : amount (currentSolution st')
                        < expectedAmount args
                          + CalculateFee
                              (Z.of_nat (List.length (vecUtxos (currentSolution st'))))).
        { simpl; rewrite length_app; simpl; lia. }
        assert (Hlen' : List.length (vecUtxos (currentSolution st'))
                        = (List.length (vecUtxos (currentSolution st)) + 1)%nat).
        { simpl; rewrite length_app; reflexivity. }
        destruct (in_dec Utxo_eq_dec it S) as [Hin|Hnin].
        -- apply in_split in Hin; destruct Hin as (S1 & S2 & ->).
           pose proof (NoDup_remove_2 _ _ _ HS) as Hnot.
           assert (Hincl' : incl (S1 ++ S2)
                                 (filter (selectable env args nHeight) rest)).
           { intros x Hx.
             assert (Hx' : In x (S1 ++ it :: S2)).
             { apply in_app_or in Hx; apply in_or_app; simpl; tauto. }
             destruct (Hincl x Hx') as [<-|Hr]; [contradiction|exact Hr]. }
           specialize (IH st' Hclock Hexp Hsorted' Hnd' Hok' Hlow' Hnull Hnone
                          (S1 ++ S2) (NoDup_remove_1 _ _ _ HS) Hincl').
           rewrite Hlen', amounts_app, sumZ_app, length_app in IH.
           simpl in IH.
           rewrite amounts_app, sumZ_app, length_app; simpl.
           replace (List.length (vecUtxos (currentSolution st))
                    + (List.length S1 + S (List.length S2)))%nat
             with (List.length (vecUtxos (currentSolution st)) + 1
                   + (List.length S1 + List.length S2))%nat by lia.
           lia.
        -- assert (Hincl' : incl S (filter (selectable env args nHeight) rest)).
           { intros x Hx.
             destruct (Hincl x Hx) as [<-|Hr]; [contradiction|exact Hr]. }
           destruct S as [|s S'].
           { simpl; rewrite Nat.add_0_r; lia. }
           assert (Hs : satoshis (snd s) <= satoshis (snd it)).
           { assert (Hsr : In s rest).
             { eapply proj1, filter_In, Hincl'; now left. }
             rewrite Forall_forall in Hall.
             specialize (Hall s Hsr); unfold AmountHTL.leb in Hall; lia. }
           inversion HS as [|? ? _ HS']; subst.
           assert (Hincl'' : incl S' (filter (selectable env args nHeight) rest)).
           { intros x Hx; apply Hincl'; now right. }
           specialize (IH st' Hclock Hexp Hsorted' Hnd' Hok' Hlow' Hnull Hnone
                          S' HS' Hincl'').
           rewrite Hlen' in IH; simpl in IH |- *.
           replace (List.length (vecUtxos (currentSolution st))
                    + S (List.length S'))%nat
             with (List.length (vecUtxos (currentSolution st)) + 1
                   + List.length S')%nat by lia.
           lia.
    + destruct Hok as (Hsum & Hnd0 & Hfee & Hcalc).
      destruct (amount (currentSolution st)
                >=? expectedAmount args + fee (currentSolution st)) eqn:Hge.
      * exfalso.
        rewrite Z.geb_leb in Hge; apply Z.leb_le in Hge.
        destruct (vecUtxos (currentSolution st)) as [|u0 l0] eqn:Evec.
        -- simpl in Hsum; lia.
        -- rewrite Hcalc in Hge by discriminate; lia.
      * match type of Hnone with
        | context [walk env args nHeight rest ?s] => set (st' := s) in *
        end.
        apply (IH st'); try assumption.
        -- simpl; rewrite map_app; exact (NoDup_remove_1 _ _ _ Hnd).
        -- repeat split; assumption.
Qed.

Lemma filter_unlocked_total :
  forall env a l,
    (forall u, In u l ->
       exists b, IsTimeLocked env (nBlockHeight (fst u)) (txhash (fst u)) a
                 = Ok b) ->
    exists unl, filter_unlocked env a l = Ok unl.
Proof.
  intros env a l; induction l as [|it rest IH]; intros H; simpl;
    [now eexists|].
  destruct (H it (or_introl eq_refl)) as [b ->]; simpl.
  destruct IH as [unl ->]; [intros u Hu; apply H; now right|].
  simpl; now eexists.
Qed.

(** The whole run on an address of one slice, in deterministic mode, with
    a clock that does not pass the deadline. *)
Lemma single_slice_run :
  forall env args key n slice unl,
    fRandom args = false ->
    GetIndexKey env (addrStr args) = Some key ->
    GetAddressUnspentCount env key = Some n ->
    0 < n <= nUtxosSlice ->
    GetRand env 1 = 0 ->
    (forall k, deadline_passed env k = false) ->
    GetAddressUnspent env key 0 n = Some slice ->
    filter_unlocked env (addrStr args) slice = Ok unl ->
    address_utxos_amount env args
    = let st := walk env args (chainActive_Height env) (SortHTL.sort unl)
                     (mkSel 0 SetNull SetNull false 3) in
      if IsNull (bestSolution st)
      then Some (Err (SAPI.Error SAPI.BalanceInsufficient))
      else Some (Ok (bestSolution st)).
Proof.
  intros env args key n slice unl Hdet Hkey Hcount Hn Hrand Hclock Hslice Hunl.
  unfold address_utxos_amount.
  rewrite Hkey, Hcount, (slices_single n Hn), Hrand.
  destruct (Z.eqb_spec n 0) as [|_]; [lia|].
  change (Z.to_nat 1) with 1%nat.
  cbn [do_while]; unfold page_body.
  cbn [nPageCurrent ticks currentSolution bestSolution fTimedOut].
  destruct (single_slice_bounds n 0 Hn) as [Hoff Hlim].
  rewrite Hoff, Hlim, Hdet, Hkey, Hslice, Hunl, !Hclock; simpl.
  pose proof (walk_nPageCurrent env args (chainActive_Height env)
                (SortHTL.sort unl) (mkSel 0 SetNull SetNull false 3)) as Hpc.
  pose proof (walk_fTimedOut env args (chainActive_Height env)
                (SortHTL.sort unl) (mkSel 0 SetNull SetNull false 3) Hclock)
    as Hto.
  destruct (walk env args (chainActive_Height env) (SortHTL.sort unl) _)
    as [pc cur best fto tk]; simpl in *; subst pc fto.
  rewrite andb_false_r, Hclock; simpl.
  destruct (IsNull best); reflexivity.
Qed.

Lemma spendable_in_sorted :
  forall env args slice unl S,
    filter_unlocked env (addrStr args) slice = Ok unl ->
    incl S (filter (spendable env args) slice) ->
    incl S (filter (selectable env args (chainActive_Height env))
                   (SortHTL.sort unl)).
Proof.
  intros env args slice unl S Hunl Hincl x Hx.
  apply filter_unlocked_filter in Hunl.
  apply Hincl, filter_In in Hx; destruct Hx as [Hin Hsp].
  unfold spendable in Hsp.
  apply filter_In; split.
  - apply (Permutation_in _ (SortHTL.Permuted_sort unl)).
    rewrite Hunl; apply filter_In; split; [exact Hin|].
    destruct (IsTimeLocked env _ _ _) as [[|]|]; congruence.
  - destruct (IsTimeLocked env _ _ _) as [[|]|]; congruence.
Qed.

Lemma sorted_in_spendable :
  forall env args slice unl,
    filter_unlocked env (addrStr args) slice = Ok unl ->
    incl (filter (selectable env args (chainActive_Height env))
                 (SortHTL.sort unl))
         (filter (spendable env args) slice).
Proof.
  intros env args slice unl Hunl x Hx.
  apply filter_unlocked_filter in Hunl.
  apply filter_In in Hx; destruct Hx as [Hin Hsel].
  apply (Permutation_in _ (Permutation_sym (SortHTL.Permuted_sort unl))) in Hin.
  rewrite Hunl in Hin; apply filter_In in Hin; destruct Hin as [Hin Hlock].
  apply filter_In; split; [exact Hin|].
  unfold spendable.
  destruct (IsTimeLocked env _ _ _) as [[|]|]; congruence.
Qed.

Lemma sumZ_subset_le :
  forall (l S : list Utxo),
    Forall (fun u => 0 <= satoshis (snd u)) l ->
    NoDup S -> incl S l ->
    sumZ (amounts S) <= sumZ (amounts l).
Proof.
  intros l; induction l as [|a l IH]; intros S Hpos HS Hincl.
  - apply incl_l_nil in Hincl; subst; simpl; lia.
  - inversion Hpos as [|? ? Ha Hpos']; subst.
    destruct (in_dec Utxo_eq_dec a S) as [Hin|Hnin].
    + apply in_split in Hin; destruct Hin as (S1 & S2 & ->).
      pose proof (NoDup_remove_2 _ _ _ HS) as Hnot.
      assert (Hincl' : incl (S1 ++ S2) l).
      { intros x Hx.
        assert (Hx' : In x (S1 ++ a :: S2)).
        { apply in_app_or in Hx; apply in_or_app; simpl; tauto. }
        destruct (Hincl x Hx') as [<-|Hr]; [contradiction|exact Hr]. }
      specialize (IH (S1 ++ S2) Hpos' (NoDup_remove_1 _ _ _ HS) Hincl').
      rewrite amounts_app, sumZ_app in IH |- *; simpl; lia.
    + assert (Hincl' : incl S l).
      { intros x Hx.
        destruct (Hincl x Hx) as [<-|Hr]; [contradiction|exact Hr]. }
      specialize (IH S Hpos' HS Hincl'); simpl; lia.
Qed.

(** X2. In deterministic mode, for an address of one slice (at most 2000
    outputs, pairwise distinct, each with a time-lock test that succeeds),
    a requested amount of at least 1 and a clock that does not pass the
    deadline: a solution is returned when some set of distinct spendable
    outputs reaches the amount plus the fee of its size, and
    [BalanceInsufficient] is the answer when no such set does; in
    particular when the spendable outputs, none of negative value, sum to
    less than the amount plus the floor fee of 100000. *)
Theorem single_slice_answer :
  forall env args key n slice,
    fRandom args = false ->
    1 <= expectedAmount args ->
    GetIndexKey env (addrStr args) = Some key ->
    GetAddressUnspentCount env key = Some n ->
    0 < n <= nUtxosSlice ->
    GetRand env 1 = 0 ->
    (forall k, deadline_passed env k = false) ->
    GetAddressUnspent env key 0 n = Some slice ->
    NoDup (map utxo_id slice) ->
    (forall u, In u slice ->
       exists b, IsTimeLocked env (nBlockHeight (fst u)) (txhash (fst u))
                              (addrStr args) = Ok b) ->
    ((exists S, NoDup S
                /\ incl S (filter (spendable env args) slice)
                /\ satisfying (expectedAmount args) S) ->
     exists sol, address_utxos_amount env args = Some (Ok sol))
    /\ ((forall S, NoDup S ->
                   incl S (filter (spendable env args) slice) ->
                   ~ satisfying (expectedAmount args) S) ->
        address_utxos_amount env args
        = Some (Err (SAPI.Error SAPI.BalanceInsufficient)))
    /\ (Forall (fun u => 0 <= satoshis (snd u)) slice ->
        sumZ (amounts (filter (spendable env args) slice))
        < expectedAmount args + 100000 ->
        address_utxos_amount env args
        = Some (Err (SAPI.Error SAPI.BalanceInsufficient))).
Proof.
  intros env args key n slice Hdet Hexp Hkey Hcount Hn Hrand Hclock Hslice
         Hnd Htests.
  cut (((exists S, NoDup S
                   /\ incl S (filter (spendable env args) slice)
                   /\ satisfying (expectedAmount args) S) ->
        exists sol, address_utxos_amount env args = Some (Ok sol))
       /\ ((forall S, NoDup S ->
                      incl S (filter (spendable env args) slice) ->
                      ~ satisfying (expectedAmount args) S) ->
           address_utxos_amount env args
           = Some (Err (SAPI.Error SAPI.BalanceInsufficient)))).
  { intros [Hsome Hnone]; split; [exact Hsome|split; [exact Hnone|]].
    intros Hpos Hsum; apply Hnone; intros S HS Hincl Hsat.
    assert (Hle : sumZ (amounts S)
                  <= sumZ (amounts (filter (spendable env args) slice))).
    { apply sumZ_subset_le; [|exact HS|exact Hincl].
      rewrite Forall_forall in Hpos |- *; intros u Hu; apply Hpos.
      now apply filter_In in Hu. }
    unfold satisfying in Hsat.
    pose proof (CalculateFee_floor (Z.of_nat (List.length S))); lia. }
  destruct (filter_unlocked_total env (addrStr args) slice Htests)
    as [unl Hunl].
  rewrite (single_slice_run env args key n slice unl
             Hdet Hkey Hcount Hn Hrand Hclock Hslice Hunl).
  cbv zeta.
  set (st0 := mkSel 0 SetNull SetNull false 3).
  assert (Hnd' : NoDup (map utxo_id (vecUtxos (currentSolution st0)
                                     ++ SortHTL.sort unl))).
  { simpl.
    apply (Permutation_NoDup
             (Permutation_map utxo_id (SortHTL.Permuted_sort unl))).
    rewrite (filter_unlocked_filter _ _ _ _ Hunl).
    now apply NoDup_map_filter. }
  assert (Hlow : amount (currentSolution st0)
                 < expectedAmount args
                   + CalculateFee
                       (Z.of_nat (List.length (vecUtxos (currentSolution st0))))).
  { simpl; pose proof (CalculateFee_floor 0); lia. }
  destruct (IsNull (bestSolution
                      (walk env args (chainActive_Height env)
                            (SortHTL.sort unl) st0))) eqn:Hbest; split.
  - intros (S & HS & Hincl & Hsat); exfalso.
    pose proof (walk_none env args (chainActive_Height env) (SortHTL.sort unl)
                  st0 Hclock Hexp (sort_HTL_sorted unl) Hnd'
                  running_ok_SetNull Hlow eq_refl Hbest S HS
                  (spendable_in_sorted env args slice unl S Hunl Hincl)) as H.
    unfold satisfying in Hsat; simpl in H; lia.
  - reflexivity.
  - intros _; eexists; reflexivity.
  - intros Hno; exfalso.
    assert (Hok : sel_ok (expectedAmount args)
                    (walk env args (chainActive_Height env)
                          (SortHTL.sort unl) st0)).
    { apply walk_sel_ok; split; simpl; [exact running_ok_SetNull|now left]. }
    destruct Hok as [_ [Hnull|Hsound]]; [congruence|].
    destruct Hsound as (Hsum & Hids & Hfee & Hcover & _).
    destruct (walk_Forall
                (fun u => In u (filter (selectable env args (chainActive_Height env))
                                       (SortHTL.sort unl)))
                env args (chainActive_Height env) (SortHTL.sort unl) st0)
      as [_ Hin]; try (simpl; constructor).
    { apply Forall_forall; auto. }
    apply (Hno (vecUtxos (bestSolution
                            (walk env args (chainActive_Height env)
                                  (SortHTL.sort unl) st0)))).
    + exact (NoDup_map_inv _ _ Hids).
    + intros x Hx.
      apply (sorted_in_spendable env args slice unl Hunl).
      rewrite Forall_forall in Hin; now apply Hin.
    + unfold satisfying; rewrite <- Hfee, <- Hsum; exact Hcover.
Qed.

Lemma single_slice_answer_witness :
  (exists sol, address_utxos_amount env_three (ask 600000000) = Some (Ok sol))
  /\ address_utxos_amount env_three (ask 1000000000)
     = Some (Err (SAPI.Error SAPI.BalanceInsufficient)).
Proof.
  assert (Htests :
            forall u, In u three_outputs ->
              exists b, IsTimeLocked env_three (nBlockHeight (fst u))
                                     (txhash (fst u)) addr1 = Ok b).
  { intros u [<-|[<-|[<-|[]]]]; exists false; reflexivity. }
  assert (Hnd : NoDup (map utxo_id three_outputs)).
  { vm_compute; repeat constructor; simpl; intuition congruence. }
  split.
  - apply (proj1 (single_slice_answer env_three (ask 600000000) key1 3
                    three_outputs eq_refl ltac:(simpl; lia) eq_refl eq_refl
                    ltac:(unfold nUtxosSlice; lia) eq_refl
                    (fun k => eq_refl) eq_refl Hnd Htests)).
    exists [utxo 2 500000000; utxo 3 300000000]; split; [|split].
    + vm_compute; repeat constructor; simpl; intuition congruence.
    + intros x [<-|[<-|[]]]; vm_compute; tauto.
    + unfold satisfying; vm_compute; discriminate.
  - apply (proj2 (proj2 (single_slice_answer env_three (ask 1000000000) key1 3
                    three_outputs eq_refl ltac:(simpl; lia) eq_refl eq_refl
                    ltac:(unfold nUtxosSlice; lia) eq_refl
                    (fun k => eq_refl) eq_refl Hnd Htests))).
    + repeat constructor; simpl; lia.
    + vm_compute; reflexivity.
Defined.

(** ** The deadline *)

Lemma rem_succ_ne :
  forall start nPages,
    0 <= start < nPages -> 2 <= nPages ->
    Z.rem (start + 1) nPages <> start.
Proof.
  intros start nPages Hs Hn.
  rewrite Z.rem_mod_nonneg by lia.
  destruct (Z.eq_dec (start + 1) nPages) as [Heq|Hne].
  - rewrite Heq, Z.mod_same by lia; lia.
  - rewrite Z.mod_small by lia; lia.
Qed.

(** X3. In deterministic mode, when the deadline has passed at the first
    test of the loop, no slice is read and the answer depends on the number
    of slices only: [BalanceInsufficient] for an address of one slice (the
    loop leaves [fTimedOut] unset and the test after the loop holds),
    [TimedOut] for an address of more. *)
Theorem deadline_before_first_pass :
  forall env args key n,
    fRandom args = false ->
    GetIndexKey env (addrStr args) = Some key ->
    GetAddressUnspentCount env key = Some n ->
    0 < n ->
    0 <= GetRand env (slices n) < slices n ->
    deadline_passed env 2 = true ->
    address_utxos_amount env args
    = Some (Err (SAPI.Error (if n <=? nUtxosSlice
                             then SAPI.BalanceInsufficient
                             else SAPI.TimedOut))).
Proof.
  intros env args key n Hdet Hkey Hcount Hn Hrand Hlate.
  unfold address_utxos_amount.
  rewrite Hkey, Hcount.
  destruct (Z.eqb_spec n 0) as [|_]; [lia|].
  pose proof (slices_pos n Hn) as Hpos.
  destruct (Z.to_nat (slices n)) as [|fuel] eqn:Efuel; [lia|].
  cbn [do_while]; unfold page_body.
  cbn [nPageCurrent ticks currentSolution bestSolution fTimedOut].
  rewrite Hdet, Hlate; simpl.
  destruct (Z.leb_spec n nUtxosSlice) as [Hle|Hgt].
  - rewrite (slices_single n (conj Hn Hle)) in *.
    assert (Hstart : GetRand env 1 = 0) by lia.
    rewrite Hstart; reflexivity.
  - pose proof (slices_many n Hgt) as Hmany.
    destruct (Z.eqb_spec (Z.rem (GetRand env (slices n) + 1) (slices n))
                         (GetRand env (slices n))) as [Heq|_];
      [|reflexivity].
    exfalso; revert Heq; now apply rem_succ_ne.
Qed.

Lemma deadline_before_first_pass_witness :
  address_utxos_amount env_three_late (ask 600000000)
  = Some (Err (SAPI.Error SAPI.BalanceInsufficient)).
Proof.
  apply (deadline_before_first_pass env_three_late (ask 600000000) key1 3).
  - reflexivity.
  - reflexivity.
  - reflexivity.
  - lia.
  - vm_compute; split; [discriminate|reflexivity].
  - reflexivity.
Defined.

(** ** [CUnspentSolution::AddUtxo] once more *)

Lemma key_eqb_same_id :
  forall u u' e : Utxo,
    utxo_id u' = utxo_id u ->
    key_eqb (fst u') (fst e) = key_eqb (fst u) (fst e).
Proof.
  intros u u' e H; unfold key_eqb, utxo_id in *.
  inversion H as [[Ht Hi]]; now rewrite Ht, Hi.
Qed.

Lemma key_eqb_refl : forall u : Utxo, key_eqb (fst u) (fst u) = true.
Proof. intros u; unfold key_eqb; now rewrite !Z.eqb_refl. Qed.

(** X4. Adding an output whose (txid, index) the solution already holds
    changes nothing, whatever amount the second copy carries: after
    [AddUtxo s u], a further [AddUtxo] of any [u'] with the id of [u]
    leaves the selected outputs, the amount and the fee as they are. *)
Theorem AddUtxo_same_id_again :
  forall s u u',
    utxo_id u' = utxo_id u ->
    AddUtxo (AddUtxo s u) u' = AddUtxo s u.
Proof.
  intros s u u' Hid.
  assert (Hfound : forall l,
             find_if (fun entry : Utxo => key_eqb (fst u) (fst entry)) l
             <> None ->
             find_if (fun entry : Utxo => key_eqb (fst u') (fst entry)) l
             <> None).
  { intros l; induction l as [|e l IH]; simpl; [auto|].
    rewrite (key_eqb_same_id u u' e Hid).
    destruct (key_eqb (fst u) (fst e)); [discriminate|exact IH]. }
  destruct (find_if (fun entry : Utxo => key_eqb (fst u) (fst entry))
                    (vecUtxos s)) as [e|] eqn:E.
  - assert (Hs : AddUtxo s u = s) by (unfold AddUtxo; now rewrite E).
    rewrite Hs; unfold AddUtxo.
    destruct (find_if (fun entry : Utxo => key_eqb (fst u') (fst entry))
                      (vecUtxos s)) eqn:E'; [reflexivity|].
    exfalso; apply (Hfound (vecUtxos s)); [congruence|exact E'].
  - assert (Hs : AddUtxo s u
                 = mkSolution (amount s + satoshis (snd u))
                     (CalculateFee (Z.of_nat (List.length (vecUtxos s ++ [u]))))
                     (change s) (vecUtxos s ++ [u]))
      by (unfold AddUtxo; now rewrite E).
    rewrite Hs; unfold AddUtxo; cbn [vecUtxos].
    destruct (find_if (fun entry : Utxo => key_eqb (fst u') (fst entry))
                      (vecUtxos s ++ [u])) eqn:E'; [reflexivity|].
    exfalso.
    assert (Hin : In u (vecUtxos s ++ [u]))
      by (apply in_or_app; right; now left).
    pose proof (find_if_none_inv _ _ _ E' u Hin) as Hu.
    cbv beta in Hu.
    rewrite (key_eqb_same_id u u' u Hid), key_eqb_refl in Hu; discriminate.
Qed.

Lemma AddUtxo_same_id_again_witness :
  AddUtxo (AddUtxo SetNull (utxo 2 500000000))
          (mkUnspentKey 7 2 0, mkUnspentValue 1)
  = AddUtxo SetNull (utxo 2 500000000).
Proof.
  apply (AddUtxo_same_id_again SetNull (utxo 2 500000000)
           (mkUnspentKey 7 2 0, mkUnspentValue 1)).
  reflexivity.
Defined.

(** ** The shape of the fee *)

(** X5. For every input count [n >= 0] whose size [n*148 + 87] fits an
    [int] (up to 14510024 inputs) the fee is a multiple of 100000; it is the
    floor of 100000 up to 9 inputs; from 10 inputs on it is the
    size-proportional value [(n*148 + 87) * 100000 / 1024] rounded to the
    nearest multiple of 100000 (halves upwards), hence within 50000 of
    it. *)
Theorem CalculateFee_shape :
  forall n : Z,
    0 <= n ->
    n * 148 + 87 < 2 ^ 31 ->
    CalculateFee n mod 100000 = 0
    /\ (n <= 9 -> CalculateFee n = 100000)
    /\ (10 <= n ->
        CalculateFee n = fee_step n
        /\ Z.quot ((n * 148 + 87) * 100000) 1024 - 50000 < CalculateFee n
           <= Z.quot ((n * 148 + 87) * 100000) 1024 + 50000).
Proof.
  intros n Hn Hfit.
  assert (Hstep : fee_step n mod 100000 = 0).
  { unfold fee_step; cbv zeta; apply Z.mod_mul; lia. }
  split; [|split].
  - unfold CalculateFee.
    destruct (Z.max_spec (fee_step n) 100000) as [[_ ->]|[_ ->]];
      [reflexivity|exact Hstep].
  - intros Hsmall.
    pose proof (CalculateFee_le n 9 ltac:(lia) ltac:(lia)) as Hup.
    pose proof (CalculateFee_floor n) as Hlow.
    change (CalculateFee 9) with 100000 in Hup; lia.
  - intros Hbig.
    assert (Hfloor : 200000 <= fee_step n).
    { change 200000 with (fee_step 10); apply fee_step_le; lia. }
    assert (Heq : CalculateFee n = fee_step n) by (unfold CalculateFee; lia).
    split; [exact Heq|].
    rewrite Heq; unfold fee_step; cbv zeta.
    rewrite (byte_size_fits n Hn Hfit).
    set (x := Z.quot ((n * 148 + 87) * 100000) 1024).
    pose proof (Z.div_mod (x + 50000) 100000 ltac:(lia)) as Hdm.
    pose proof (Z.mod_pos_bound (x + 50000) 100000 ltac:(lia)) as Hb.
    lia.
Qed.

Lemma CalculateFee_shape_witness :
  CalculateFee 12 mod 100000 = 0
  /\ (12 <= 9 -> CalculateFee 12 = 100000)
  /\ (10 <= 12 ->
      CalculateFee 12 = fee_step 12
      /\ Z.quot ((12 * 148 + 87) * 100000) 1024 - 50000 < CalculateFee 12
         <= Z.quot ((12 * 148 + 87) * 100000) 1024 + 50000).
Proof. apply (CalculateFee_shape 12); lia. Defined.

(** * Further properties of the balance query *)

(** ** The map of unconfirmed amounts *)

Lemma map_add_sum :
  forall k v m, sumZ (map snd (map_add k v m)) = sumZ (map snd m) + v.
Proof.
  intros k v m; induction m as [|[k' v'] m IH]; simpl; [lia|].
  destruct (k =? k'); simpl; [lia|].
  destruct (k <? k'); simpl; lia.
Qed.

Lemma map_add_keys :
  forall k v m x,
    In x (map fst (map_add k v m)) -> x = k \/ In x (map fst m).
Proof.
  intros k v m x; induction m as [|[k' v'] m IH]; simpl.
  - intros [<-|[]]; now left.
  - destruct (k =? k'); simpl; [tauto|].
    destruct (k <? k'); simpl; [intuition|].
    intros [<-|H]; [tauto|]. destruct (IH H); tauto.
Qed.

Lemma map_add_sorted :
  forall k v m, map_sorted m -> map_sorted (map_add k v m).
Proof.
  intros k v m; unfold map_sorted; induction m as [|[k' v'] m IH];
    intros H; simpl.
  - repeat constructor.
  - inversion H as [|? ? Hs Hall]; subst.
    destruct (Z.eqb_spec k k') as [->|Hne]; simpl; [now constructor|].
    destruct (Z.ltb_spec k k') as [Hlt|Hge]; simpl.
    + constructor; [exact H|].
      constructor; [exact Hlt|].
      eapply Forall_impl; [|exact Hall]; intros; simpl in *; lia.
    + constructor; [now apply IH|].
      apply Forall_forall; intros x Hx.
      apply map_add_keys in Hx; destruct Hx as [->|Hx]; [lia|].
      rewrite Forall_forall in Hall; now apply Hall.
Qed.

Lemma mempool_loop_map :
  forall env mp b r u m b' r' u' m',
    mempool_loop env mp (b, r, u, m) = (b', r', u', m') ->
    sumZ (map snd m') - u' = sumZ (map snd m) - u
    /\ (map_sorted m -> map_sorted m').
Proof.
  intros env mp; induction mp as [|[k d] rest IH];
    intros b r u m b' r' u' m' H; simpl in H.
  - inversion H; subst; auto.
  - destruct (IsLockedInstantSendTransaction env (mp_txhash k)).
    + apply IH in H; exact H.
    + apply IH in H; destruct H as [Hsum Hsorted].
      rewrite map_add_sum in Hsum; split; [lia|].
      intros Hm; now apply Hsorted, map_add_sorted.
Qed.

Lemma address_totals_map :
  forall env a idx mp m snapshot m',
    address_totals env a idx mp m = Ok (snapshot, m') ->
    sumZ (map snd m') = sumZ (map snd m) + unconfirmed snapshot
    /\ (map_sorted m -> map_sorted m').
Proof.
  intros env a idx mp m snapshot m' H; unfold address_totals in H.
  destruct (confirmed_loop env a idx (0, 0, 0)) as [[[b l] r]|e];
    simpl in H; [|discriminate].
  destruct mp as [deltas|].
  - destruct (mempool_loop env deltas (b, r, 0, m)) as [[[b1 r1] u1] m1] eqn:E.
    apply mempool_loop_map in E; destruct E as [Hsum Hsorted].
    inversion H; subst; simpl; split; [lia|exact Hsorted].
  - inversion H; subst; simpl; split; [lia|auto].
Qed.

Lemma sumZ_map_app :
  forall (A : Type) (f : A -> Z) l l',
    sumZ (map f (l ++ l')) = sumZ (map f l) + sumZ (map f l').
Proof. intros; now rewrite map_app, sumZ_app. Qed.

Lemma balances_loop_map :
  forall env vecAddr st f st',
    balances_loop env vecAddr st = (f, st') ->
    sumZ (map snd (mapUnconfirmed st'))
    - sumZ (map unconfirmed (vecBalances st'))
    = sumZ (map snd (mapUnconfirmed st))
      - sumZ (map unconfirmed (vecBalances st))
    /\ (map_sorted (mapUnconfirmed st) -> map_sorted (mapUnconfirmed st')).
Proof.
  intros env vecAddr; induction vecAddr as [|a rest IH];
    intros st f st' H; simpl in H.
  - inversion H; subst; auto.
  - destruct (GetIndexKey env a) as [key|]; [|now apply IH in H].
    destruct (GetAddressIndex env key) as [idx|]; [|now apply IH in H].
    destruct (address_totals env a idx (mempool_getAddressIndex env key)
                (mapUnconfirmed st)) as [[snapshot m']|e] eqn:Etot.
    + apply address_totals_map in Etot; destruct Etot as [Hsum Hsorted].
      apply IH in H; simpl in H; destruct H as [Hsum' Hsorted'].
      rewrite sumZ_map_app in Hsum'; simpl in Hsum'.
      split; [lia|auto].
    + inversion H; subst; auto.
Qed.

(** X6. After a balance query the amounts of the per-transaction map add
    up to what the map held before plus the unconfirmed deltas of all the
    snapshots pushed, also when the call is cut short; and the map keeps
    its transaction hashes in strictly increasing order. *)
Theorem mapUnconfirmed_adds_up :
  forall env vecAddr mapUnconfirmed0,
    sumZ (map snd (out_mapUnconfirmed
                     (GetAddressesBalances env vecAddr mapUnconfirmed0)))
    = sumZ (map snd mapUnconfirmed0)
      + sumZ (map unconfirmed
                  (out_vecBalances
                     (GetAddressesBalances env vecAddr mapUnconfirmed0)))
    /\ (map_sorted mapUnconfirmed0 ->
        map_sorted (out_mapUnconfirmed
                      (GetAddressesBalances env vecAddr mapUnconfirmed0))).
Proof.
  intros env vecAddr m0; unfold GetAddressesBalances.
  destruct (balances_loop env vecAddr (mkBalanceState [] [] m0))
    as [[f|] st] eqn:E; simpl;
    apply balances_loop_map in E; simpl in E; destruct E as [Hsum Hsorted];
    (split; [lia|exact Hsorted]).
Qed.

(** ** Received and sent *)

Lemma sumZ_positive_bounds :
  forall l, 0 <= sumZ (positive l) /\ sumZ l <= sumZ (positive l).
Proof.
  intros l; induction l as [|v l IH]; simpl; [lia|].
  unfold positive in *; simpl.
  destruct (Z.ltb_spec 0 v); simpl; lia.
Qed.

(** X7. In every snapshot of a balance query the amount received is not
    negative and is at least the balance, so the amount sent that the
    endpoints report, [received - balance], is never negative. *)
Theorem received_covers_balance :
  forall env vecAddr mapUnconfirmed0,
    Forall (fun b => 0 <= received b /\ balance b <= received b)
           (out_vecBalances (GetAddressesBalances env vecAddr mapUnconfirmed0)).
Proof.
  intros env vecAddr m0.
  assert (H : Forall (snapshot_sums env)
                     (out_vecBalances (GetAddressesBalances env vecAddr m0))).
  { unfold GetAddressesBalances.
    destruct (balances_loop env vecAddr (mkBalanceState [] [] m0))
      as [[f|] st] eqn:E; simpl;
      apply (balances_loop_snapshots _ _ _ _ _ E); constructor. }
  eapply Forall_impl; [|exact H].
  intros b (key & idx & _ & _ & Hb & Hr & _).
  cbv zeta in *.
  pose proof (sumZ_positive_bounds (map snd idx)).
  pose proof (sumZ_positive_bounds
                (instant env (deltas_of (mempool_getAddressIndex env key)))).
  lia.
Qed.

(** ** [address_balances] *)

Lemma existsb_eqb_In :
  forall a l, existsb (String.eqb a) l = true <-> In a l.
Proof.
  intros a l; rewrite existsb_exists; split.
  - intros (x & Hin & Heq); apply String.eqb_eq in Heq; now subst.
  - intros Hin; exists a; split; [exact Hin|apply String.eqb_refl].
Qed.

Lemma unique_addresses_spec :
  forall values acc,
    NoDup acc ->
    NoDup (unique_addresses values acc)
    /\ (forall a, In a (unique_addresses values acc)
                  <-> In a acc \/ In a values).
Proof.
  intros values; induction values as [|v rest IH]; intros acc Hacc; simpl.
  - split; [exact Hacc|intros a; tauto].
  - destruct (existsb (String.eqb v) acc) eqn:E.
    + destruct (IH acc Hacc) as [Hnd Hin]; split; [exact Hnd|].
      apply existsb_eqb_In in E.
      intros a; rewrite Hin; split; [tauto|].
      intros [H|[<-|H]]; tauto.
    + assert (Hv : ~ In v acc).
      { intros Hin; apply existsb_eqb_In in Hin; congruence. }
      assert (Hacc' : NoDup (acc ++ [v])).
      { apply NoDup_app; repeat split; [exact Hacc|repeat constructor; auto|].
        intros x Hx [<-|[]]; contradiction. }
      destruct (IH (acc ++ [v]) Hacc') as [Hnd Hin]; split; [exact Hnd|].
      intros a; rewrite Hin, in_app_iff; simpl; tauto.
Qed.

(** The loop that is not cut short records one error for each address
    without an index. *)
Lemma balances_loop_errors :
  forall env vecAddr st st',
    balances_loop env vecAddr st = (None, st') ->
    List.length (errors st')
    = (List.length (errors st)
       + List.length (filter (fun a => negb (has_index env a)) vecAddr))%nat.
Proof.
  intros env vecAddr; induction vecAddr as [|a rest IH];
    intros st st' H; simpl in H.
  - inversion H; subst; simpl; lia.
  - cbn [filter].
    destruct (GetIndexKey env a) as [key|] eqn:Ek.
    + destruct (GetAddressIndex env key) as [idx|] eqn:Ei.
      * assert (Hi : has_index env a = true)
          by (unfold has_index; now rewrite Ek, Ei).
        rewrite Hi; cbn [negb].
        destruct (address_totals env a idx (mempool_getAddressIndex env key)
                    (mapUnconfirmed st)) as [[snapshot m']|e]; [|discriminate].
        apply IH in H; cbn [errors] in H; exact H.
      * assert (Hi : has_index env a = false)
          by (unfold has_index; now rewrite Ek, Ei).
        rewrite Hi; cbn [negb List.length].
        apply IH in H; cbn [errors] in H; rewrite length_app in H.
        cbn [List.length] in H; lia.
    + assert (Hi : has_index env a = false)
        by (unfold has_index; now rewrite Ek).
      rewrite Hi; cbn [negb List.length].
      apply IH in H; cbn [errors] in H; rewrite length_app in H.
      cbn [List.length] in H; lia.
Qed.

Lemma filter_all_true :
  forall (A : Type) (p : A -> bool) (l : list A),
    filter (fun a => negb (p a)) l = [] -> filter p l = l.
Proof.
  intros A p l; induction l as [|a l IH]; simpl; [reflexivity|].
  destruct (p a); simpl; [|discriminate].
  intros H; now rewrite IH.
Qed.

(** X8. When [address_balances] answers with balances, the body was a
    non-empty array, there is exactly one object per distinct address of
    the body, in the order of first occurrence, every address of the body
    has an index (an address without one turns the whole reply into an
    error), and every object carries the same list of unconfirmed
    transactions, the one of the whole batch. *)
Theorem address_balances_reply :
  forall env bodyParameter entries,
    address_balances env bodyParameter = inl entries ->
    exists values,
      bodyParameter = Some values
      /\ values <> []
      /\ map e_address entries = unique_addresses values []
      /\ NoDup (map e_address entries)
      /\ (forall a, In a values <-> In a (map e_address entries))
      /\ (forall a, In a values -> has_index env a = true)
      /\ (forall e, In e entries ->
            e_unconfirmed_transactions e
            = out_mapUnconfirmed
                (GetAddressesBalances env (unique_addresses values []) [])).
Proof.
  intros env body entries H; unfold address_balances in H.
  destruct body as [[|v values]|]; try discriminate.
  exists (v :: values).
  set (vecAddresses := unique_addresses (v :: values) []) in *.
  destruct (unique_addresses_spec (v :: values) [] (NoDup_nil _))
    as [Hnd Hin]; fold vecAddresses in Hnd, Hin.
  destruct (reply (GetAddressesBalances env vecAddresses [])) as [f|] eqn:Er;
    [discriminate|].
  inversion H as [Hentries]; clear H.
  unfold GetAddressesBalances in *.
  destruct (balances_loop env vecAddresses (mkBalanceState [] [] []))
    as [[f|] st] eqn:E; simpl in *; [discriminate|].
  destruct (errors st) as [|e errs] eqn:Eerr; [|discriminate].
  pose proof (balances_loop_errors _ _ _ _ E) as Hlen.
  rewrite Eerr in Hlen; simpl in Hlen.
  assert (Hall : filter (has_index env) vecAddresses = vecAddresses).
  { apply filter_all_true.
    destruct (filter (fun a => negb (has_index env a)) vecAddresses);
      [reflexivity|simpl in Hlen; lia]. }
  apply balances_loop_complete in E; simpl in E; destruct E as (Hm & _ & _).
  rewrite Hall in Hm.
  assert (Haddr : map e_address
                      (map (balance_entry (mapUnconfirmed st)) (vecBalances st))
                  = vecAddresses).
  { rewrite map_map; simpl; exact Hm. }
  split; [reflexivity|].
  split; [discriminate|].
  split; [exact Haddr|].
  split; [rewrite Haddr; exact Hnd|].
  split; [intros a; rewrite Haddr, Hin; simpl; tauto|].
  split.
  - intros a Ha.
    assert (Ha' : In a (filter (has_index env) vecAddresses)).
    { rewrite Hall; apply Hin; now right. }
    now apply filter_In in Ha'.
  - intros e0 He0; apply in_map_iff in He0.
    destruct He0 as (b & <- & _); reflexivity.
Qed.

Lemma address_balances_reply_witness :
  exists values,
    Some [addr1; addr1] = Some values
    /\ values <> []
    /\ map e_address
           [mkBalanceEntry addr1 1000 0 1000 0 1000 (-400) [(77, -400)]]
       = unique_addresses values []
    /\ NoDup (map e_address
                  [mkBalanceEntry addr1 1000 0 1000 0 1000 (-400) [(77, -400)]])
    /\ (forall a, In a values
                  <-> In a (map e_address
                                [mkBalanceEntry addr1 1000 0 1000 0 1000 (-400)
                                                [(77, -400)]]))
    /\ (forall a, In a values -> has_index env_balance a = true)
    /\ (forall e,
          In e [mkBalanceEntry addr1 1000 0 1000 0 1000 (-400) [(77, -400)]] ->
          e_unconfirmed_transactions e
          = out_mapUnconfirmed
              (GetAddressesBalances env_balance (unique_addresses values []) [])).
Proof.
  apply (address_balances_reply env_balance (Some [addr1; addr1])).
  vm_compute; reflexivity.
Defined.

(** * Further properties of the transaction listing *)

Lemma add_to_found_fst :
  forall h v txs, map fst (add_to_found h v txs) = map fst txs.
Proof.
  intros h v txs; induction txs as [|[[h' height] a] txs IH]; simpl;
    [reflexivity|].
  destruct (h' =? h); simpl; [reflexivity|now rewrite IH].
Qed.

Lemma add_to_found_txids :
  forall h v txs, map txid_of (add_to_found h v txs) = map txid_of txs.
Proof.
  intros h v txs; induction txs as [|[[h' height] a] txs IH]; simpl;
    [reflexivity|].
  destruct (h' =? h); simpl; [reflexivity|now rewrite IH].
Qed.

Lemma add_to_found_length :
  forall h v txs, List.length (add_to_found h v txs) = List.length txs.
Proof.
  intros h v txs; induction txs as [|[[h' height] a] txs IH]; simpl;
    [reflexivity|].
  destruct (h' =? h); simpl; [reflexivity|now rewrite IH].
Qed.

Lemma find_txid_none :
  forall h (txs : list TxEntry),
    find_if (fun t : TxEntry => fst (fst t) =? h) txs = None ->
    ~ In h (map txid_of txs).
Proof.
  intros h txs H Hin.
  apply in_map_iff in Hin; destruct Hin as (e & He & Hin).
  pose proof (find_if_none_inv _ _ _ H e Hin) as Hf; cbv beta in Hf.
  unfold txid_of in He; rewrite He, Z.eqb_refl in Hf; discriminate.
Qed.

Lemma find_txid_some :
  forall h (txs : list TxEntry) e,
    find_if (fun t : TxEntry => fst (fst t) =? h) txs = Some e ->
    In h (map txid_of txs).
Proof.
  intros h txs e H; apply find_some in H; destruct H as [Hin Heq].
  apply Z.eqb_eq in Heq; rewrite <- Heq.
  now apply (in_map txid_of).
Qed.

(** The entries keep distinct transaction hashes, never exceed the page
    size, and each comes from a row that is read. *)
Lemma transactions_loop_entries :
  forall nIndexOffset pageSize rows pos txs total txs' total',
    transactions_loop nIndexOffset pageSize rows pos txs total
    = (txs', total') ->
    NoDup (map txid_of txs) ->
    NoDup (map txid_of txs')
    /\ (Z.of_nat (List.length txs) <= Z.max 0 pageSize ->
        Z.of_nat (List.length txs') <= Z.max 0 pageSize)
    /\ (forall p, In p (map fst txs') ->
          In p (map fst txs)
          \/ exists r, In r rows
                       /\ p = (idx_txhash (fst r), idx_blockHeight (fst r))).
Proof.
  intros off size rows; induction rows as [|[key value] rest IH];
    intros pos txs total txs' total' H Hnd; simpl in H.
  - inversion H; subst; auto.
  - destruct (find_if _ txs) as [e|] eqn:E.
    + apply IH in H; [|now rewrite add_to_found_txids].
      destruct H as (Hnd' & Hlen & Hin).
      rewrite add_to_found_length, add_to_found_fst in *.
      repeat split; [exact Hnd'|exact Hlen|].
      intros p Hp; destruct (Hin p Hp) as [Hl|(r & Hr & ->)]; [now left|].
      right; exists r; split; [now right|reflexivity].
    + apply find_txid_none in E.
      destruct ((pos >=? off) && (Z.of_nat (List.length txs) <? size)) eqn:Ec.
      * apply IH in H.
        -- destruct H as (Hnd' & Hlen & Hin).
           repeat split; [exact Hnd'| |].
           ++ intros _; apply Hlen.
              apply andb_true_iff in Ec; destruct Ec as [_ Ec].
              apply Z.ltb_lt in Ec.
              rewrite length_app; simpl; lia.
           ++ intros p Hp; destruct (Hin p Hp) as [Hl|(r & Hr & ->)].
              ** rewrite map_app in Hl; apply in_app_or in Hl.
                 destruct Hl as [Hl|[<-|[]]]; [now left|].
                 right; exists (key, value); split; [now left|reflexivity].
              ** right; exists r; split; [now right|reflexivity].
        -- rewrite map_app; simpl.
           apply NoDup_app; repeat split;
             [exact Hnd|repeat constructor; auto|].
           intros x Hx [<-|[]]; contradiction.
      * apply IH in H; [|exact Hnd].
        destruct H as (Hnd' & Hlen & Hin).
        repeat split; [exact Hnd'|exact Hlen|].
        intros p Hp; destruct (Hin p Hp) as [Hl|(r & Hr & ->)]; [now left|].
        right; exists r; split; [now right|reflexivity].
Qed.

Lemma existsb_Zeqb_In :
  forall t seen, existsb (Z.eqb t) seen = true <-> In t seen.
Proof.
  intros t seen; rewrite existsb_exists; split.
  - intros (x & Hin & Heq); apply Z.eqb_eq in Heq; now subst.
  - intros Hin; exists t; split; [exact Hin|apply Z.eqb_refl].
Qed.

Lemma distinct_txids_bounds :
  forall rows seen,
    0 <= distinct_txids seen rows <= Z.of_nat (List.length rows).
Proof.
  intros rows; induction rows as [|[key value] rest IH]; intros seen;
    cbn [distinct_txids]; [simpl; lia|].
  rewrite length_cons.
  destruct (existsb _ seen).
  - specialize (IH seen); lia.
  - specialize (IH (idx_txhash key :: seen)); lia.
Qed.

(** The count lies between the number of distinct transactions and the
    number of rows. *)
Lemma transactions_loop_count :
  forall nIndexOffset pageSize rows pos txs total txs' total' seen,
    transactions_loop nIndexOffset pageSize rows pos txs total
    = (txs', total') ->
    incl (map txid_of txs) seen ->
    total + distinct_txids seen rows <= total'
    /\ total' <= total + Z.of_nat (List.length rows).
Proof.
  intros off size rows; induction rows as [|[key value] rest IH];
    intros pos txs total txs' total' seen H Hseen; simpl in H.
  - inversion H; subst; simpl; lia.
  - cbn [distinct_txids]; rewrite length_cons.
    destruct (find_if _ txs) as [e|] eqn:E.
    + apply find_txid_some in E.
      assert (Hs : existsb (Z.eqb (idx_txhash key)) seen = true)
        by (apply existsb_Zeqb_In, Hseen, E).
      rewrite Hs.
      apply (IH _ _ _ _ _ seen) in H; [lia|].
      now rewrite add_to_found_txids.
    + set (txs1 := if (pos >=? off) && (Z.of_nat (List.length txs) <? size)
                   then txs ++ [(idx_txhash key, idx_blockHeight key, value)]
                   else txs) in *.
      assert (Hincl : incl (map txid_of txs1) (idx_txhash key :: seen)).
      { unfold txs1; destruct (_ && _).
        - rewrite map_app; simpl; intros x Hx.
          apply in_app_or in Hx; destruct Hx as [Hx|[<-|[]]];
            [right; now apply Hseen|now left].
        - intros x Hx; right; now apply Hseen. }
      destruct (existsb (Z.eqb (idx_txhash key)) seen) eqn:Hs.
      * apply (IH _ _ _ _ _ seen) in H; [lia|].
        apply existsb_Zeqb_In in Hs.
        intros x Hx; destruct (Hincl x Hx) as [<-|Hin]; assumption.
      * apply (IH _ _ _ _ _ (idx_txhash key :: seen)) in H; [lia|exact Hincl].
Qed.

(** X9. A page of [GetAddressesTransactions] never lists a transaction
    twice, holds at most [pageSize] entries, takes the hash and the height
    of every entry from a row of the index, and reports a count that lies
    between the number of distinct transactions of the index and its number
    of rows. *)
Theorem GetAddressesTransactions_page :
  forall env addrStr pageNum pageSize ascending txs total,
    GetAddressesTransactions env addrStr pageNum pageSize ascending
    = Ok (txs, total) ->
    exists key addressIndex,
      GetIndexKey env addrStr = Some key
      /\ GetAddressIndex env key = Some addressIndex
      /\ NoDup (map txid_of txs)
      /\ Z.of_nat (List.length txs) <= Z.max 0 pageSize
      /\ (forall e, In e txs ->
            exists r, In r addressIndex
                      /\ txid_of e = idx_txhash (fst r)
                      /\ snd (fst e) = idx_blockHeight (fst r))
      /\ distinct_txids [] (rows_read ascending addressIndex) <= total
      /\ total <= Z.of_nat (List.length addressIndex).
Proof.
  intros env a pageNum pageSize asc txs total H.
  unfold GetAddressesTransactions in H.
  destruct (GetIndexKey env a) as [key|] eqn:Ek; [|discriminate].
  destruct (GetAddressIndex env key) as [idx|] eqn:Ei; [|discriminate].
  inversion H as [Hloop]; clear H.
  fold (rows_read asc idx) in Hloop.
  exists key, idx; split; [reflexivity|split; [exact Ei|]].
  destruct (transactions_loop_entries _ _ _ _ _ _ _ _ Hloop (NoDup_nil _))
    as (Hnd & Hlen & Hin).
  destruct (transactions_loop_count _ _ _ _ _ _ _ _ [] Hloop
              (incl_nil_l _)) as [Hlow Hhigh].
  assert (Hrows : forall r, In r (rows_read asc idx) -> In r idx).
  { intros r; unfold rows_read; destruct asc; [auto|].
    intros Hr; now apply in_rev. }
  split; [exact Hnd|].
  split; [apply Hlen; simpl; lia|].
  split.
  - intros e He.
    destruct (Hin (fst e) (in_map fst _ _ He)) as [[]|(r & Hr & Hp)].
    exists r; split; [now apply Hrows|].
    unfold txid_of; rewrite Hp; split; reflexivity.
  - split; [lia|].
    assert (Hl : List.length (rows_read asc idx) = List.length idx).
    { unfold rows_read; destruct asc; [reflexivity|apply length_rev]. }
    lia.
Qed.

Lemma GetAddressesTransactions_page_witness :
  exists key addressIndex,
    GetIndexKey env_two_outputs addr1 = Some key
    /\ GetAddressIndex env_two_outputs key = Some addressIndex
    /\ NoDup (map txid_of [(6, 6, 3)])
    /\ Z.of_nat (List.length [(6, 6, 3)]) <= Z.max 0 1
    /\ (forall e, In e [(6, 6, 3)] ->
          exists r, In r addressIndex
                    /\ txid_of e = idx_txhash (fst r)
                    /\ snd (fst e) = idx_blockHeight (fst r))
    /\ distinct_txids [] (rows_read true addressIndex) <= 2
    /\ 2 <= Z.of_nat (List.length addressIndex).
Proof.
  apply (GetAddressesTransactions_page env_two_outputs addr1 2 1 true
           [(6, 6, 3)] 2).
  vm_compute; reflexivity.
Defined.

(** ** A page that holds every transaction *)

Lemma distinct_txids_ext :
  forall rows seen seen',
    (forall x, In x seen <-> In x seen') ->
    distinct_txids seen rows = distinct_txids seen' rows.
Proof.
  intros rows; induction rows as [|[key value] rest IH]; intros seen seen' H;
    cbn [distinct_txids]; [reflexivity|].
  assert (He : existsb (Z.eqb (idx_txhash key)) seen
               = existsb (Z.eqb (idx_txhash key)) seen').
  { destruct (existsb (Z.eqb (idx_txhash key)) seen) eqn:E1,
             (existsb (Z.eqb (idx_txhash key)) seen') eqn:E2;
      try reflexivity.
    - apply existsb_Zeqb_In, H, existsb_Zeqb_In in E1; congruence.
    - apply existsb_Zeqb_In, H, existsb_Zeqb_In in E2; congruence. }
  rewrite He; destruct (existsb _ seen'); [now apply IH|].
  f_equal; apply IH; intros x; simpl; rewrite H; tauto.
Qed.

Lemma entry_amount_add_to_found :
  forall t h v txs,
    In h (map txid_of txs) ->
    entry_amount t (add_to_found h v txs)
    = entry_amount t txs + (if h =? t then v else 0).
Proof.
  intros t h v txs; unfold entry_amount, txid_of.
  induction txs as [|[[h' height] a] txs IH]; intros Hin; [destruct Hin|].
  simpl in Hin |- *.
  destruct (Z.eqb_spec h' h) as [->|Hne]; simpl.
  - destruct (h =? t); simpl; lia.
  - destruct (h' =? t) eqn:E; simpl.
    + apply Z.eqb_eq in E; subst.
      destruct (Z.eqb_spec h t); [congruence|lia].
    + apply IH; destruct Hin as [Heq|Hin]; [congruence|exact Hin].
Qed.

Lemma entry_amount_app :
  forall t h height v txs,
    ~ In h (map txid_of txs) ->
    entry_amount t (txs ++ [(h, height, v)])
    = entry_amount t txs + (if h =? t then v else 0).
Proof.
  intros t h height v txs; unfold entry_amount, txid_of.
  induction txs as [|[[h' height'] a] txs IH]; intros Hnin; simpl.
  - destruct (h =? t); simpl; lia.
  - simpl in Hnin.
    destruct (h' =? t) eqn:E; simpl.
    + apply Z.eqb_eq in E; subst.
      destruct (Z.eqb_spec h t); [subst; tauto|lia].
    + apply IH; tauto.
Qed.

Lemma transactions_loop_full :
  forall nIndexOffset pageSize rows pos txs total txs' total',
    transactions_loop nIndexOffset pageSize rows pos txs total
    = (txs', total') ->
    nIndexOffset <= pos ->
    NoDup (map txid_of txs) ->
    Z.of_nat (List.length txs) + distinct_txids (map txid_of txs) rows
    <= pageSize ->
    total' = total + distinct_txids (map txid_of txs) rows
    /\ Z.of_nat (List.length txs')
       = Z.of_nat (List.length txs) + distinct_txids (map txid_of txs) rows
    /\ (forall t, entry_amount t txs' = entry_amount t txs + tx_sum t rows).
Proof.
  intros off size rows; induction rows as [|[key value] rest IH];
    intros pos txs total txs' total' H Hpos Hnd Hroom; simpl in H.
  - inversion H; subst; unfold tx_sum; simpl.
    repeat split; lia.
  - cbn [distinct_txids] in Hroom |- *.
    assert (Hsum : forall t,
               tx_sum t ((key, value) :: rest)
               = (if idx_txhash key =? t then value else 0) + tx_sum t rest).
    { intros t; unfold tx_sum; simpl.
      destruct (idx_txhash key =? t); simpl; lia. }
    destruct (find_if _ txs) as [e|] eqn:E.
    + apply find_txid_some in E.
      assert (Hs : existsb (Z.eqb (idx_txhash key)) (map txid_of txs) = true)
        by now apply existsb_Zeqb_In.
      rewrite Hs in *.
      apply IH in H; rewrite ?add_to_found_txids, ?add_to_found_length in *;
        try assumption; try lia.
      destruct H as (Ht & Hl & Ha); repeat split; try assumption.
      intros t; rewrite Ha, entry_amount_add_to_found, Hsum by exact E; lia.
    + apply find_txid_none in E.
      assert (Hs : existsb (Z.eqb (idx_txhash key)) (map txid_of txs) = false).
      { destruct (existsb _ _) eqn:Hx; [|reflexivity].
        apply existsb_Zeqb_In in Hx; contradiction. }
      rewrite Hs in *.
      assert (Hext : distinct_txids (idx_txhash key :: map txid_of txs) rest
                     = distinct_txids
                         (map txid_of
                              (txs ++ [(idx_txhash key, idx_blockHeight key, value)]))
                         rest).
      { apply distinct_txids_ext; intros x.
        rewrite map_app, in_app_iff; simpl; tauto. }
      pose proof (distinct_txids_bounds rest
                    (idx_txhash key :: map txid_of txs)) as Hd.
      assert (Hc : (pos >=? off) && (Z.of_nat (List.length txs) <? size)
                   = true).
      { apply andb_true_iff; split; [apply Z.geb_le|apply Z.ltb_lt]; lia. }
      rewrite Hc in H.
      apply IH in H.
      * rewrite length_app in H; simpl in H; rewrite <- Hext in H.
        destruct H as (Ht & Hl & Ha); repeat split; try lia.
        intros t; rewrite Ha, entry_amount_app, Hsum by exact E; lia.
      * lia.
      * rewrite map_app; simpl.
        apply NoDup_app; repeat split; [exact Hnd|repeat constructor; auto|].
        intros x Hx [<-|[]]; contradiction.
      * rewrite length_app, <- Hext; simpl; lia.
Qed.

(** X10. On the first page, when the index holds no more distinct
    transactions than the page may list, the count is the number of
    distinct transactions, the page has one entry for each, and the amount
    of every transaction on the page is the sum of all its rows (a
    transaction that is not in the index has amount 0 on the page). *)
Theorem GetAddressesTransactions_whole_index :
  forall env addrStr pageSize ascending key addressIndex txs total,
    GetIndexKey env addrStr = Some key ->
    GetAddressIndex env key = Some addressIndex ->
    distinct_txids [] (rows_read ascending addressIndex) <= pageSize ->
    GetAddressesTransactions env addrStr 1 pageSize ascending
    = Ok (txs, total) ->
    total = distinct_txids [] (rows_read ascending addressIndex)
    /\ Z.of_nat (List.length txs) = total
    /\ (forall t, entry_amount t txs
                  = tx_sum t (rows_read ascending addressIndex)).
Proof.
  intros env a pageSize asc key idx txs total Ek Ei Hroom H.
  unfold GetAddressesTransactions in H; rewrite Ek, Ei in H.
  inversion H as [Hloop]; clear H.
  fold (rows_read asc idx) in Hloop.
  apply transactions_loop_full in Hloop; simpl;
    [|vm_compute; discriminate|constructor|simpl; lia].
  simpl in Hloop; destruct Hloop as (Ht & Hl & Ha).
  repeat split; [lia|lia|].
  intros t; rewrite Ha; unfold entry_amount; simpl; lia.
Qed.

Lemma GetAddressesTransactions_whole_index_witness :
  2 = distinct_txids []
        (rows_read true
           [(mkIndexKey 5 5 false, 1);
            (mkIndexKey 6 6 false, 1);
            (mkIndexKey 6 6 false, 2)])
  /\ Z.of_nat (List.length [(5, 5, 1); (6, 6, 3)]) = 2
  /\ (forall t, entry_amount t [(5, 5, 1); (6, 6, 3)]
                = tx_sum t
                    (rows_read true
                       [(mkIndexKey 5 5 false, 1);
                        (mkIndexKey 6 6 false, 1);
                        (mkIndexKey 6 6 false, 2)])).
Proof.
  apply (GetAddressesTransactions_whole_index env_two_outputs addr1 10 true
           key1
           [(mkIndexKey 5 5 false, 1);
            (mkIndexKey 6 6 false, 1);
            (mkIndexKey 6 6 false, 2)]
           [(5, 5, 1); (6, 6, 3)] 2).
  - reflexivity.
  - reflexivity.
  - vm_compute; discriminate.
  - vm_compute; reflexivity.
Defined.

(** * Further properties of [IsTimeLocked] *)

(** The answer for an output that is found, as a proposition: a height
    lock holds while the height is below the lock value, a time lock while
    the time is. *)
Lemma IsTimeLocked_rule :
  forall env blockHeight txhash address block tx out,
    ReadBlockFromDisk env blockHeight = Some block ->
    find_if (fun t => Z.eqb txhash (GetHash t)) (vtx block) = Some tx ->
    find_if (pays_to env address) (vout tx) = Some out ->
    0 <= chainActive_Height env < 2 ^ 32 ->
    exists locked,
      IsTimeLocked env blockHeight txhash address = Ok locked
      /\ (locked = true <->
          GetLockTime out <> 0
          /\ ((GetLockTime out < LOCKTIME_THRESHOLD env
               /\ chainActive_Height env < GetLockTime out)
              \/ (LOCKTIME_THRESHOLD env <= GetLockTime out
                  /\ nCurrentTime_of env < GetLockTime out))).
Proof.
  intros env h t a block tx out Hblock Htx Hout Hheight.
  unfold IsTimeLocked; rewrite Hblock, Htx, Hout; cbv zeta.
  fold (nCurrentTime_of env).
  unfold to_uint32; rewrite Z.mod_small by lia.
  destruct (Z.eqb_spec (GetLockTime out) 0) as [Hz|Hnz].
  - exists false; split; [reflexivity|].
    split; [discriminate|intros [Hne _]; contradiction].
  - destruct (Z.ltb_spec (GetLockTime out) (LOCKTIME_THRESHOLD env)),
             (Z.ltb_spec (chainActive_Height env) (GetLockTime out)),
             (Z.geb_spec (GetLockTime out) (LOCKTIME_THRESHOLD env)),
             (Z.ltb_spec (nCurrentTime_of env) (GetLockTime out));
      simpl; eexists; (split; [reflexivity|]);
      split; try discriminate; try (intros _; split; [exact Hnz|lia]);
      intros [_ [[? ?]|[? ?]]]; lia.
Qed.

(** X11. An output that [IsTimeLocked] reports as not locked stays not
    locked when the tip moves to a greater height and a later median time
    (heights within the range of [uint32_t]): the answer "not locked" is
    never withdrawn as the chain grows. *)
Theorem IsTimeLocked_stays_unlocked :
  forall env blockHeight txhash address height' medianTimePast',
    0 <= chainActive_Height env <= height' ->
    height' < 2 ^ 32 ->
    nCurrentTime_of env <= medianTimePast' ->
    IsTimeLocked env blockHeight txhash address = Ok false ->
    IsTimeLocked (at_tip env height' medianTimePast') blockHeight txhash address
    = Ok false.
Proof.
  intros env h t a height' mtp' Hh Hmax Ht H.
  unfold IsTimeLocked in H |- *.
  change (ReadBlockFromDisk (at_tip env height' mtp'))
    with (ReadBlockFromDisk env).
  destruct (ReadBlockFromDisk env h) as [block|]; [|discriminate].
  destruct (find_if _ (vtx block)) as [tx|]; [|discriminate].
  change (pays_to (at_tip env height' mtp') a) with (pays_to env a).
  destruct (find_if (pays_to env a) (vout tx)) as [out|]; [|reflexivity].
  cbv zeta in H |- *.
  destruct (GetLockTime out =? 0); [reflexivity|].
  fold (nCurrentTime_of env) in H.
  change (LOCKTIME_THRESHOLD (at_tip env height' mtp'))
    with (LOCKTIME_THRESHOLD env).
  change (chainActive_Height (at_tip env height' mtp')) with height'.
  change (Tip_GetMedianTimePast (at_tip env height' mtp')) with (Some mtp').
  unfold to_uint32 in *; rewrite Z.mod_small in H |- * by lia.
  destruct (Z.ltb_spec (GetLockTime out) (LOCKTIME_THRESHOLD env)),
           (Z.ltb_spec (chainActive_Height env) (GetLockTime out)),
           (Z.geb_spec (GetLockTime out) (LOCKTIME_THRESHOLD env)),
           (Z.ltb_spec (nCurrentTime_of env) (GetLockTime out));
    simpl in H; try discriminate;
    destruct (Z.ltb_spec height' (GetLockTime out)),
             (Z.ltb_spec mtp' (GetLockTime out));
    simpl; try reflexivity; lia.
Qed.

Lemma IsTimeLocked_stays_unlocked_witness :
  IsTimeLocked (at_tip env_relock 1000 1700000000) 10 10 addr1 = Ok false.
Proof.
  apply (IsTimeLocked_stays_unlocked (at_tip env_relock 1000 1600000000)
           10 10 addr1 1000 1700000000).
  - unfold at_tip; simpl; lia.
  - lia.
  - unfold at_tip, nCurrentTime_of; simpl; lia.
  - vm_compute; reflexivity.
Defined.

(** X12. [IsTimeLocked] fails in two cases only: with [BlockNotFound]
    exactly when the block at the height cannot be read, and with
    [TxNotFound] exactly when the block is read and holds no transaction of
    the hash; in every other case it answers. *)
Theorem IsTimeLocked_failures :
  forall env blockHeight txhash address,
    (IsTimeLocked env blockHeight txhash address
     = Err (SAPI.Error SAPI.BlockNotFound)
     <-> ReadBlockFromDisk env blockHeight = None)
    /\ (IsTimeLocked env blockHeight txhash address
        = Err (SAPI.Error SAPI.TxNotFound)
        <-> exists block,
            ReadBlockFromDisk env blockHeight = Some block
            /\ forall tx, In tx (vtx block) -> GetHash tx <> txhash)
    /\ (forall e, IsTimeLocked env blockHeight txhash address = Err e ->
                  e = SAPI.Error SAPI.BlockNotFound
                  \/ e = SAPI.Error SAPI.TxNotFound).
Proof.
  intros env h t a.
  assert (Hanswers :
            forall block tx,
              ReadBlockFromDisk env h = Some block ->
              find_if (fun x => Z.eqb t (GetHash x)) (vtx block) = Some tx ->
              exists b, IsTimeLocked env h t a = Ok b).
  { intros block tx Hb Htx; unfold IsTimeLocked; rewrite Hb, Htx.
    destruct (find_if _ (vout tx)) as [out|]; [|now eexists].
    cbv zeta; destruct (GetLockTime out =? 0); [now eexists|].
    destruct (_ || _); now eexists. }
  split; [|split].
  - split.
    + intros H; destruct (ReadBlockFromDisk env h) as [block|] eqn:Hb;
        [|reflexivity].
      exfalso; unfold IsTimeLocked in H; rewrite Hb in H.
      destruct (find_if _ (vtx block)) as [tx|] eqn:Htx; [|discriminate].
      destruct (Hanswers block tx eq_refl Htx) as [b Hx].
      unfold IsTimeLocked in Hx; rewrite Hb, Htx in Hx; congruence.
    + intros Hb; unfold IsTimeLocked; now rewrite Hb.
  - split.
    + intros H; destruct (ReadBlockFromDisk env h) as [block|] eqn:Hb.
      * exists block; split; [reflexivity|].
        destruct (find_if (fun x => Z.eqb t (GetHash x)) (vtx block))
          as [tx|] eqn:Htx.
        -- destruct (Hanswers block tx eq_refl Htx) as [b Hx]; congruence.
        -- intros tx Hin Heq.
           pose proof (find_if_none_inv _ _ _ Htx tx Hin) as Hf.
           cbv beta in Hf; rewrite Heq, Z.eqb_refl in Hf; discriminate.
      * unfold IsTimeLocked in H; rewrite Hb in H; discriminate.
    + intros (block & Hb & Hnone); unfold IsTimeLocked; rewrite Hb.
      rewrite find_if_none; [reflexivity|].
      intros tx Hin; apply Z.eqb_neq; intros Heq; exact (Hnone tx Hin (eq_sym Heq)).
  - intros e; apply IsTimeLocked_error.
Qed.

(** ** The mempool deltas of an address *)

Lemma mempool_entries_rows :
  forall view indexes result,
    mempool_entries view indexes = inl result ->
    map delta_core result = map row_core indexes
    /\ Forall2 (fun r e =>
                  getAddressFromIndex view (mk_type (fst r))
                                      (mk_addressBytes (fst r))
                  = Some (d_address e))
               indexes result
    /\ Forall2 (fun r e =>
                  d_prev e = if mp_amount (snd r) <? 0
                             then Some (mp_prevhash (snd r), mp_prevout (snd r))
                             else None)
               indexes result.
Proof.
  intros view indexes; induction indexes as [|[k d] rest IH]; intros result H.
  - injection H as <-; repeat split; constructor.
  - cbn [mempool_entries] in H.
    destruct (getAddressFromIndex view (mk_type k) (mk_addressBytes k))
      as [address|] eqn:Ha; [|discriminate].
    destruct (mempool_entries view rest) as [es|f] eqn:Hrest; [|discriminate].
    injection H as <-.
    destruct (IH es eq_refl) as (Hc & Haddr & Hprev).
    repeat split.
    + cbn [map]; rewrite Hc; reflexivity.
    + constructor; [exact Ha | exact Haddr].
    + constructor; [reflexivity | exact Hprev].
Qed.

Lemma mempool_entries_total :
  forall view indexes,
    Forall (fun r => getAddressFromIndex view (mk_type (fst r))
                                         (mk_addressBytes (fst r)) <> None)
           indexes ->
    exists result, mempool_entries view indexes = inl result.
Proof.
  intros view indexes H; induction H as [|[k d] rest Hx _ IH].
  - exists []; reflexivity.
  - cbn [mempool_entries]; cbn [fst] in Hx.
    destruct (getAddressFromIndex view (mk_type k) (mk_addressBytes k));
      [|congruence].
    destruct IH as [es ->]; eexists; reflexivity.
Qed.

Lemma TimeSort_sorted :
  forall l, StronglySorted Z.le (map (fun r : MempoolRow => mp_time (snd r))
                                     (TimeSort.sort l)).
Proof.
  intros l.
  assert (H : StronglySorted (fun a b => TimeOrder.leb a b = true)
                             (TimeSort.sort l)).
  { apply TimeSort.StronglySorted_sort.
    intros a b c; unfold is_true, TimeOrder.leb, time_leb; lia. }
  induction H as [|a rest _ IH Hall]; cbn [map]; constructor.
  - exact IH.
  - rewrite Forall_map; eapply Forall_impl; [|exact Hall].
    intros b Hb; unfold TimeOrder.leb, time_leb in Hb; lia.
Qed.

(** X13.  The reply of [GetAddressMempool] lists the deltas of the address
    that the mempool holds, each exactly once, by ascending timestamp: its
    objects carry the transaction, index, amount and timestamp of a
    rearrangement of the deltas, the address is the string form of the
    delta's own address bytes, and an object has [prevtxid] and [prevout]
    exactly when its amount is negative.  When every delta's address has a
    string form, the function does reply. *)
Theorem GetAddressMempool_reply :
  forall env view addr key indexes,
    GetIndexKey env addr = Some key ->
    mp_getAddressIndex view key = Some indexes ->
    (forall result,
        GetAddressMempool env view addr = inl result ->
        Permutation (map row_core indexes) (map delta_core result)
        /\ StronglySorted Z.le (map d_timestamp result)
        /\ Forall (fun e => d_prev e <> None <-> d_satoshis e < 0) result
        /\ Forall (fun e => exists r,
                       In r indexes
                       /\ getAddressFromIndex view (mk_type (fst r))
                                              (mk_addressBytes (fst r))
                          = Some (d_address e)
                       /\ row_core r = delta_core e
                       /\ (d_satoshis e < 0 ->
                           d_prev e = Some (mp_prevhash (snd r),
                                            mp_prevout (snd r))))
                  result)
    /\ (Forall (fun r => getAddressFromIndex view (mk_type (fst r))
                                             (mk_addressBytes (fst r)) <> None)
               indexes ->
        exists result, GetAddressMempool env view addr = inl result)
    /\ (forall f,
           GetAddressMempool env view addr = inr f ->
           f = BadRequestMessage "Unknown address type").
Proof.
  intros env view addr key indexes Hkey Hidx.
  unfold GetAddressMempool; rewrite Hkey, Hidx.
  pose proof (TimeSort.Permuted_sort indexes) as Hperm.
  split; [intros result H | split; [intros Hall | intros f]].
  2: { apply mempool_entries_total.
       rewrite Forall_forall in *; intros r Hr; apply Hall.
       eapply Permutation_in; [symmetry; exact Hperm | exact Hr]. }
  2: { generalize (TimeSort.sort indexes) as rows.
       intros rows; induction rows as [|[k d] rest IH]; intros Hf;
         [discriminate|].
       cbn [mempool_entries] in Hf.
       destruct (getAddressFromIndex view (mk_type k) (mk_addressBytes k));
         [|congruence].
       destruct (mempool_entries view rest) as [es|f'];
         [discriminate | injection Hf as <-; apply IH; reflexivity]. }
  destruct (mempool_entries_rows _ _ _ H) as (Hc & Haddr & Hprev).
  assert (Hin : forall r, In r (TimeSort.sort indexes) -> In r indexes).
  { intros r Hr; eapply Permutation_in; [symmetry; exact Hperm | exact Hr]. }
  split; [|split; [|split]].
  - rewrite Hc; apply Permutation_map; exact Hperm.
  - assert (Ht : map d_timestamp result
                 = map (fun r : MempoolRow => mp_time (snd r))
                       (TimeSort.sort indexes)).
    { change d_timestamp with (fun e => snd (delta_core e)).
      rewrite <- (map_map delta_core snd), Hc, map_map; reflexivity. }
    rewrite Ht; apply TimeSort_sorted.
  - clear Haddr Hin H; revert Hc Hprev; generalize (TimeSort.sort indexes) as rows.
    intros rows Hc Hprev; revert Hc.
    induction Hprev as [|r e rows' es Hre _ IH]; intros Hc; constructor.
    + cbn [map] in Hc.
      assert (Hcore : delta_core e = row_core r) by congruence.
      unfold delta_core, row_core in Hcore.
      assert (Hs : d_satoshis e = mp_amount (snd r)) by congruence.
      rewrite Hre, Hs.
      destruct (Z.ltb_spec (mp_amount (snd r)) 0); split;
        intros; try lia; congruence.
    + apply IH; cbn [map] in Hc; congruence.
  - clear H; revert Hc Haddr Hprev Hin; generalize (TimeSort.sort indexes) as rows.
    intros rows Hc Haddr; revert Hc.
    induction Haddr as [|r e rows' es Hre _ IH]; intros Hc Hprev Hin;
      constructor.
    + inversion Hprev as [|? ? ? ? Hp _]; subst.
      cbn [map] in Hc.
      assert (Hcore : delta_core e = row_core r) by congruence.
      exists r; repeat split.
      * apply Hin; left; reflexivity.
      * exact Hre.
      * symmetry; exact Hcore.
      * intros Hneg; rewrite Hp.
        unfold delta_core, row_core in Hcore.
        assert (Hs : d_satoshis e = mp_amount (snd r)) by congruence.
        destruct (Z.ltb_spec (mp_amount (snd r)) 0); [reflexivity | lia].
    + inversion Hprev; subst.
      apply IH; [cbn [map] in Hc; congruence
                | assumption
                | intros r' Hr'; apply Hin; right; exact Hr'].
Qed.

Lemma GetAddressMempool_reply_witness :
  exists result,
    GetAddressMempool env_balance view_two addr1 = inl result
    /\ map d_txid result = [20; 21]
    /\ StronglySorted Z.le (map d_timestamp result).
Proof.
  pose proof (GetAddressMempool_reply env_balance view_two addr1 key1
                _ eq_refl eq_refl) as (Hreply & _ & _).
  eexists; split; [vm_compute; reflexivity|].
  split; [reflexivity|].
  apply (Hreply _ eq_refl).
Defined.

(** ** Pages of unspent outputs and of deposits *)

Lemma static_cast_int_small :
  forall z, - 2 ^ 31 <= z < 2 ^ 31 -> static_cast_int z = z.
Proof.
  intros z Hz; unfold static_cast_int; rewrite Z.mod_small; lia.
Qed.

(** The window of a page: for a positive page size and a count that fits an
    [int], the pages are the ceiling of count over size, and page [p] covers
    the rows from [(p - 1) * size] up to [min count (p * size)], never
    empty. *)
Lemma page_window :
  forall nCount nPageSize nPageNumber,
    0 < nPageSize -> 0 < nCount < 2 ^ 31 ->
    1 <= nPageNumber <= pages_of nCount nPageSize ->
    pages_of nCount nPageSize = (nCount + nPageSize - 1) / nPageSize
    /\ page_offset nPageNumber nPageSize = (nPageNumber - 1) * nPageSize
    /\ 0 < page_limit nCount nPageSize nPageNumber (pages_of nCount nPageSize)
    /\ page_offset nPageNumber nPageSize
       + page_limit nCount nPageSize nPageNumber (pages_of nCount nPageSize)
       = Z.min nCount (nPageNumber * nPageSize).
Proof.
  intros nCount nPageSize nPageNumber Hsize Hcount.
  unfold pages_of, page_offset, page_limit.
  rewrite Z.quot_div_nonneg, Z.rem_mod_nonneg by lia.
  pose proof (Z.div_mod nCount nPageSize ltac:(lia)) as Hdm.
  pose proof (Z.mod_pos_bound nCount nPageSize Hsize) as Hr.
  set (q := nCount / nPageSize) in *.
  set (r := nCount mod nPageSize) in *.
  assert (Hq : 0 <= q) by (apply Z.div_pos; lia).
  assert (Hqle : q <= nCount) by nia.
  rewrite (static_cast_int_small q) by lia.
  assert (Hceil : (nCount + nPageSize - 1) / nPageSize
                  = if r =? 0 then q else q + 1).
  { destruct (Z.eqb_spec r 0).
    - symmetry; apply (Z.div_unique _ _ q (nPageSize - 1)); lia.
    - symmetry; apply (Z.div_unique _ _ (q + 1) (r - 1)); lia. }
  rewrite Hceil; intros Hpage.
  assert (Hoff : 0 <= (nPageNumber - 1) * nPageSize < nCount).
  { destruct (Z.eqb_spec r 0); nia. }
  rewrite (static_cast_int_small ((nPageNumber - 1) * nPageSize)) by lia.
  split; [reflexivity|]; split; [reflexivity|].
  destruct (Z.eqb_spec r 0) as [Hr0|Hr0]; cbn [negb andb].
  - rewrite static_cast_int_small by nia; nia.
  - destruct (Z.eqb_spec nPageNumber (q + 1)) as [->|Hne].
    + rewrite static_cast_int_small by lia; nia.
    + rewrite static_cast_int_small by nia; nia.
Qed.

Lemma utxo_entries_reported :
  forall env address unspentOutputs arrUtxos,
    utxo_entries env address unspentOutputs = Ok arrUtxos ->
    Forall2 (utxo_reported env address) unspentOutputs arrUtxos.
Proof.
  intros env address unspentOutputs;
    induction unspentOutputs as [|[key value] rest IH]; intros arrUtxos H.
  - injection H as <-; constructor.
  - cbn [utxo_entries bind] in H.
    destruct (IsTimeLocked env (nBlockHeight key) (txhash key) address)
      as [fLocked|e] eqn:Hl; [|discriminate].
    cbn [bind] in H.
    destruct (utxo_entries env address rest) as [es|e]; [|discriminate].
    cbn [bind] in H; injection H as <-.
    constructor; [|apply IH; reflexivity].
    unfold utxo_reported; cbn; rewrite Hl, Bool.negb_involutive.
    repeat split.
Qed.

(** X14.  A reply of [address_utxos] to a request for page [p] of size
    [s], with [s] positive and [p] at least 1: the count is the number of
    unspent outputs of the address, the pages are the ceiling of the count
    over [s], [p] is one of them, and the outputs listed are those the index
    gives for the rows from [(p - 1) * s] up to [min count (p * s)], a window
    that is never empty; each object repeats its output, says whether the
    mempool spends it, and is spendable exactly when [IsTimeLocked] answers
    that it is not locked. *)
Theorem address_utxos_page :
  forall env GetAddressUnspentReverse addrStr nPageNumber nPageSize fAsc reply,
    0 < nPageSize -> 1 <= nPageNumber ->
    (forall key n, GetAddressUnspentCount env key = Some n -> 0 <= n < 2 ^ 31) ->
    address_utxos env GetAddressUnspentReverse addrStr nPageNumber nPageSize fAsc
    = Ok reply ->
    exists key nIndexOffset nLimit unspentOutputs,
      GetIndexKey env addrStr = Some key
      /\ GetAddressUnspentCount env key = Some (ur_count reply)
      /\ ur_pages reply = (ur_count reply + nPageSize - 1) / nPageSize
      /\ ur_page reply = nPageNumber
      /\ nPageNumber <= ur_pages reply
      /\ nIndexOffset = (nPageNumber - 1) * nPageSize
      /\ 0 < nLimit
      /\ nIndexOffset + nLimit = Z.min (ur_count reply) (nPageNumber * nPageSize)
      /\ (if fAsc then GetAddressUnspent env key nIndexOffset nLimit
          else GetAddressUnspentReverse key nIndexOffset nLimit)
         = Some unspentOutputs
      /\ Forall2 (utxo_reported env addrStr) unspentOutputs (ur_utxos reply).
Proof.
  intros env rev addrStr nPageNumber nPageSize fAsc reply Hsize Hpage Hint H.
  unfold address_utxos in H.
  destruct (GetIndexKey env addrStr) as [key|] eqn:Hkey; [|discriminate].
  destruct (GetAddressUnspentCount env key) as [n|] eqn:Hn; [|discriminate].
  destruct (Z.eqb_spec n 0) as [|Hn0]; [discriminate|].
  destruct (Z.gtb_spec nPageNumber (pages_of n nPageSize)) as [|Hle];
    [discriminate|].
  pose proof (Hint key n Hn) as Hrange.
  destruct (page_window n nPageSize nPageNumber Hsize ltac:(lia) ltac:(lia))
    as (Hpages & Hoff & Hlim & Hwin).
  set (fetch := if fAsc then _ else _) in H.
  destruct fetch as [unspentOutputs|] eqn:Hfetch; [|discriminate].
  destruct (utxo_entries env addrStr unspentOutputs) as [arrUtxos|e] eqn:He;
    [|discriminate].
  cbn [bind] in H; injection H as <-; cbn.
  exists key, (page_offset nPageNumber nPageSize),
    (page_limit n nPageSize nPageNumber (pages_of n nPageSize)), unspentOutputs.
  repeat split; try assumption; try lia.
  apply utxo_entries_reported; exact He.
Qed.

(** Five outputs of [addr1]. *)
Lemma address_utxos_page_witness :
  exists reply,
    address_utxos
      (ledger no_lock [] [] (fun _ => false)
              [utxo 1 10; utxo 2 20; utxo 3 30; utxo 4 40; utxo 5 50])
      (fun _ _ _ => None) addr1 3 2 true
    = Ok reply
    /\ ur_pages reply = 3
    /\ map o_txid (ur_utxos reply) = [5].
Proof.
  eexists; split; [vm_compute; reflexivity|].
  split; [|reflexivity].
  destruct (address_utxos_page
              (ledger no_lock [] [] (fun _ => false)
                      [utxo 1 10; utxo 2 20; utxo 3 30; utxo 4 40; utxo 5 50])
              (fun _ _ _ => None) addr1 3 2 true _
              ltac:(lia) ltac:(lia)
              ltac:(intros key n Hn; vm_compute in Hn; injection Hn as <-; lia)
              eq_refl)
    as (key & o & l & us & _ & _ & Hpages & _).
  exact Hpages.
Defined.

(** X15.  A reply of [address_deposit] to a request for page [p] of size
    [s], with [s] positive and [p] at least 1: the time range asked of the
    index starts at [timestampFrom] (0 when absent) and ends at [timestampTo]
    ([INT_MAX] when absent), the end after the start; the pages are the
    ceiling of the count over [s]; the rows are those the index gives from
    offset [(p - 1) * s] up to [min count (p * s)], read forwards from the
    first timestamp when ascending and backwards from the last one
    otherwise. *)
Theorem address_deposit_page :
  forall env view addrStr timestampFrom timestampTo nPageNumber nPageSize fAsc
         reply,
    0 < nPageSize -> 1 <= nPageNumber ->
    (forall key a b n t1 t2,
        GetDepositIndexCount view key a b = Some (n, t1, t2) -> 0 <= n < 2 ^ 31) ->
    address_deposit env view addrStr timestampFrom timestampTo
                    nPageNumber nPageSize fAsc = inl reply ->
    exists key nFirstTimestamp nLastTimestamp nIndexOffset nLimit,
      let start := match timestampFrom with Some v => v | None => 0 end in
      let end_ := match timestampTo with Some v => v | None => 2 ^ 31 - 1 end in
      start < end_
      /\ GetIndexKey env addrStr = Some key
      /\ GetDepositIndexCount view key start end_
         = Some (dr_count reply, nFirstTimestamp, nLastTimestamp)
      /\ dr_pages reply = (dr_count reply + nPageSize - 1) / nPageSize
      /\ dr_page reply = nPageNumber
      /\ nPageNumber <= dr_pages reply
      /\ nIndexOffset = (nPageNumber - 1) * nPageSize
      /\ 0 < nLimit
      /\ nIndexOffset + nLimit = Z.min (dr_count reply) (nPageNumber * nPageSize)
      /\ GetDepositIndex view key
           (if fAsc then nFirstTimestamp else nLastTimestamp)
           nIndexOffset nLimit (negb fAsc)
         = Some (dr_deposits reply).
Proof.
  intros env view addrStr timestampFrom timestampTo nPageNumber nPageSize fAsc
         reply Hsize Hpage Hint H.
  unfold address_deposit in H.
  set (start := match timestampFrom with Some v => v | None => 0 end) in *.
  set (end_ := match timestampTo with Some v => v | None => INT_MAX end) in *.
  destruct (Z.leb_spec end_ start) as [|Horder]; [discriminate|].
  destruct (GetIndexKey env addrStr) as [key|] eqn:Hkey; [|discriminate].
  destruct (GetDepositIndexCount view key start end_) as [[[n t1] t2]|] eqn:Hn;
    [|discriminate].
  destruct (Z.eqb_spec n 0) as [|Hn0]; [discriminate|].
  destruct (Z.gtb_spec nPageNumber (pages_of n nPageSize)) as [|Hle];
    [discriminate|].
  pose proof (Hint _ _ _ _ _ _ Hn) as Hrange.
  destruct (page_window n nPageSize nPageNumber Hsize ltac:(lia) ltac:(lia))
    as (Hpages & Hoff & Hlim & Hwin).
  destruct (GetDepositIndex view key (if fAsc then t1 else t2)
              (page_offset nPageNumber nPageSize)
              (page_limit n nPageSize nPageNumber (pages_of n nPageSize))
              (negb fAsc)) as [depositIndex|] eqn:Hfetch; [|discriminate].
  injection H as <-; cbn.
  exists key, t1, t2, (page_offset nPageNumber nPageSize),
    (page_limit n nPageSize nPageNumber (pages_of n nPageSize)).
  repeat split; try assumption; try lia.
Qed.

Lemma address_deposit_page_witness :
  exists reply,
    address_deposit env_balance view_deposits addr1 None None 2 3 false
    = inl reply
    /\ dr_pages reply = 2
    /\ map dep_timestamp (dr_deposits reply) = [2; 1].
Proof.
  eexists; split; [vm_compute; reflexivity|].
  split; [|reflexivity].
  destruct (address_deposit_page env_balance view_deposits addr1 None None
              2 3 false _ ltac:(lia) ltac:(lia)
              ltac:(intros key a b n t1 t2 Hn; vm_compute in Hn;
                    injection Hn as <- _ _; lia)
              eq_refl)
    as (key & t1 & t2 & o & l & _ & _ & _ & Hpages & _).
  exact Hpages.
Defined.

(** ** The transactions of an address, confirmed and pending *)

Lemma mempool_full_entries_rows :
  forall Info view
         (GetTransactionInfo : option CBlock -> CTransaction -> Info + EndpointFailure)
         indexes result,
    mempool_full_entries view GetTransactionInfo indexes = inl result ->
    Forall2 (fun r txObj =>
               exists tx,
                 mp_lookup view (mp_txhash (mk_key (fst r))) = Some tx
                 /\ GetTransactionInfo None tx = inl txObj)
            indexes result.
Proof.
  intros Info view GTI indexes; induction indexes as [|[k d] rest IH];
    intros result H.
  - injection H as <-; constructor.
  - cbn [mempool_full_entries] in H.
    destruct (getAddressFromIndex view (mk_type k) (mk_addressBytes k));
      [|discriminate].
    destruct (mp_lookup view (mp_txhash (mk_key k))) as [tx|] eqn:Htx;
      [|discriminate].
    destruct (GTI None tx) as [txObj|f] eqn:Hinfo; [|discriminate].
    destruct (mempool_full_entries view GTI rest) as [es|f]; [|discriminate].
    injection H as <-.
    constructor; [|apply IH; reflexivity].
    exists tx; split; [exact Htx | exact Hinfo].
Qed.

(** X16.  [GetAddressMempoolFull] gives one object per delta of the
    address in the mempool, by ascending timestamp: the object of the
    transaction the mempool holds under the delta's hash.  A transaction
    with several deltas on the address is listed once per delta. *)
Theorem GetAddressMempoolFull_reply :
  forall Info env view
         (GetTransactionInfo : option CBlock -> CTransaction -> Info + EndpointFailure)
         addr result,
    GetAddressMempoolFull env view GetTransactionInfo addr = inl result ->
    exists key indexes sorted,
      GetIndexKey env addr = Some key
      /\ mp_getAddressIndex view key = Some indexes
      /\ Permutation indexes sorted
      /\ StronglySorted Z.le (map (fun r : MempoolRow => mp_time (snd r)) sorted)
      /\ List.length result = List.length indexes
      /\ Forall2 (fun r txObj =>
                    exists tx,
                      mp_lookup view (mp_txhash (mk_key (fst r))) = Some tx
                      /\ GetTransactionInfo None tx = inl txObj)
                 sorted result.
Proof.
  intros Info env view GTI addr result H.
  unfold GetAddressMempoolFull in H.
  destruct (GetIndexKey env addr) as [key|] eqn:Hkey; [|discriminate].
  destruct (mp_getAddressIndex view key) as [indexes|] eqn:Hidx; [|discriminate].
  pose proof (mempool_full_entries_rows _ _ _ _ _ H) as Hrows.
  exists key, indexes, (TimeSort.sort indexes).
  split; [reflexivity|]; split; [exact Hidx|].
  split; [apply TimeSort.Permuted_sort|].
  split; [apply TimeSort_sorted|].
  split; [|exact Hrows].
  rewrite <- (Forall2_length Hrows).
  symmetry; apply Permutation_length, TimeSort.Permuted_sort.
Qed.

Lemma GetAddressMempoolFull_reply_witness :
  exists result,
    GetAddressMempoolFull env_balance view_two info_hash addr1 = inl result
    /\ List.length result = 2%nat.
Proof.
  eexists; split; [vm_compute; reflexivity|].
  destruct (GetAddressMempoolFull_reply _ env_balance view_two info_hash addr1
              _ eq_refl)
    as (key & indexes & sorted & _ & Hidx & _ & _ & Hlen & _).
  injection Hidx as <-; exact Hlen.
Defined.

Lemma confirmed_items_entries :
  forall Info env
         (GetTransactionInfo : option CBlock -> CTransaction -> Info + EndpointFailure)
         direction vecResult transactions,
    confirmed_items env GetTransactionInfo direction vecResult = inl transactions ->
    map (@confirmed_entry Info) transactions
    = map Some (filter (direction_passes direction) vecResult)
    /\ Forall (fun item =>
                 match item with
                 | Confirmed txEntry txDirection _ =>
                   txDirection = direction_of txEntry
                 | Pending _ => False
                 end)
              transactions.
Proof.
  intros Info env GTI direction vecResult;
    induction vecResult as [|txEntry rest IH]; intros transactions H.
  - injection H as <-; split; [reflexivity | constructor].
  - cbn [confirmed_items] in H; cbn [filter].
    unfold direction_passes at 1.
    rewrite <- Bool.negb_orb in H.
    destruct (String.eqb direction "Any"
              || String.eqb direction (direction_of txEntry)) eqn:Hpass;
      cbn [negb] in H.
    + destruct (ReadBlockFromDisk env (snd (fst txEntry))) as [block|];
        [|discriminate].
      destruct (find_if _ (vtx block)) as [tx|].
      * destruct (GTI (Some block) tx) as [info|f]; [|discriminate].
        destruct (confirmed_items env GTI direction rest) as [items|f];
          [|discriminate].
        injection H as <-; destruct (IH items eq_refl) as [He Hd].
        split; [cbn [map confirmed_entry]; rewrite He; reflexivity|].
        constructor; [reflexivity | exact Hd].
      * destruct (confirmed_items env GTI direction rest) as [items|f];
          [|discriminate].
        injection H as <-; destruct (IH items eq_refl) as [He Hd].
        split; [cbn [map confirmed_entry]; rewrite He; reflexivity|].
        constructor; [reflexivity | exact Hd].
    + apply IH; exact H.
Qed.

Lemma add_pending_eq :
  forall Info fAsc (result : list Info) transactions,
    add_pending fAsc transactions result
    = if fAsc then transactions ++ map Pending result
      else rev (map Pending result) ++ transactions.
Proof.
  intros Info fAsc result; unfold add_pending.
  induction result as [|txObj rest IH]; intros transactions; cbn [fold_left map].
  - destruct fAsc; [rewrite app_nil_r|]; reflexivity.
  - rewrite IH; destruct fAsc.
    + rewrite <- app_assoc; reflexivity.
    + cbn [rev]; rewrite <- app_assoc; reflexivity.
Qed.

Lemma transactions_pages_ceil :
  forall totalNumTxs nPageSize,
    0 < nPageSize -> 1 <= totalNumTxs < 2 ^ 31 ->
    transactions_pages totalNumTxs nPageSize
    = (totalNumTxs + nPageSize - 1) / nPageSize.
Proof.
  intros n s Hs Hn; unfold transactions_pages.
  rewrite Z.quot_div_nonneg, Z.rem_mod_nonneg by lia.
  pose proof (Z.div_mod n s ltac:(lia)) as Hdm.
  pose proof (Z.mod_pos_bound n s Hs) as Hr.
  set (q := n / s) in *; set (r := n mod s) in *.
  assert (Hq : 0 <= q) by (apply Z.div_pos; lia).
  assert (Hqle : q <= n) by nia.
  rewrite (static_cast_int_small q) by lia.
  destruct (Z.eqb_spec r 0) as [Hr0|Hr0]; cbn [negb orb].
  - destruct (Z.ltb_spec n s) as [Hlt|Hge].
    + exfalso; destruct (Z.eq_dec q 0) as [Hq0|Hq0]; [subst r; lia | nia].
    + apply (Z.div_unique _ _ q (s - 1)); lia.
  - apply (Z.div_unique _ _ (q + 1) (r - 1)); lia.
Qed.

(** X17.  A reply of [address_transactions] for a positive page size, the
    count fitting an [int]: the count is the number of confirmed
    transactions [GetAddressesTransactions] reports plus the number of
    objects of the mempool, the pages are the ceiling of that count over the
    page size, and [data] holds the entries of the confirmed page that pass
    the filter on the direction, in their order, with all the objects of the
    mempool after them when ascending and before them, latest first, when
    descending: the objects of the mempool are on every page. *)
Theorem address_transactions_reply :
  forall Info env view
         (GetTransactionInfo : option CBlock -> CTransaction -> Info + EndpointFailure)
         addrStr nPageNumber nPageSize fAsc direction reply,
    0 < nPageSize ->
    address_transactions env view GetTransactionInfo addrStr
                         nPageNumber nPageSize fAsc direction = inl reply ->
    tr_count reply < 2 ^ 31 ->
    exists vecResult totalNumTxs transactions result,
      GetAddressesTransactions env addrStr nPageNumber nPageSize fAsc
      = Ok (vecResult, totalNumTxs)
      /\ 1 <= totalNumTxs
      /\ GetAddressMempoolFull env view GetTransactionInfo addrStr = inl result
      /\ tr_count reply = totalNumTxs + Z.of_nat (List.length result)
      /\ tr_pages reply = (tr_count reply + nPageSize - 1) / nPageSize
      /\ tr_page reply = nPageNumber
      /\ nPageNumber <= tr_pages reply
      /\ map (@confirmed_entry Info) transactions
         = map Some (filter (direction_passes direction) vecResult)
      /\ tr_data reply
         = if fAsc then transactions ++ map Pending result
           else rev (map Pending result) ++ transactions.
Proof.
  intros Info env view GTI addrStr nPageNumber nPageSize fAsc direction reply
         Hsize H Hint.
  unfold address_transactions in H.
  destruct (GetAddressesTransactions env addrStr nPageNumber nPageSize fAsc)
    as [[vecResult totalNumTxs]|e]; [|discriminate].
  destruct (Z.ltb_spec totalNumTxs 1) as [|Htotal]; [discriminate|].
  destruct (confirmed_items env GTI direction vecResult)
    as [transactions|f] eqn:Hitems; [|discriminate].
  destruct (GetAddressMempoolFull env view GTI addrStr) as [result|f];
    [|discriminate].
  destruct (Z.gtb_spec nPageNumber
              (transactions_pages
                 (totalNumTxs + Z.of_nat (List.length result)) nPageSize))
    as [|Hle]; [discriminate|].
  injection H as <-; cbn in *.
  rewrite transactions_pages_ceil in * by lia.
  exists vecResult, totalNumTxs, transactions, result.
  repeat split; try assumption; try lia.
  - apply (confirmed_items_entries _ _ _ _ _ _ Hitems).
  - apply add_pending_eq.
Qed.

Lemma address_transactions_reply_witness :
  exists reply,
    address_transactions env_two_outputs view_two info_hash addr1 2 1 false
                         "Any"
    = inl reply
    /\ tr_count reply = 5
    /\ tr_pages reply = 5
    /\ map (@confirmed_entry Z) (tr_data reply) = [None; None; Some (6, 6, 1)].
Proof.
  eexists; split; [vm_compute; reflexivity|].
  split; [reflexivity|].
  split; [|reflexivity].
  destruct (address_transactions_reply _ env_two_outputs view_two info_hash
              addr1 2 1 false "Any" _ ltac:(lia) eq_refl
              ltac:(vm_compute; reflexivity))
    as (v & t & c & r & _ & _ & _ & _ & Hpages & _).
  exact Hpages.
Defined.

(** X18.  [address_transaction] on an address answers as
    [address_transactions] does for the first page of 100, descending, any
    direction, except for the place of the objects of the mempool: same
    failure, or same count, pages and page, with the same confirmed items,
    the objects of the mempool pushed after them in ascending order where
    [address_transactions] has them in front, latest first. *)
Theorem address_transaction_as_first_page :
  forall Info env view
         (GetTransactionInfo : option CBlock -> CTransaction -> Info + EndpointFailure)
         addrStr,
    match address_transaction env view GetTransactionInfo (Some addrStr),
          address_transactions env view GetTransactionInfo addrStr 1 100 false
                               "Any" with
    | inl one, inl many =>
      tr_count one = tr_count many
      /\ tr_pages one = tr_pages many
      /\ tr_page one = tr_page many
      /\ exists transactions result,
           tr_data one = transactions ++ map Pending result
           /\ tr_data many = rev (map Pending result) ++ transactions
           /\ Forall (fun item => @confirmed_entry Info item <> None) transactions
    | inr f, inr f' => f = f'
    | _, _ => False
    end.
Proof.
  intros Info env view GTI addrStr.
  unfold address_transaction, address_transactions.
  destruct (GetAddressesTransactions env addrStr 1 100 false)
    as [[vecResult totalNumTxs]|e]; [|reflexivity].
  destruct (totalNumTxs <? 1); [reflexivity|].
  destruct (confirmed_items env GTI "Any" vecResult)
    as [transactions|f] eqn:Hitems; [|reflexivity].
  destruct (GetAddressMempoolFull env view GTI addrStr) as [result|f];
    [|reflexivity].
  destruct (1 >? transactions_pages
                   (totalNumTxs + Z.of_nat (List.length result)) 100);
    [reflexivity|].
  cbn; repeat split.
  exists transactions, result; rewrite !add_pending_eq.
  repeat split.
  destruct (confirmed_items_entries _ _ _ _ _ _ Hitems) as [_ Hd].
  eapply Forall_impl; [|exact Hd].
  intros [e d i|x]; [discriminate | contradiction].
Qed.
